(** * html2text: a shallow embedding of html2text.go

    The renderer walks a parsed HTML tree, dispatches on the tag of each
    element and funnels text through a greedy line wrapper.  This file
    embeds the Go code of [html2text.go] as Rocq functions and proves the
    properties of the rendering engine stated next to each theorem.

    Conventions of the embedding.

    - A Go [string] is modelled as the sequence of its code points
      ([gostring := list rune]); all strings are therefore valid UTF-8.
    - Go [int] values are modelled as [Z].  Every counter of the program is
      bounded by the number of bytes or nodes it has processed, so the
      64-bit wrap-around cannot be reached and is not written out.
    - A method with a pointer receiver that returns [error] becomes a
      function [Ctx -> outcome (Ctx * error)]: the receiver after the call,
      the returned error ([None] is [nil]), or a run-time panic.
    - [lineWrapper.out] points to the [buf] of the context that owns the
      wrapper; the two are one storage cell, kept in the wrapper record.
      The part "The program in memory" embeds the program a second time
      with the contexts as structs in a store and [out] as a pointer, and
      proves that the functions on contexts are what the program does
      there. *)

From Stdlib Require Import String Ascii List ZArith NArith Lia Bool.
Import ListNotations.
Open Scope Z_scope.

(** ** Strings *)

Definition rune := N.
Definition gostring := list rune.

(** ASCII literals of the source, written as Rocq strings. *)
Definition lit (s : string) : gostring :=
  map N_of_ascii (list_ascii_of_string s).

Definition LF : rune := 10%N.
Definition SP : rune := 32%N.

(** [var nl = []byte("\n")] and [var space = []byte(" ")]. *)
Definition nlBytes : gostring := [LF].
Definition spaceBytes : gostring := [SP].

Definition gostring_eqb (a b : gostring) : bool :=
  if list_eq_dec N.eq_dec a b then true else false.

(** [unicode.IsSpace]: the Latin-1 cases and the White_Space ranges above
    Latin-1. *)
Definition IsSpace (r : rune) : bool :=
  (if r <=? 255 then
     (r =? 9) || (r =? 10) || (r =? 11) || (r =? 12) || (r =? 13)
     || (r =? 32) || (r =? 0x85) || (r =? 0xA0)
   else
     (r =? 0x1680) || ((0x2000 <=? r) && (r <=? 0x200a))
     || (r =? 0x2028) || (r =? 0x2029) || (r =? 0x202f)
     || (r =? 0x205f) || (r =? 0x3000))%N.

Fixpoint dropWhile (p : rune -> bool) (s : gostring) : gostring :=
  match s with
  | [] => []
  | r :: s' => if p r then dropWhile p s' else s
  end.

(** [strings.TrimLeftFunc], [strings.TrimRightFunc] and
    [strings.TrimSpace]. *)
Definition TrimLeftFunc (s : gostring) (p : rune -> bool) : gostring :=
  dropWhile p s.

Definition TrimRightFunc (s : gostring) (p : rune -> bool) : gostring :=
  rev (dropWhile p (rev s)).

Definition TrimSpace (s : gostring) : gostring :=
  TrimRightFunc (TrimLeftFunc s IsSpace) IsSpace.

(** [strings.TrimPrefix]. *)
Fixpoint TrimPrefix_aux (s p : gostring) {struct p} : option gostring :=
  match p, s with
  | [], _ => Some s
  | _ :: _, [] => None
  | c :: p', r :: s' => if (c =? r)%N then TrimPrefix_aux s' p' else None
  end.

Definition TrimPrefix (s p : gostring) : gostring :=
  match TrimPrefix_aux s p with
  | Some rest => rest
  | None => s
  end.

(** [strings.Fields]: the maximal runs of non-space runes.  [cur] is the
    field being read. *)
Fixpoint Fields_from (cur : gostring) (s : gostring) : list gostring :=
  match s with
  | [] => match cur with [] => [] | _ => [cur] end
  | r :: s' =>
      if IsSpace r then
        match cur with
        | [] => Fields_from [] s'
        | _ => cur :: Fields_from [] s'
        end
      else Fields_from (cur ++ [r]) s'
  end.

Definition Fields (s : gostring) : list gostring := Fields_from [] s.

(** [strings.Split(s, "\n")]: never empty, [Split("", "\n")] is [[""]]. *)
Fixpoint Split_nl (s : gostring) : list gostring :=
  match s with
  | [] => [[]]
  | r :: s' =>
      if (r =? LF)%N then [] :: Split_nl s'
      else match Split_nl s' with
           | l :: ls => (r :: l) :: ls
           | [] => [[r]]
           end
  end.

(** [strings.Repeat] and [bytes.Repeat]. *)
Definition Repeat (s : gostring) (count : Z) : gostring :=
  List.concat (repeat s (Z.to_nat count)).

(** [strings.Replace(s, "\n ", "\n", -1)]: every occurrence, left to
    right, without overlap. *)
Fixpoint Replace_nlsp (s : gostring) : gostring :=
  match s with
  | [] => []
  | r :: s' =>
      if (r =? LF)%N then
        match s' with
        | r' :: s'' => if (r' =? SP)%N then LF :: Replace_nlsp s''
                       else LF :: Replace_nlsp s'
        | [] => [LF]
        end
      else r :: Replace_nlsp s'
  end.

(** [newlineRe.ReplaceAllString(s, "\n\n")] for [newlineRe = `\n\n+`]:
    every maximal run of two or more newlines becomes two newlines.  [k]
    is the number of newlines of the run read so far. *)
Fixpoint collapse_from (k : nat) (s : gostring) : gostring :=
  match s with
  | [] => repeat LF (Nat.min k 2)
  | r :: s' =>
      if (r =? LF)%N then collapse_from (S k) s'
      else repeat LF (Nat.min k 2) ++ r :: collapse_from 0 s'
  end.

Definition newlineRe_ReplaceAll (s : gostring) : gostring := collapse_from 0 s.

(** ** The line wrapper *)

Record lineWrapper := mkLineWrapper {
  lw_out : gostring;
  lw_width : Z;
  lw_n : Z;
  lw_nl : Z;
  lw_pendSpace : Z;
  lw_printed : bool
}.

(** [l.out.Write(p)]. *)
Definition lw_Write (l : lineWrapper) (p : gostring) : lineWrapper :=
  mkLineWrapper (lw_out l ++ p) (lw_width l) (lw_n l) (lw_nl l)
                (lw_pendSpace l) (lw_printed l).

Definition flushN (l : lineWrapper) (n : Z) : lineWrapper :=
  if (lw_n l =? 0) && (n <=? lw_nl l) then l
  else
    let n := n - lw_nl l in
    if n <? 1 then l
    else
      let l := if n =? 1 then lw_Write l nlBytes
               else lw_Write l (Repeat nlBytes n) in
      mkLineWrapper (lw_out l) (lw_width l) 0 (lw_nl l + n) 0 (lw_printed l).

Definition flush (l : lineWrapper) : lineWrapper := flushN l 1.

(** ** Nodes of package [html] *)

Inductive NodeType :=
| ErrorNode | TextNode | DocumentNode | ElementNode
| CommentNode | DoctypeNode | RawNode.

(** The atoms the renderer dispatches on, the table sections and
    [template]; every other atom (and the zero atom) is [OtherAtom]. *)
Inductive Atom :=
| Br | H1 | H2 | H3 | Blockquote | Div | Li | B | Strong | A | Img
| P | Ul | Table | Thead | Tbody | Tfoot | Th | Tr | Td | Pre
| Style | Script | Head | Template | OtherAtom.

Definition Atom_eqb (a b : Atom) : bool :=
  match a, b with
  | Br, Br | H1, H1 | H2, H2 | H3, H3 | Blockquote, Blockquote | Div, Div
  | Li, Li | B, B | Strong, Strong | A, A | Img, Img | P, P | Ul, Ul
  | Table, Table | Thead, Thead | Tbody, Tbody | Tfoot, Tfoot | Th, Th
  | Tr, Tr | Td, Td | Pre, Pre | Style, Style | Script, Script
  | Head, Head | Template, Template | OtherAtom, OtherAtom => true
  | _, _ => false
  end.

Record Attribute := mkAttribute {
  Namespace : gostring;
  Key : gostring;
  Val : gostring
}.

(** [FirstChild]/[NextSibling] chains are the list of children.  The
    induction principle [Node_induction] is stated below. *)
#[local] Unset Elimination Schemes.
Inductive Node :=
| mkNode (type : NodeType) (dataAtom : Atom) (data : gostring)
         (attr : list Attribute) (children : list Node).
#[local] Set Elimination Schemes.

Definition Type_ (n : Node) := let (t, _, _, _, _) := n in t.
Definition DataAtom (n : Node) := let (_, a, _, _, _) := n in a.
Definition Data (n : Node) := let (_, _, d, _, _) := n in d.
Definition Attr (n : Node) := let (_, _, _, a, _) := n in a.
Definition Children (n : Node) := let (_, _, _, _, c) := n in c.

Fixpoint getAttrVal_list (attrs : list Attribute) (attrName : gostring)
  : gostring :=
  match attrs with
  | [] => []
  | a :: rest =>
      if gostring_eqb (Key a) attrName then Val a
      else getAttrVal_list rest attrName
  end.

Definition getAttrVal (node : Node) (attrName : gostring) : gostring :=
  getAttrVal_list (Attr node) attrName.

(** ** Options *)

Record Border := mkBorder {
  Left : bool; Right : bool; Top : bool; Bottom : bool
}.

Record PrettyTablesOptions := mkPrettyTablesOptions {
  AutoFormatHeader : bool;
  AutoWrapText : bool;
  ReflowDuringAutoWrap : bool;
  ColWidth : Z;
  ColumnSeparator : gostring;
  RowSeparator : gostring;
  CenterSeparator : gostring;
  HeaderAlignment : Z;
  FooterAlignment : Z;
  Alignment : Z;
  ColumnAlignment : list Z;
  NewLine : gostring;
  HeaderLine : bool;
  RowLine : bool;
  AutoMergeCells : bool;
  Borders : Border
}.

Record Options := mkOptions {
  PrettyTables : bool;
  PrettyTablesOpts : option PrettyTablesOptions;
  OmitLinks : bool;
  TextOnly : bool
}.

(** The zero value, used when [FromHTMLNode] gets no options. *)
Definition zeroOptions : Options := mkOptions false None false false.

(** ** Contexts *)

Record tableTraverseContext := mkTableCtx {
  header : list gostring;
  body : list (list gostring);
  footer : list gostring;
  tmpRow : Z;
  isInFooter : bool
}.

Definition zeroTableCtx : tableTraverseContext :=
  mkTableCtx [] [] [] 0 false.

(** [tableCtx.init()]. *)
Definition tableCtx_init (t : tableTraverseContext) : tableTraverseContext :=
  mkTableCtx [] [] [] 0 false.

(** [buf] lives in [lw_out (wrapper ctx)], where [lineWrapper.out]
    points. *)
Record textifyTraverseContext := mkCtx {
  prefix : gostring;
  tableCtx : tableTraverseContext;
  options : Options;
  endsWithSpace : bool;
  justClosedDiv : bool;
  blockquoteLevel : Z;
  tableLevel : Z;
  wrapper : lineWrapper;
  isPre : bool
}.

Definition buf (ctx : textifyTraverseContext) : gostring :=
  lw_out (wrapper ctx).

Definition set_prefix ctx v :=
  mkCtx v (tableCtx ctx) (options ctx) (endsWithSpace ctx)
        (justClosedDiv ctx) (blockquoteLevel ctx) (tableLevel ctx)
        (wrapper ctx) (isPre ctx).
Definition set_tableCtx ctx v :=
  mkCtx (prefix ctx) v (options ctx) (endsWithSpace ctx)
        (justClosedDiv ctx) (blockquoteLevel ctx) (tableLevel ctx)
        (wrapper ctx) (isPre ctx).
Definition set_endsWithSpace ctx v :=
  mkCtx (prefix ctx) (tableCtx ctx) (options ctx) v
        (justClosedDiv ctx) (blockquoteLevel ctx) (tableLevel ctx)
        (wrapper ctx) (isPre ctx).
Definition set_justClosedDiv ctx v :=
  mkCtx (prefix ctx) (tableCtx ctx) (options ctx) (endsWithSpace ctx)
        v (blockquoteLevel ctx) (tableLevel ctx)
        (wrapper ctx) (isPre ctx).
Definition set_blockquoteLevel ctx v :=
  mkCtx (prefix ctx) (tableCtx ctx) (options ctx) (endsWithSpace ctx)
        (justClosedDiv ctx) v (tableLevel ctx)
        (wrapper ctx) (isPre ctx).
Definition set_tableLevel ctx v :=
  mkCtx (prefix ctx) (tableCtx ctx) (options ctx) (endsWithSpace ctx)
        (justClosedDiv ctx) (blockquoteLevel ctx) v
        (wrapper ctx) (isPre ctx).
Definition set_wrapper ctx v :=
  mkCtx (prefix ctx) (tableCtx ctx) (options ctx) (endsWithSpace ctx)
        (justClosedDiv ctx) (blockquoteLevel ctx) (tableLevel ctx)
        v (isPre ctx).
Definition set_isPre ctx v :=
  mkCtx (prefix ctx) (tableCtx ctx) (options ctx) (endsWithSpace ctx)
        (justClosedDiv ctx) (blockquoteLevel ctx) (tableLevel ctx)
        (wrapper ctx) v.

Definition set_header t v :=
  mkTableCtx v (body t) (footer t) (tmpRow t) (isInFooter t).
Definition set_body t v :=
  mkTableCtx (header t) v (footer t) (tmpRow t) (isInFooter t).
Definition set_footer t v :=
  mkTableCtx (header t) (body t) v (tmpRow t) (isInFooter t).
Definition set_tmpRow t v :=
  mkTableCtx (header t) (body t) (footer t) v (isInFooter t).
Definition set_isInFooter t v :=
  mkTableCtx (header t) (body t) (footer t) (tmpRow t) v.

(** The context [FromHTMLNode] starts from: every field zero, the wrapper
    78 columns wide. *)
Definition newCtx (o : Options) : textifyTraverseContext :=
  mkCtx [] zeroTableCtx o false false 0 0
        (mkLineWrapper [] 78 0 0 0 false) false.

Definition sub (ctx : textifyTraverseContext) : textifyTraverseContext :=
  mkCtx [] zeroTableCtx (options ctx) false false 0 0
        (mkLineWrapper [] (lw_width (wrapper ctx)) 0 0 0 false) false.

(** [body[i] = append(body[i], res)]; [None] is the index-out-of-range
    panic of the Go run time. *)
Fixpoint append_at (rows : list (list gostring)) (i : nat) (res : gostring)
  : option (list (list gostring)) :=
  match rows, i with
  | [], _ => None
  | row :: rest, O => Some ((row ++ [res]) :: rest)
  | row :: rest, S i' =>
      match append_at rest i' res with
      | Some rest' => Some (row :: rest')
      | None => None
      end
  end.

Definition body_append (rows : list (list gostring)) (i : Z) (res : gostring)
  : option (list (list gostring)) :=
  if i <? 0 then None else append_at rows (Z.to_nat i) res.

(** ** Outcomes *)

Definition error := option gostring.

Inductive outcome (X : Type) :=
| Returns (x : X)
| Panics (msg : string).
Arguments Returns {X} x.
Arguments Panics {X} msg.

Definition Result := outcome (textifyTraverseContext * error).

(** [if err := m; err != nil { return err }; k]. *)
Definition check (m : Result) (k : textifyTraverseContext -> Result)
  : Result :=
  match m with
  | Returns (ctx, None) => k ctx
  | Returns (ctx, Some e) => Returns (ctx, Some e)
  | Panics msg => Panics msg
  end.

(** A deferred function runs when the call returns. *)
Definition defer (d : textifyTraverseContext -> textifyTraverseContext)
  (m : Result) : Result :=
  match m with
  | Returns (ctx, e) => Returns (d ctx, e)
  | Panics msg => Panics msg
  end.

(** The final normalisation of [FromHTMLNode]. *)
Definition normalize (s : gostring) : gostring :=
  TrimSpace (newlineRe_ReplaceAll (Replace_nlsp s)).

(** ** Tables as the HTML parser builds them

    A table holds sections ([thead], [tbody], [tfoot]), a section holds
    rows, a row holds cells ([th], [td]); white space between the tags
    shows up as text nodes at every level. *)

Inductive CellKind := HeaderCell | DataCell.

Inductive RowItem :=
| Cell (kind : CellKind) (attr : list Attribute) (kids : list Node)
| RowText (data : gostring).

Inductive SectionKind := TheadSection | TbodySection | TfootSection.

Inductive SectionItem :=
| Row (attr : list Attribute) (items : list RowItem)
| SectionText (data : gostring).

Inductive TableItem :=
| Sect (kind : SectionKind) (attr : list Attribute)
       (items : list SectionItem)
| TableText (data : gostring).

Definition textNode (data : gostring) : Node :=
  mkNode TextNode OtherAtom data [] [].

Definition rowItemNode (i : RowItem) : Node :=
  match i with
  | Cell HeaderCell attr kids => mkNode ElementNode Th [] attr kids
  | Cell DataCell attr kids => mkNode ElementNode Td [] attr kids
  | RowText data => textNode data
  end.

Definition sectionItemNode (i : SectionItem) : Node :=
  match i with
  | Row attr items =>
      mkNode ElementNode Tr [] attr (map rowItemNode items)
  | SectionText data => textNode data
  end.

Definition sectionAtom (k : SectionKind) : Atom :=
  match k with
  | TheadSection => Thead
  | TbodySection => Tbody
  | TfootSection => Tfoot
  end.

Definition tableItemNode (i : TableItem) : Node :=
  match i with
  | Sect k attr items =>
      mkNode ElementNode (sectionAtom k) [] attr (map sectionItemNode items)
  | TableText data => textNode data
  end.

Definition tableNode (attr : list Attribute) (items : list TableItem)
  : Node :=
  mkNode ElementNode Table [] attr (map tableItemNode items).

Definition inTfoot (k : SectionKind) : bool :=
  match k with TfootSection => true | _ => false end.

(** ** Vocabulary of the statements *)

(** [strings.HasPrefix] and [strings.Contains]. *)
Fixpoint HasPrefix (s p : gostring) {struct p} : bool :=
  match p, s with
  | [], _ => true
  | _ :: _, [] => false
  | c :: p', r :: s' => (c =? r)%N && HasPrefix s' p'
  end.

Fixpoint Contains (s p : gostring) : bool :=
  HasPrefix s p ||
  match s with
  | [] => false
  | _ :: s' => Contains s' p
  end.

(** A string without white space: the empty string or a single word. *)
Definition noSpace (s : gostring) : bool :=
  forallb (fun r => negb (IsSpace r)) s.

(** Induction on nodes, the children under [Forall]. *)
Fixpoint Node_induction (Q : Node -> Prop)
  (step : forall type atom data attr kids,
      Forall Q kids -> Q (mkNode type atom data attr kids))
  (n : Node) {struct n} : Q n :=
  match n with
  | mkNode type atom data attr kids =>
      step type atom data attr kids
        ((fix all (l : list Node) : Forall Q l :=
            match l with
            | [] => Forall_nil Q
            | c :: rest =>
                Forall_cons c (Node_induction Q step c) (all rest)
            end) kids)
  end.

(** A call of a method of the line wrapper. *)
Inductive lwCall :=
| CallWrite (text : gostring)
| CallFlush
| CallFlushN (n : Z).

(** The context with [prefix] cleared. *)
Definition erase_prefix (ctx : textifyTraverseContext)
  : textifyTraverseContext := set_prefix ctx [].

Definition outcome_map {X Y : Type} (f : X -> Y) (m : outcome X)
  : outcome Y :=
  match m with
  | Returns x => Returns (f x)
  | Panics msg => Panics msg
  end.

Definition erase_result (m : Result) : Result :=
  outcome_map (fun r => (erase_prefix (fst r), snd r)) m.

(** ** Instances for the examples

    A table of wide runes (Hangul Jamo, the CJK blocks from the radicals
    to the Yi syllables, Hangul syllables, compatibility ideographs and
    the full-width forms), a table renderer that writes one line per
    row, cells closed by a bar, and one that panics on some tables. *)

Definition in_range (lo hi r : rune) : bool := ((lo <=? r) && (r <=? hi))%N.

Definition cjkWide (r : rune) : bool :=
  in_range 0x1100%N 0x115f%N r || in_range 0x2e80%N 0xa4cf%N r
  || in_range 0xac00%N 0xd7a3%N r || in_range 0xf900%N 0xfaff%N r
  || in_range 0xfe30%N 0xfe4f%N r || in_range 0xff00%N 0xff60%N r
  || in_range 0xffe0%N 0xffe6%N r.

Definition barRow (cells : list gostring) : gostring :=
  List.concat (map (fun c => c ++ lit "|") cells) ++ [LF].

Definition barTable (o : option PrettyTablesOptions)
  (hd ft : list gostring) (rows : list (list gostring)) : outcome gostring :=
  Returns (barRow hd ++ List.concat (map barRow rows) ++ barRow ft).

(** A table renderer that panics when a row of the body has more cells
    than the footer, and renders as [barTable] otherwise. *)
Definition strictTable (o : option PrettyTablesOptions)
  (hd ft : list gostring) (rows : list (list gostring)) : outcome gostring :=
  if existsb (fun row => (length ft <? length row)%nat) rows
  then Panics "footer shorter than a row"
  else barTable o hd ft rows.

Definition text (s : string) : Node :=
  mkNode TextNode OtherAtom (lit s) [] [].

Definition element (a : Atom) (attrs : list Attribute) (kids : list Node)
  : Node :=
  mkNode ElementNode a [] attrs kids.

Definition href (s : string) : Attribute :=
  mkAttribute [] (lit "href") (lit s).

Definition prettyOptions : Options := mkOptions true None false false.

(** ** The renderer

    [isWide] is the table of wide runes.  [assignsPrefix] is [true] for
    the program as written; with [false] the three assignments to
    [ctx.prefix] are left out.

    Modelled from the spec: [tablewriter_Render] stands for the calls of
    the external package tablewriter, which is not among the sources
    ([NewWriter], the setters of the style, [SetHeader], [SetFooter],
    [AppendBulk], [Render]); the spec has "an external table-rendering
    collaborator consuming rows/columns/style options and producing a
    formatted block of text".  The calls run code of the package, which
    may panic, on a footer shorter than a row of the body for one; the
    outcome is therefore the text written to the buffer or a panic. *)

Section Renderer.

Variable isWide : rune -> bool.
Variable tablewriter_Render :
  option PrettyTablesOptions -> list gostring -> list gostring ->
  list (list gostring) -> outcome gostring.

(** Modelled from the spec: [runewidth.RuneWidth] belongs to the external
    package go-runewidth, which is not among the sources.  The spec counts
    "East-Asian wide characters as 2 columns, others as 1". *)
Definition RuneWidth (r : rune) : Z := if isWide r then 2 else 1.

(** Modelled from the spec: [runewidth.StringWidth], of the same external
    package; "column count of a string where wide (e.g., CJK) characters
    count as 2, others as 1". *)
Fixpoint StringWidth (s : gostring) : Z :=
  match s with
  | [] => 0
  | r :: s' => RuneWidth r + StringWidth s'
  end.

(** The body of the loop of [write], for one field [f]. *)
Definition write_field (l : lineWrapper) (f : gostring) : lineWrapper :=
  let w := StringWidth f in
  let l :=
    if (0 <? lw_n l) && (lw_width l <? lw_n l + lw_pendSpace l + w) then
      let l := lw_Write l nlBytes in
      mkLineWrapper (lw_out l) (lw_width l) 0 (lw_nl l) 0 (lw_printed l)
    else l in
  let l := lw_Write l (firstn (Z.to_nat (lw_pendSpace l)) spaceBytes) in
  let l := lw_Write l f in
  mkLineWrapper (lw_out l) (lw_width l) (lw_n l + lw_pendSpace l + w)
                (lw_nl l) 1 (lw_printed l).

Definition write (l : lineWrapper) (text : gostring) : lineWrapper :=
  let l := if (lw_n l =? 0) && lw_printed l then flush l else l in
  let l := mkLineWrapper (lw_out l) (lw_width l) (lw_n l) 0
                         (lw_pendSpace l) true in
  fold_left write_field (Fields text) l.

Definition emit (ctx : textifyTraverseContext) (data : gostring)
  : textifyTraverseContext * error :=
  if 0 <? tableLevel ctx then
    let l := flush (wrapper ctx) in
    (set_wrapper ctx (lw_Write l data), None)
  else if gostring_eqb data [] then (ctx, None)
  else if gostring_eqb data [LF] then
    (set_wrapper ctx (flush (wrapper ctx)), None)
  else if gostring_eqb data [LF; LF] then
    (set_wrapper ctx (flushN (wrapper ctx) 2), None)
  else (set_wrapper ctx (write (wrapper ctx) data), None).

Definition normalizeHrefLink (link : gostring) : gostring :=
  TrimPrefix (TrimSpace link) (lit "mailto:").

(** The loop of the heading case: the largest display width of a line of
    [str], trailing white space trimmed. *)
Definition headingDividerLen (str : gostring) : Z :=
  fold_left
    (fun dividerLen line =>
       let line := TrimRightFunc line IsSpace in
       let lineLen := StringWidth line in
       if dividerLen <? lineLen then lineLen else dividerLen)
    (Split_nl str) 0.

Section Dispatch.

Variable assignsPrefix : bool.
Variable traverse : Node -> textifyTraverseContext -> Result.

Definition assign_prefix ctx v :=
  if assignsPrefix then set_prefix ctx v else ctx.

Fixpoint traverseChildren_with (kids : list Node)
  (ctx : textifyTraverseContext) : Result :=
  match kids with
  | [] => Returns (ctx, None)
  | c :: rest => check (traverse c ctx) (traverseChildren_with rest)
  end.

Definition FromHTMLNode_with (doc : Node) (o : list Options)
  : outcome (gostring * error) :=
  let options := match o with o0 :: _ => o0 | [] => zeroOptions end in
  match traverse doc (newCtx options) with
  | Panics msg => Panics msg
  | Returns (_, Some e) => Returns ([], Some e)
  | Returns (ctx, None) => Returns (normalize (buf ctx), None)
  end.

(** The loop of [renderEachChild]; [b] is its [bytes.Buffer]. *)
Fixpoint renderEachChild_loop (o : Options) (kids : list Node)
  (b : gostring) : outcome (gostring * error) :=
  match kids with
  | [] => Returns (b, None)
  | c :: rest =>
      match FromHTMLNode_with c [o] with
      | Panics msg => Panics msg
      | Returns (_, Some e) => Returns ([], Some e)
      | Returns (s, None) =>
          let b := b ++ s in
          let b := match rest with [] => b | _ :: _ => b ++ [LF] end in
          renderEachChild_loop o rest b
      end
  end.

Definition renderEachChild_with (ctx : textifyTraverseContext)
  (kids : list Node) : outcome (gostring * error) :=
  renderEachChild_loop (options ctx) kids [].

Definition paragraphHandler_with (kids : list Node)
  (ctx : textifyTraverseContext) : Result :=
  check (Returns (emit ctx [LF; LF])) (fun ctx =>
  check (traverseChildren_with kids ctx) (fun ctx =>
  Returns (emit ctx [LF; LF]))).

Definition handleTableElement_with (atom : Atom) (kids : list Node)
  (ctx : textifyTraverseContext) : Result :=
  if negb (PrettyTables (options ctx)) then
    Panics "handleTableElement invoked when PrettyTables not active"
  else
    match atom with
    | Table =>
        check (Returns (emit ctx [LF; LF])) (fun ctx =>
        let ctx := set_tableCtx ctx (tableCtx_init (tableCtx ctx)) in
        check (traverseChildren_with kids ctx) (fun ctx =>
        match tablewriter_Render (PrettyTablesOpts (options ctx))
                (header (tableCtx ctx)) (footer (tableCtx ctx))
                (body (tableCtx ctx)) with
        | Panics msg => Panics msg
        | Returns rendered =>
            check (Returns (emit ctx rendered)) (fun ctx =>
            Returns (emit ctx [LF; LF]))
        end))
    | Tfoot =>
        let ctx := set_tableCtx ctx (set_isInFooter (tableCtx ctx) true) in
        check (traverseChildren_with kids ctx) (fun ctx =>
        let ctx := set_tableCtx ctx (set_isInFooter (tableCtx ctx) false) in
        Returns (ctx, None))
    | Tr =>
        let ctx :=
          set_tableCtx ctx
            (set_body (tableCtx ctx) (body (tableCtx ctx) ++ [[]])) in
        check (traverseChildren_with kids ctx) (fun ctx =>
        let ctx :=
          set_tableCtx ctx
            (set_tmpRow (tableCtx ctx) (tmpRow (tableCtx ctx) + 1)) in
        Returns (ctx, None))
    | Th =>
        match renderEachChild_with ctx kids with
        | Panics msg => Panics msg
        | Returns (_, Some e) => Returns (ctx, Some e)
        | Returns (res, None) =>
            let ctx :=
              set_tableCtx ctx
                (set_header (tableCtx ctx) (header (tableCtx ctx) ++ [res])) in
            Returns (ctx, None)
        end
    | Td =>
        match renderEachChild_with ctx kids with
        | Panics msg => Panics msg
        | Returns (_, Some e) => Returns (ctx, Some e)
        | Returns (res, None) =>
            if isInFooter (tableCtx ctx) then
              let ctx :=
                set_tableCtx ctx
                  (set_footer (tableCtx ctx)
                     (footer (tableCtx ctx) ++ [res])) in
              Returns (ctx, None)
            else
              match body_append (body (tableCtx ctx))
                      (tmpRow (tableCtx ctx)) res with
              | None => Panics "index out of range"
              | Some rows =>
                  Returns (set_tableCtx ctx (set_body (tableCtx ctx) rows),
                           None)
              end
        end
    | _ => Returns (ctx, None)
    end.

(** The code shared by the cases [Table] and [Tfoot, Th, Tr, Td]. *)
Definition tableCase_with (atom : Atom) (kids : list Node)
  (ctx : textifyTraverseContext) : Result :=
  if PrettyTables (options ctx) then handleTableElement_with atom kids ctx
  else if Atom_eqb atom Table then paragraphHandler_with kids ctx
  else traverseChildren_with kids ctx.

Definition handleElement_with (atom : Atom) (attr : list Attribute)
  (kids : list Node) (ctx : textifyTraverseContext) : Result :=
  let ctx := set_justClosedDiv ctx false in
  match atom with
  | Br => Returns (emit ctx [LF; LF])

  | H1 | H2 | H3 =>
      let subCtx := sub ctx in
      match traverseChildren_with kids subCtx with
      | Panics msg => Panics msg
      | Returns (_, Some e) => Returns (ctx, Some e)
      | Returns (subCtx, None) =>
          let str := buf subCtx in
          if TextOnly (options ctx) then Returns (emit ctx (str ++ [LF; LF]))
          else
            let dividerLen := headingDividerLen str in
            let divider :=
              if Atom_eqb atom H1 then Repeat (lit "*") dividerLen
              else Repeat (lit "-") dividerLen in
            let ctx := fst (emit ctx [LF; LF]) in
            let ctx :=
              if Atom_eqb atom H1 then
                let ctx := fst (emit ctx divider) in
                fst (emit ctx [LF])
              else ctx in
            let ctx := fst (emit ctx str) in
            let ctx := fst (emit ctx [LF]) in
            let ctx := fst (emit ctx divider) in
            let ctx := fst (emit ctx [LF; LF]) in
            Returns (ctx, None)
      end

  | Blockquote =>
      let ctx := set_blockquoteLevel ctx (blockquoteLevel ctx + 1) in
      let ctx :=
        if negb (TextOnly (options ctx)) then
          assign_prefix ctx (Repeat (lit ">") (blockquoteLevel ctx) ++ lit " ")
        else ctx in
      check (Returns (emit ctx [LF])) (fun ctx =>
      check (if blockquoteLevel ctx =? 1 then Returns (emit ctx [LF])
             else Returns (ctx, None)) (fun ctx =>
      check (traverseChildren_with kids ctx) (fun ctx =>
      let ctx := set_blockquoteLevel ctx (blockquoteLevel ctx - 1) in
      let ctx :=
        if negb (TextOnly (options ctx)) then
          assign_prefix ctx (Repeat (lit ">") (blockquoteLevel ctx))
        else ctx in
      let ctx :=
        if 0 <? blockquoteLevel ctx then
          assign_prefix ctx (prefix ctx ++ lit " ")
        else ctx in
      Returns (emit ctx [LF; LF]))))

  | Div =>
      let ctx := set_wrapper ctx (flush (wrapper ctx)) in
      check (traverseChildren_with kids ctx) (fun ctx =>
      let '(ctx, err) :=
        if negb (justClosedDiv ctx) then emit ctx [LF] else (ctx, None) in
      let ctx := set_justClosedDiv ctx true in
      Returns (ctx, err))

  | Li =>
      check (if negb (TextOnly (options ctx)) then Returns (emit ctx (lit "- "))
             else Returns (ctx, None)) (fun ctx =>
      check (traverseChildren_with kids ctx) (fun ctx =>
      Returns (emit ctx [LF])))

  | B | Strong =>
      let subCtx := sub ctx in
      let subCtx := set_endsWithSpace subCtx true in
      match traverseChildren_with kids subCtx with
      | Panics msg => Panics msg
      | Returns (_, Some e) => Returns (ctx, Some e)
      | Returns (subCtx, None) =>
          let str := buf subCtx in
          if TextOnly (options ctx) then Returns (emit ctx str)
          else Returns (emit ctx (lit "*" ++ str ++ lit "*"))
      end

  | A =>
      let linkText :=
        match kids with
        | [c] => match Type_ c with TextNode => Data c | _ => [] end
        | _ => []
        end in
      check
        (match kids with
         | [img] =>
             if Atom_eqb (DataAtom img) Img then
               let altText := getAttrVal img (lit "alt") in
               if negb (gostring_eqb altText []) then
                 Returns (emit ctx altText)
               else Returns (ctx, None)
             else traverseChildren_with kids ctx
         | _ => traverseChildren_with kids ctx
         end) (fun ctx =>
      let hrefLink :=
        let attrVal := getAttrVal_list attr (lit "href") in
        if negb (gostring_eqb attrVal []) then
          let attrVal := normalizeHrefLink attrVal in
          if (negb (OmitLinks (options ctx))
              && negb (gostring_eqb attrVal [])
              && negb (gostring_eqb linkText attrVal))
             || negb (TextOnly (options ctx))
          then lit "(" ++ attrVal ++ lit ")"
          else []
        else [] in
      Returns (emit ctx hrefLink))

  | P | Ul => paragraphHandler_with kids ctx

  | Table =>
      let ctx := set_tableLevel ctx (tableLevel ctx + 1) in
      defer (fun ctx => set_tableLevel ctx (tableLevel ctx - 1))
            (tableCase_with atom kids ctx)

  | Tfoot | Th | Tr | Td => tableCase_with atom kids ctx

  | Pre =>
      let ctx := set_isPre ctx true in
      match traverseChildren_with kids ctx with
      | Panics msg => Panics msg
      | Returns (ctx, err) => Returns (set_isPre ctx false, err)
      end

  | Style | Script | Head => Returns (ctx, None)

  | _ => traverseChildren_with kids ctx
  end.

End Dispatch.

Fixpoint traverse_gen (assignsPrefix : bool) (node : Node)
  (ctx : textifyTraverseContext) {struct node} : Result :=
  match node with
  | mkNode type atom data attr kids =>
      match type with
      | TextNode =>
          let data := if isPre ctx then data else TrimSpace data in
          Returns (emit ctx data)
      | ElementNode =>
          handleElement_with assignsPrefix (traverse_gen assignsPrefix)
                             atom attr kids ctx
      | _ => traverseChildren_with (traverse_gen assignsPrefix) kids ctx
      end
  end.

(** The program as written. *)
Definition traverse := traverse_gen true.
Definition traverseChildren (node : Node) :=
  traverseChildren_with traverse (Children node).
Definition handleElement (node : Node) :=
  handleElement_with true traverse (DataAtom node) (Attr node) (Children node).
Definition handleTableElement (node : Node) :=
  handleTableElement_with traverse (DataAtom node) (Children node).
Definition paragraphHandler (node : Node) :=
  paragraphHandler_with traverse (Children node).
Definition renderEachChild (ctx : textifyTraverseContext) (node : Node) :=
  renderEachChild_with traverse ctx (Children node).
Definition FromHTMLNode := FromHTMLNode_with traverse.

(** The program with the assignments to [ctx.prefix] removed. *)
Definition traverse_noprefix := traverse_gen false.
Definition FromHTMLNode_noprefix := FromHTMLNode_with traverse_noprefix.


(** ** Reference definitions of the statements *)

(** Greedy filling as the specification words it: the words of a call
    are joined by one space, and a word moves to a new line exactly when
    the line is not empty and the column [col], the pending space and the
    width of the word exceed [width].  [pend] tells whether a space is
    pending. *)
Fixpoint wrap_words (width col : Z) (pend : bool) (words : list gostring)
  : gostring :=
  match words with
  | [] => []
  | f :: rest =>
      let w := StringWidth f in
      let sp := if pend then 1 else 0 in
      if (0 <? col) && (width <? col + sp + w) then
        [LF] ++ f ++ wrap_words width w true rest
      else
        (if pend then [SP] else []) ++ f
        ++ wrap_words width (col + sp + w) true rest
  end.

Definition lw_call (l : lineWrapper) (c : lwCall) : lineWrapper :=
  match c with
  | CallWrite t => write l t
  | CallFlush => flush l
  | CallFlushN n => flushN l n
  end.

Definition lw_run (l : lineWrapper) (calls : list lwCall) : lineWrapper :=
  fold_left lw_call calls l.

(** The largest display width of a line of [str], each line without its
    trailing white space. *)
Definition maxLineWidth (str : gostring) : Z :=
  fold_right Z.max 0
    (map (fun line => StringWidth (TrimRightFunc line IsSpace))
         (Split_nl str)).

(** Whether a space is pending, and the two values [pendSpace] takes. *)
Definition pending (l : lineWrapper) : bool := negb (lw_pendSpace l =? 0).

Definition pend01 (l : lineWrapper) : Prop :=
  lw_pendSpace l = 0 \/ lw_pendSpace l = 1.

(** A line fits if it is at most [W] columns wide or is a single word. *)
Definition lineFits (W : Z) (line : gostring) : Prop :=
  StringWidth line <= W \/ noSpace line = true.

(** The text made of the finished lines [done], each closed by a newline,
    and of the line [cur] being filled. *)
Definition joinLines (done : list gostring) (cur : gostring) : gostring :=
  concat (map (fun ln => ln ++ [LF]) done) ++ cur.

(** The invariant of the wrapper: its output is a sequence of lines that
    fit, and [n] and [pendSpace] describe the line being filled. *)
Definition lwInv (l : lineWrapper) : Prop :=
  exists done cur,
    lw_out l = joinLines done cur
    /\ Forall (fun ln => ~ In LF ln /\ lineFits (lw_width l) ln) done
    /\ ~ In LF cur /\ lineFits (lw_width l) cur
    /\ StringWidth cur = lw_n l
    /\ lw_pendSpace l = (if lw_n l =? 0 then 0 else 1).

(** The wrapper that [emit] leaves, from the table level, the wrapper and
    the data. *)
Definition emit_wrapper (level : Z) (l : lineWrapper) (data : gostring)
  : lineWrapper :=
  if 0 <? level then lw_Write (flush l) data
  else if gostring_eqb data [] then l
  else if gostring_eqb data [LF] then flush l
  else if gostring_eqb data [LF; LF] then flushN l 2
  else write l data.

(** A sequence of calls of [emit] whose errors are not looked at. *)
Definition emits (ctx : textifyTraverseContext) (ds : list gostring)
  : textifyTraverseContext :=
  fold_left (fun c d => fst (emit c d)) ds ctx.

(** What the proof that [prefix] is never read shows of a node: the
    traversal commutes with clearing the prefix. *)
Definition erasable (b : bool) (c : Node) : Prop :=
  forall ctx,
    erase_result (traverse_gen b c ctx)
    = traverse_gen false c (erase_prefix ctx).

(** The partition of the cells of a table that the specification
    describes.  [cellText] is the text of a cell, [cellRenders] says that
    rendering it returns. *)
Definition cellText (o : Options) (kids : list Node) : gostring :=
  match renderEachChild_loop traverse o kids [] with
  | Returns (s, _) => s
  | Panics _ => []
  end.

Definition cellRenders (o : Options) (kids : list Node) : Prop :=
  exists s, renderEachChild_loop traverse o kids [] = Returns (s, None).

(** The [th] cells and the [td] cells of a row, in order. *)
Definition rowHeader (o : Options) (items : list RowItem) : list gostring :=
  flat_map (fun i => match i with
                     | Cell HeaderCell _ kids => [cellText o kids]
                     | _ => []
                     end) items.

Definition rowData (o : Options) (items : list RowItem) : list gostring :=
  flat_map (fun i => match i with
                     | Cell DataCell _ kids => [cellText o kids]
                     | _ => []
                     end) items.

(** A section: every [th] goes to the header; every [tr] gives one row of
    the body, which holds the [td] cells of the row unless the section is
    [tfoot]; the [td] cells of [tfoot] go to the footer. *)
Definition sectHeader (o : Options) (items : list SectionItem)
  : list gostring :=
  flat_map (fun i => match i with
                     | Row _ cells => rowHeader o cells
                     | SectionText _ => []
                     end) items.

Definition sectBody (foot : bool) (o : Options) (items : list SectionItem)
  : list (list gostring) :=
  flat_map (fun i => match i with
                     | Row _ cells => [if foot then [] else rowData o cells]
                     | SectionText _ => []
                     end) items.

Definition sectFooter (foot : bool) (o : Options) (items : list SectionItem)
  : list gostring :=
  flat_map (fun i => match i with
                     | Row _ cells => if foot then rowData o cells else []
                     | SectionText _ => []
                     end) items.

Definition tableHeader (o : Options) (items : list TableItem)
  : list gostring :=
  flat_map (fun i => match i with
                     | Sect _ _ rows => sectHeader o rows
                     | TableText _ => []
                     end) items.

Definition tableBody (o : Options) (items : list TableItem)
  : list (list gostring) :=
  flat_map (fun i => match i with
                     | Sect k _ rows => sectBody (inTfoot k) o rows
                     | TableText _ => []
                     end) items.

Definition tableFooter (o : Options) (items : list TableItem)
  : list gostring :=
  flat_map (fun i => match i with
                     | Sect k _ rows => sectFooter (inTfoot k) o rows
                     | TableText _ => []
                     end) items.

Definition rowRenders (o : Options) (items : list RowItem) : Prop :=
  Forall (fun i => match i with
                   | Cell _ _ kids => cellRenders o kids
                   | RowText _ => True
                   end) items.

Definition sectRenders (o : Options) (items : list SectionItem) : Prop :=
  Forall (fun i => match i with
                   | Row _ cells => rowRenders o cells
                   | SectionText _ => True
                   end) items.

Definition tableRenders (o : Options) (items : list TableItem) : Prop :=
  Forall (fun i => match i with
                   | Sect _ _ rows => sectRenders o rows
                   | TableText _ => True
                   end) items.

(** The context in which the children of a [table] are visited: the
    table level raised, a blank line emitted, the accumulator reset. *)
Definition tableStart (ctx : textifyTraverseContext)
  : textifyTraverseContext :=
  let ctx := set_justClosedDiv ctx false in
  let ctx := set_tableLevel ctx (tableLevel ctx + 1) in
  let ctx := fst (emit ctx [LF; LF]) in
  set_tableCtx ctx (tableCtx_init (tableCtx ctx)).

(** ** Vocabulary of the further properties *)

(** What a visit leaves alone: the options, the two nesting counters and
    the width of the wrapper. *)
Definition frame (ctx ctx' : textifyTraverseContext) : Prop :=
  options ctx' = options ctx
  /\ tableLevel ctx' = tableLevel ctx
  /\ blockquoteLevel ctx' = blockquoteLevel ctx
  /\ lw_width (wrapper ctx') = lw_width (wrapper ctx).

(** The panics of a visit: the index of a row of the body out of range,
    and the panics of the table renderer. *)
Definition tablePanic (msg : string) : Prop :=
  msg = "index out of range"%string
  \/ exists o hd ft rows, tablewriter_Render o hd ft rows = Panics msg.

(** The outcomes a visit started in [ctx] can have: it returns no error
    and a context in the frame of [ctx], or, with [PrettyTables] only, it
    panics on the index of a row or inside the table renderer. *)
Definition wellBehaved (ctx : textifyTraverseContext) (m : Result) : Prop :=
  match m with
  | Returns (ctx', e) => e = None /\ frame ctx ctx'
  | Panics msg => PrettyTables (options ctx) = true /\ tablePanic msg
  end.

Definition wellBehavedNode (b : bool) (c : Node) : Prop :=
  forall ctx, wellBehaved ctx (traverse_gen b c ctx).

(** [strings.Join(parts, "\n")]. *)
Fixpoint Join_nl (parts : list gostring) : gostring :=
  match parts with
  | [] => []
  | [x] => x
  | x :: rest => x ++ LF :: Join_nl rest
  end.

(** [x] is a contiguous part of [y]. *)
Definition partOf (x y : gostring) : Prop :=
  exists before after, y = before ++ x ++ after.

(** Every line of [s] is a contiguous part of a line of [t]. *)
Definition linesWithin (s t : gostring) : Prop :=
  forall line, In line (Split_nl s) ->
    exists line0, In line0 (Split_nl t) /\ partOf line line0.

(** A tree without [table] elements. *)
Fixpoint noTable (n : Node) : bool :=
  match n with
  | mkNode type atom _ _ kids =>
      negb (match type with
            | ElementNode => Atom_eqb atom Table
            | _ => false
            end)
      && forallb noTable kids
  end.

(** A visit keeps the property [Q] of the wrapper.  [raw] tells whether
    [Q] also survives the writes that go past the wrapper inside tables;
    when it does not, the visit has to start outside tables. *)
Definition keepsWrapper (Q : lineWrapper -> Prop) (raw : bool) (b : bool)
  (c : Node) : Prop :=
  forall ctx,
    raw = true \/ tableLevel ctx <= 0 ->
    Q (wrapper ctx) ->
    match traverse_gen b c ctx with
    | Returns (ctx', _) => Q (wrapper ctx')
    | Panics _ => True
    end.

(** Tidy white space: the only white space of [s] is the space and the
    newline, and every space stands between two runes that are not white
    space.  [prev] tells whether the rune before [s] is not white space. *)
Fixpoint spaced (prev : bool) (s : gostring) : bool :=
  match s with
  | [] => true
  | r :: s' =>
      if (r =? SP)%N then
        prev
        && match s' with [] => false | r' :: _ => negb (IsSpace r') end
        && spaced false s'
      else if (r =? LF)%N then spaced false s'
      else negb (IsSpace r) && spaced true s'
  end.

(** Whether the last rune of [s] is not white space; [prev] is the answer
    for the empty string. *)
Fixpoint endsWord (prev : bool) (s : gostring) : bool :=
  match s with
  | [] => prev
  | r :: s' => endsWord (negb (IsSpace r)) s'
  end.

(** The output of the wrapper is tidy, and a space is pending only after
    a word. *)
Definition tidyW (l : lineWrapper) : Prop :=
  spaced false (lw_out l) = true
  /\ (lw_pendSpace l = 0
      \/ (lw_pendSpace l = 1 /\ endsWord false (lw_out l) = true)).


(** The runes of a string that are not white space. *)
Definition visible (s : gostring) : gostring :=
  filter (fun r => negb (IsSpace r)) s.

(** The text of a document: the runes of its text nodes that are not
    white space, in document order.  A line break and the subtrees of
    [style], [script] and [head] have none, and a link around a single
    image has the [alt] text of the image.  [inner] is the text of the
    children. *)
Definition elementText (atom : Atom) (kids : list Node) (inner : gostring)
  : gostring :=
  match atom with
  | Br | Style | Script | Head => []
  | A =>
      match kids with
      | [img] =>
          if Atom_eqb (DataAtom img) Img
          then visible (getAttrVal img (lit "alt"))
          else inner
      | _ => inner
      end
  | _ => inner
  end.

Fixpoint textOf (n : Node) : gostring :=
  match n with
  | mkNode type atom data _ kids =>
      match type with
      | TextNode => visible data
      | ElementNode => elementText atom kids (concat (map textOf kids))
      | _ => concat (map textOf kids)
      end
  end.

(** With [TextOnly] and [OmitLinks] and without [PrettyTables], a visit
    adds the text of the node to the buffer, and white space. *)
Definition plainText (o : Options) : Prop :=
  TextOnly o = true /\ OmitLinks o = true /\ PrettyTables o = false.

Definition keepsText (b : bool) (c : Node) : Prop :=
  forall ctx,
    plainText (options ctx) ->
    match traverse_gen b c ctx with
    | Returns (ctx', _) => visible (buf ctx') = visible (buf ctx) ++ textOf c
    | Panics _ => True
    end.

(** Options for plain text: [TextOnly] and [OmitLinks]. *)
Definition plainOptions : Options := mkOptions false None true true.

(** ** The program in memory

    The functions above keep the buffer of a context inside its wrapper
    and pass contexts by value.  In the program a context is a struct in
    memory: every method has the receiver [ctx *textifyTraverseContext],
    [FromHTMLNode] and [sub] make a new struct, and [lineWrapper.out] is a
    pointer to the [buf] of a struct.  The definitions below follow the
    program in that: a store of contexts, methods that take the address
    of their receiver, and writes of the wrapper that go where its [out]
    points.  They are the program as written, assignments to
    [ctx.prefix] included. *)

Definition addr := nat.

(** A context in memory: the fields of the struct, the content of its
    [buf] read by [buf], and the pointer [lineWrapper.out], the address
    of the struct whose [buf] the wrapper writes to. *)
Record cell := mkCell {
  cell_ctx : textifyTraverseContext;
  cell_out : addr
}.

Definition store := list cell.

Fixpoint upd (st : store) (a : addr) (x : cell) : store :=
  match st, a with
  | [], _ => []
  | _ :: rest, O => x :: rest
  | c :: rest, S a' => c :: upd rest a' x
  end.

(** Computations on the store that return or panic. *)
Definition M (X : Type) : Type := store -> outcome (X * store).

Definition retM {X : Type} (x : X) : M X := fun st => Returns (x, st).

Definition bindM {X Y : Type} (m : M X) (k : X -> M Y) : M Y :=
  fun st =>
    match m st with
    | Returns (x, st') => k x st'
    | Panics msg => Panics msg
    end.

Definition panicM {X : Type} (msg : string) : M X := fun _ => Panics msg.

Notation "x <- m ;; k" := (bindM m (fun x => k))
  (at level 61, m at next level, right associativity).
Notation "m ;; k" := (bindM m (fun _ => k))
  (at level 61, right associativity).

Definition nilDereference : string :=
  "invalid memory address or nil pointer dereference".

(** Reading the struct at [a], reading its pointer [out], assigning to
    fields of the struct at [a], and making a new struct, which is given
    its own address. *)
Definition load (a : addr) : M textifyTraverseContext :=
  fun st =>
    match nth_error st a with
    | Some c => Returns (cell_ctx c, st)
    | None => Panics nilDereference
    end.

Definition loadOut (a : addr) : M addr :=
  fun st =>
    match nth_error st a with
    | Some c => Returns (cell_out c, st)
    | None => Panics nilDereference
    end.

Definition modify (a : addr)
  (f : textifyTraverseContext -> textifyTraverseContext) : M unit :=
  fun st =>
    match nth_error st a with
    | Some c => Returns (tt, upd st a (mkCell (f (cell_ctx c)) (cell_out c)))
    | None => Panics nilDereference
    end.

Definition alloc (mk : addr -> cell) : M addr :=
  fun st => Returns (length st, st ++ [mk (length st)]).

(** [if err := m; err != nil { return err }; k]. *)
Definition checkM (m : M error) (k : M error) : M error :=
  e <- m ;;
  match e with
  | Some x => retM (Some x)
  | None => k
  end.

(** A deferred function runs when the call returns. *)
Definition deferM (d : M unit) (m : M error) : M error :=
  e <- m ;; d ;; retM e.

Fixpoint forEachM {X : Type} (xs : list X) (f : X -> M unit) : M unit :=
  match xs with
  | [] => retM tt
  | x :: rest => f x ;; forEachM rest f
  end.

(** [buf.Write(p)] on the buffer of a struct, and a change of the fields
    of its wrapper. *)
Definition buf_Write (p : gostring) (c : textifyTraverseContext)
  : textifyTraverseContext :=
  set_wrapper c (lw_Write (wrapper c) p).

Definition with_wrapper (f : lineWrapper -> lineWrapper)
  (c : textifyTraverseContext) : textifyTraverseContext :=
  set_wrapper c (f (wrapper c)).

(** [l.out.Write(p)] for the wrapper [l] of the struct at [a]. *)
Definition out_Write (a : addr) (p : gostring) : M unit :=
  o <- loadOut a ;;
  modify o (buf_Write p).

Definition flushN_mem (a : addr) (n : Z) : M unit :=
  c <- load a ;;
  let l := wrapper c in
  if (lw_n l =? 0) && (n <=? lw_nl l) then retM tt
  else
    let n := n - lw_nl l in
    if n <? 1 then retM tt
    else
      (if n =? 1 then out_Write a nlBytes
       else out_Write a (Repeat nlBytes n)) ;;
      modify a
        (with_wrapper
           (fun l => mkLineWrapper (lw_out l) (lw_width l) 0 (lw_nl l + n) 0
                                   (lw_printed l))).

Definition flush_mem (a : addr) : M unit := flushN_mem a 1.

Definition write_field_mem (a : addr) (f : gostring) : M unit :=
  let w := StringWidth f in
  c <- load a ;;
  let l := wrapper c in
  (if (0 <? lw_n l) && (lw_width l <? lw_n l + lw_pendSpace l + w) then
     out_Write a nlBytes ;;
     modify a
       (with_wrapper
          (fun l => mkLineWrapper (lw_out l) (lw_width l) 0 (lw_nl l) 0
                                  (lw_printed l)))
   else retM tt) ;;
  c <- load a ;;
  out_Write a (firstn (Z.to_nat (lw_pendSpace (wrapper c))) spaceBytes) ;;
  out_Write a f ;;
  modify a
    (with_wrapper
       (fun l => mkLineWrapper (lw_out l) (lw_width l)
                               (lw_n l + lw_pendSpace l + w) (lw_nl l) 1
                               (lw_printed l))).

Definition write_mem (a : addr) (text : gostring) : M unit :=
  c <- load a ;;
  (if (lw_n (wrapper c) =? 0) && lw_printed (wrapper c) then flush_mem a
   else retM tt) ;;
  modify a
    (with_wrapper
       (fun l => mkLineWrapper (lw_out l) (lw_width l) (lw_n l) 0
                               (lw_pendSpace l) true)) ;;
  forEachM (Fields text) (write_field_mem a).

Definition emit_mem (a : addr) (data : gostring) : M error :=
  c <- load a ;;
  if 0 <? tableLevel c then
    flush_mem a ;;
    modify a (buf_Write data) ;;
    retM None
  else if gostring_eqb data [] then retM None
  else if gostring_eqb data [LF] then flush_mem a ;; retM None
  else if gostring_eqb data [LF; LF] then flushN_mem a 2 ;; retM None
  else write_mem a data ;; retM None.

(** [ctx.sub()]: a new struct whose wrapper writes to its own [buf]. *)
Definition sub_mem (a : addr) : M addr :=
  c <- load a ;;
  alloc (fun b =>
           mkCell
             (mkCtx [] zeroTableCtx (options c) false false 0 0
                    (mkLineWrapper [] (lw_width (wrapper c)) 0 0 0 false)
                    false)
             b).

(** The calls of the external table renderer, which touch no context. *)
Definition renderTable (o : option PrettyTablesOptions)
  (hd ft : list gostring) (rows : list (list gostring)) : M gostring :=
  fun st =>
    match tablewriter_Render o hd ft rows with
    | Returns rendered => Returns (rendered, st)
    | Panics msg => Panics msg
    end.

Section DispatchMem.

Variable traverse : Node -> addr -> M error.

Fixpoint traverseChildren_mem_with (kids : list Node) (a : addr) : M error :=
  match kids with
  | [] => retM None
  | c :: rest => checkM (traverse c a) (traverseChildren_mem_with rest a)
  end.

(** [FromHTMLNode]: the context is a new struct, and its wrapper writes
    to the [buf] of that struct. *)
Definition FromHTMLNode_mem_with (doc : Node) (o : list Options)
  : M (gostring * error) :=
  let options := match o with o0 :: _ => o0 | [] => zeroOptions end in
  a <- alloc (fun a =>
                mkCell
                  (mkCtx [] zeroTableCtx options false false 0 0
                         (mkLineWrapper [] 78 0 0 0 false) false)
                  a) ;;
  e <- traverse doc a ;;
  match e with
  | Some e => retM ([], Some e)
  | None => c <- load a ;; retM (normalize (buf c), None)
  end.

(** The loop of [renderEachChild]; [b] is its [bytes.Buffer], a local
    variable. *)
Fixpoint renderEachChild_loop_mem (a : addr) (kids : list Node)
  (b : gostring) : M (gostring * error) :=
  match kids with
  | [] => retM (b, None)
  | c :: rest =>
      ctx <- load a ;;
      r <- FromHTMLNode_mem_with c [options ctx] ;;
      match r with
      | (_, Some e) => retM ([], Some e)
      | (s, None) =>
          let b := b ++ s in
          let b := match rest with [] => b | _ :: _ => b ++ [LF] end in
          renderEachChild_loop_mem a rest b
      end
  end.

Definition renderEachChild_mem_with (a : addr) (kids : list Node)
  : M (gostring * error) :=
  renderEachChild_loop_mem a kids [].

Definition paragraphHandler_mem_with (kids : list Node) (a : addr)
  : M error :=
  checkM (emit_mem a [LF; LF])
    (checkM (traverseChildren_mem_with kids a)
       (emit_mem a [LF; LF])).

Definition handleTableElement_mem_with (atom : Atom) (kids : list Node)
  (a : addr) : M error :=
  c <- load a ;;
  if negb (PrettyTables (options c)) then
    panicM "handleTableElement invoked when PrettyTables not active"
  else
    match atom with
    | Table =>
        checkM (emit_mem a [LF; LF])
          (modify a (fun c => set_tableCtx c (tableCtx_init (tableCtx c))) ;;
           checkM (traverseChildren_mem_with kids a)
             (c <- load a ;;
              rendered <- renderTable (PrettyTablesOpts (options c))
                            (header (tableCtx c)) (footer (tableCtx c))
                            (body (tableCtx c)) ;;
              checkM (emit_mem a rendered) (emit_mem a [LF; LF])))
    | Tfoot =>
        modify a
          (fun c => set_tableCtx c (set_isInFooter (tableCtx c) true)) ;;
        checkM (traverseChildren_mem_with kids a)
          (modify a
             (fun c => set_tableCtx c (set_isInFooter (tableCtx c) false)) ;;
           retM None)
    | Tr =>
        modify a
          (fun c =>
             set_tableCtx c
               (set_body (tableCtx c) (body (tableCtx c) ++ [[]]))) ;;
        checkM (traverseChildren_mem_with kids a)
          (modify a
             (fun c =>
                set_tableCtx c
                  (set_tmpRow (tableCtx c) (tmpRow (tableCtx c) + 1))) ;;
           retM None)
    | Th =>
        r <- renderEachChild_mem_with a kids ;;
        match r with
        | (_, Some e) => retM (Some e)
        | (res, None) =>
            modify a
              (fun c =>
                 set_tableCtx c
                   (set_header (tableCtx c) (header (tableCtx c) ++ [res]))) ;;
            retM None
        end
    | Td =>
        r <- renderEachChild_mem_with a kids ;;
        match r with
        | (_, Some e) => retM (Some e)
        | (res, None) =>
            c <- load a ;;
            if isInFooter (tableCtx c) then
              modify a
                (fun c =>
                   set_tableCtx c
                     (set_footer (tableCtx c)
                        (footer (tableCtx c) ++ [res]))) ;;
              retM None
            else
              match body_append (body (tableCtx c)) (tmpRow (tableCtx c))
                      res with
              | None => panicM "index out of range"
              | Some rows =>
                  modify a
                    (fun c => set_tableCtx c (set_body (tableCtx c) rows)) ;;
                  retM None
              end
        end
    | _ => retM None
    end.

Definition tableCase_mem_with (atom : Atom) (kids : list Node) (a : addr)
  : M error :=
  c <- load a ;;
  if PrettyTables (options c) then handleTableElement_mem_with atom kids a
  else if Atom_eqb atom Table then paragraphHandler_mem_with kids a
  else traverseChildren_mem_with kids a.

Definition handleElement_mem_with (atom : Atom) (attr : list Attribute)
  (kids : list Node) (a : addr) : M error :=
  modify a (fun c => set_justClosedDiv c false) ;;
  match atom with
  | Br => emit_mem a [LF; LF]

  | H1 | H2 | H3 =>
      s <- sub_mem a ;;
      e <- traverseChildren_mem_with kids s ;;
      match e with
      | Some e => retM (Some e)
      | None =>
          subCtx <- load s ;;
          let str := buf subCtx in
          c <- load a ;;
          if TextOnly (options c) then emit_mem a (str ++ [LF; LF])
          else
            let dividerLen := headingDividerLen str in
            let divider :=
              if Atom_eqb atom H1 then Repeat (lit "*") dividerLen
              else Repeat (lit "-") dividerLen in
            emit_mem a [LF; LF] ;;
            (if Atom_eqb atom H1 then
               emit_mem a divider ;; emit_mem a [LF] ;; retM tt
             else retM tt) ;;
            emit_mem a str ;;
            emit_mem a [LF] ;;
            emit_mem a divider ;;
            emit_mem a [LF; LF] ;;
            retM None
      end

  | Blockquote =>
      modify a (fun c => set_blockquoteLevel c (blockquoteLevel c + 1)) ;;
      c <- load a ;;
      (if negb (TextOnly (options c)) then
         modify a
           (fun c =>
              set_prefix c (Repeat (lit ">") (blockquoteLevel c) ++ lit " "))
       else retM tt) ;;
      checkM (emit_mem a [LF])
        (c <- load a ;;
         checkM (if blockquoteLevel c =? 1 then emit_mem a [LF]
                 else retM None)
           (checkM (traverseChildren_mem_with kids a)
              (modify a
                 (fun c => set_blockquoteLevel c (blockquoteLevel c - 1)) ;;
               c <- load a ;;
               (if negb (TextOnly (options c)) then
                  modify a
                    (fun c =>
                       set_prefix c (Repeat (lit ">") (blockquoteLevel c)))
                else retM tt) ;;
               c <- load a ;;
               (if 0 <? blockquoteLevel c then
                  modify a (fun c => set_prefix c (prefix c ++ lit " "))
                else retM tt) ;;
               emit_mem a [LF; LF])))

  | Div =>
      flush_mem a ;;
      checkM (traverseChildren_mem_with kids a)
        (c <- load a ;;
         err <- (if negb (justClosedDiv c) then emit_mem a [LF]
                 else retM None) ;;
         modify a (fun c => set_justClosedDiv c true) ;;
         retM err)

  | Li =>
      c <- load a ;;
      checkM (if negb (TextOnly (options c)) then emit_mem a (lit "- ")
              else retM None)
        (checkM (traverseChildren_mem_with kids a)
           (emit_mem a [LF]))

  | B | Strong =>
      s <- sub_mem a ;;
      modify s (fun c => set_endsWithSpace c true) ;;
      e <- traverseChildren_mem_with kids s ;;
      match e with
      | Some e => retM (Some e)
      | None =>
          subCtx <- load s ;;
          let str := buf subCtx in
          c <- load a ;;
          if TextOnly (options c) then emit_mem a str
          else emit_mem a (lit "*" ++ str ++ lit "*")
      end

  | A =>
      let linkText :=
        match kids with
        | [c] => match Type_ c with TextNode => Data c | _ => [] end
        | _ => []
        end in
      checkM
        (match kids with
         | [img] =>
             if Atom_eqb (DataAtom img) Img then
               let altText := getAttrVal img (lit "alt") in
               if negb (gostring_eqb altText []) then emit_mem a altText
               else retM None
             else traverseChildren_mem_with kids a
         | _ => traverseChildren_mem_with kids a
         end)
        (c <- load a ;;
         let hrefLink :=
           let attrVal := getAttrVal_list attr (lit "href") in
           if negb (gostring_eqb attrVal []) then
             let attrVal := normalizeHrefLink attrVal in
             if (negb (OmitLinks (options c))
                 && negb (gostring_eqb attrVal [])
                 && negb (gostring_eqb linkText attrVal))
                || negb (TextOnly (options c))
             then lit "(" ++ attrVal ++ lit ")"
             else []
           else [] in
         emit_mem a hrefLink)

  | P | Ul => paragraphHandler_mem_with kids a

  | Table =>
      modify a (fun c => set_tableLevel c (tableLevel c + 1)) ;;
      deferM (modify a (fun c => set_tableLevel c (tableLevel c - 1)))
             (tableCase_mem_with atom kids a)

  | Tfoot | Th | Tr | Td => tableCase_mem_with atom kids a

  | Pre =>
      modify a (fun c => set_isPre c true) ;;
      err <- traverseChildren_mem_with kids a ;;
      modify a (fun c => set_isPre c false) ;;
      retM err

  | Style | Script | Head => retM None

  | _ => traverseChildren_mem_with kids a
  end.

End DispatchMem.

Fixpoint traverse_mem (node : Node) (a : addr) {struct node} : M error :=
  match node with
  | mkNode type atom data attr kids =>
      match type with
      | TextNode =>
          c <- load a ;;
          let data := if isPre c then data else TrimSpace data in
          emit_mem a data
      | ElementNode => handleElement_mem_with traverse_mem atom attr kids a
      | _ => traverseChildren_mem_with traverse_mem kids a
      end
  end.

Definition FromHTMLNode_mem := FromHTMLNode_mem_with traverse_mem.
Definition renderEachChild_mem := renderEachChild_mem_with traverse_mem.
Definition handleElement_mem (node : Node) :=
  handleElement_mem_with traverse_mem (DataAtom node) (Attr node)
                         (Children node).

(** ** Vocabulary of the statements on memory *)

(** The struct at [a] holds the fields [c], and its wrapper writes to its
    own [buf]. *)
Definition ownsBuf (st : store) (a : addr) (c : textifyTraverseContext)
  : Prop :=
  nth_error st a = Some (mkCell c a).

(** The store [st] with the struct at [a] replaced and new structs
    added after it. *)
Definition ins (st : store) (a : addr) (x : cell) (tail : store) : store :=
  upd st a x ++ tail.

(** A method on memory does what the function on contexts does: from a
    struct at [a] that owns its buffer, it leaves the fields the function
    computes in the struct at [a], makes new structs, touches no other
    struct, and returns the same error or panics the same. *)
Definition simulates (m : addr -> M error)
  (f : textifyTraverseContext -> Result) : Prop :=
  forall st a c,
    ownsBuf st a c ->
    match f c with
    | Returns (c', e) =>
        exists tail, m a st = Returns (e, ins st a (mkCell c' a) tail)
    | Panics msg => m a st = Panics msg
    end.

(** A node whose visit in memory does what its visit on contexts does. *)
Definition simNode (c : Node) : Prop :=
  simulates (traverse_mem c) (traverse_gen true c).
(** * Properties *)

(** ** Strings *)

Lemma HasPrefix_spec (p s : gostring) :
  HasPrefix s p = true <-> exists b, s = p ++ b.
Proof.
  revert s; induction p as [|c p IH]; intros s; simpl.
  - split; [intros _; now exists s | reflexivity].
  - destruct s as [|r s].
    + split; [discriminate | intros [b Hb]; discriminate].
    + rewrite andb_true_iff, N.eqb_eq, IH. split.
      * intros [-> [b ->]]. now exists b.
      * intros [b Hb]. injection Hb as -> ->. split; [reflexivity | now exists b].
Qed.

Lemma Contains_spec (s p : gostring) :
  Contains s p = true <-> exists a b, s = a ++ p ++ b.
Proof.
  induction s as [|r s IH].
  - simpl. rewrite orb_false_r, HasPrefix_spec. split.
    + intros [b Hb]. now exists [], b.
    + intros [a [b Hab]]. destruct a; [now exists b | discriminate].
  - cbn [Contains]. rewrite orb_true_iff, HasPrefix_spec, IH. split.
    + intros [[b Hb] | [a [b Hab]]].
      * now exists [], b.
      * exists (r :: a), b. now rewrite Hab.
    + intros [a [b Hab]]. destruct a as [|x a].
      * left. now exists b.
      * right. injection Hab as _ ->. now exists a, b.
Qed.

Lemma Contains_false_infix (a s b p : gostring) :
  Contains (a ++ s ++ b) p = false -> Contains s p = false.
Proof.
  intros H. destruct (Contains s p) eqn:E; [|reflexivity].
  apply Contains_spec in E as [x [y ->]].
  assert (Contains (a ++ (x ++ p ++ y) ++ b) p = true) as H'.
  { apply Contains_spec. exists (a ++ x), (y ++ b).
    now rewrite <- !app_assoc. }
  congruence.
Qed.

Lemma dropWhile_suffix (p : rune -> bool) (s : gostring) :
  exists x, s = x ++ dropWhile p s.
Proof.
  induction s as [|r s [x IH]]; simpl.
  - now exists [].
  - destruct (p r).
    + exists (r :: x). simpl. now rewrite <- IH.
    + now exists [].
Qed.

Lemma dropWhile_head (p : rune -> bool) (s : gostring) r t :
  dropWhile p s = r :: t -> p r = false.
Proof.
  induction s as [|x s IH]; simpl; [discriminate|].
  destruct (p x) eqn:E; [exact IH|].
  intros H. injection H as -> _. exact E.
Qed.

Lemma TrimRightFunc_prefix (s : gostring) (p : rune -> bool) :
  exists x, s = TrimRightFunc s p ++ x.
Proof.
  unfold TrimRightFunc.
  destruct (dropWhile_suffix p (rev s)) as [x Hx].
  exists (rev x).
  rewrite <- rev_app_distr, <- Hx. now rewrite rev_involutive.
Qed.

Lemma TrimRightFunc_last (s : gostring) (p : rune -> bool) t r :
  TrimRightFunc s p = t ++ [r] -> p r = false.
Proof.
  unfold TrimRightFunc. intros H.
  apply (f_equal (@rev rune)) in H.
  rewrite rev_involutive, rev_app_distr in H. simpl in H.
  now apply dropWhile_head in H.
Qed.

Lemma TrimSpace_infix (s : gostring) :
  exists a b, s = a ++ TrimSpace s ++ b.
Proof.
  unfold TrimSpace, TrimLeftFunc.
  destruct (dropWhile_suffix IsSpace s) as [a Ha].
  destruct (TrimRightFunc_prefix (dropWhile IsSpace s) IsSpace) as [b Hb].
  exists a, b. now rewrite <- Hb.
Qed.

Lemma TrimSpace_head (s : gostring) r t :
  TrimSpace s = r :: t -> IsSpace r = false.
Proof.
  unfold TrimSpace, TrimLeftFunc. intros H.
  destruct (TrimRightFunc_prefix (dropWhile IsSpace s) IsSpace) as [b Hb].
  rewrite H in Hb. simpl in Hb. now apply dropWhile_head in Hb.
Qed.

Lemma TrimSpace_last (s : gostring) t r :
  TrimSpace s = t ++ [r] -> IsSpace r = false.
Proof. unfold TrimSpace. apply TrimRightFunc_last. Qed.

(** ** The final normalisation *)

Lemma Replace_nlsp_head (s : gostring) r t :
  Replace_nlsp s = r :: t -> exists t', s = r :: t'.
Proof.
  destruct s as [|x s]; simpl; [discriminate|].
  destruct (x =? LF)%N eqn:E.
  - apply N.eqb_eq in E as ->.
    destruct s as [|y s]; [|destruct (y =? SP)%N];
      intros H; injection H as <- _; eauto.
  - intros H; injection H as <- _; eauto.
Qed.

Lemma Replace_nlsp_keeps_gap_len (k : nat) :
  forall s : gostring, (length s <= k)%nat ->
    Contains (Replace_nlsp s) [LF; SP] = true ->
    Contains s [LF; SP; SP] = true.
Proof.
  induction k as [|k IH]; intros s Hlen.
  - destruct s; [discriminate | simpl in Hlen; lia].
  - destruct s as [|x s]; [discriminate|].
    simpl in Hlen.
    assert (forall u, (length u <= k)%nat ->
              Contains (LF :: Replace_nlsp u) [LF; SP] = true ->
              (exists u', u = SP :: u') \/ Contains u [LF; SP; SP] = true)
      as step.
    { intros u Hu H. cbn [Contains] in H. apply orb_true_iff in H as [H|H].
      - left.
        destruct (Replace_nlsp u) as [|y w] eqn:E; [cbn in H; discriminate|].
        destruct (Replace_nlsp_head _ _ _ E) as [u' ->].
        cbn [HasPrefix] in H.
        apply andb_true_iff in H as [_ H]. apply andb_true_iff in H as [H _].
        apply N.eqb_eq in H. subst y. now exists u'.
      - right. now apply IH. }
    cbn [Replace_nlsp]. destruct (x =? LF)%N eqn:Ex.
    + apply N.eqb_eq in Ex as ->.
      destruct s as [|y s]; [discriminate|].
      destruct (y =? SP)%N eqn:Ey.
      * apply N.eqb_eq in Ey as ->. intros H.
        simpl in Hlen.
        destruct (step s ltac:(lia) H) as [[u' ->] | H'].
        -- reflexivity.
        -- cbn [Contains]. rewrite H'. now rewrite !orb_true_r.
      * intros H. destruct (step (y :: s) ltac:(lia) H) as [[u' Hu] | H'].
        -- injection Hu as -> _. discriminate.
        -- cbn [Contains] in H' |- *. rewrite H'. now rewrite !orb_true_r.
    + intros H. cbn [Contains] in H. apply orb_true_iff in H as [H|H].
      * cbn [HasPrefix] in H. change (LF =? x)%N with (10 =? x)%N in H.
        rewrite N.eqb_sym in H. unfold LF in Ex. rewrite Ex in H. discriminate.
      * cbn [Contains]. rewrite (IH s ltac:(lia) H). now rewrite orb_true_r.
Qed.

Lemma Replace_nlsp_keeps_gap (s : gostring) :
  Contains (Replace_nlsp s) [LF; SP] = true ->
  Contains s [LF; SP; SP] = true.
Proof. apply (Replace_nlsp_keeps_gap_len (length s)). lia. Qed.

Lemma Contains_app_r (a s p : gostring) :
  Contains s p = true -> Contains (a ++ s) p = true.
Proof.
  rewrite !Contains_spec. intros [x [y ->]].
  exists (a ++ x), y. now rewrite <- app_assoc.
Qed.

Lemma Contains_app_l (s b p : gostring) :
  Contains s p = true -> Contains (s ++ b) p = true.
Proof.
  rewrite !Contains_spec. intros [x [y ->]].
  exists x, (y ++ b). now rewrite <- !app_assoc.
Qed.

Lemma repeat_snoc {X : Type} (x : X) (k : nat) :
  repeat x (S k) = repeat x k ++ [x].
Proof. induction k as [|k IH]; simpl in *; [reflexivity | now rewrite <- IH]. Qed.

Lemma eqb_LF_false (r : rune) : (r =? LF)%N = false -> (LF =? r)%N = false.
Proof. now rewrite N.eqb_sym. Qed.

Lemma HasPrefix_cons (r c : rune) (s p : gostring) :
  HasPrefix (r :: s) (c :: p) = ((c =? r)%N && HasPrefix s p).
Proof. reflexivity. Qed.

Lemma Contains_cons (r : rune) (s p : gostring) :
  Contains (r :: s) p = (HasPrefix (r :: s) p || Contains s p).
Proof. reflexivity. Qed.

Lemma Contains_newlines_then (m : nat) (t : gostring) :
  (m <= 2)%nat ->
  (forall r t', t = r :: t' -> (r =? LF)%N = false) ->
  Contains t [LF; LF; LF] = false ->
  Contains (repeat LF m ++ t) [LF; LF; LF] = false.
Proof.
  intros Hm Hhd Ht.
  assert (HasPrefix t [LF] = false) as H1.
  { destruct t as [|r t']; [reflexivity|].
    cbn [HasPrefix]. now rewrite (eqb_LF_false r (Hhd r t' eq_refl)). }
  assert (forall u, HasPrefix t (LF :: u) = false) as H2.
  { intros u. destruct t as [|r t']; [reflexivity|].
    cbn [HasPrefix]. now rewrite (eqb_LF_false r (Hhd r t' eq_refl)). }
  destruct m as [|[|[|m]]]; [exact Ht | | | lia]; cbn [repeat app].
  - rewrite Contains_cons, HasPrefix_cons, H2, Ht. now rewrite andb_false_r.
  - rewrite !Contains_cons, !HasPrefix_cons, Ht, !H2.
    now rewrite !andb_false_r.
Qed.

Lemma collapse_from_shape (s : gostring) :
  forall k, exists m t,
    collapse_from k s = repeat LF m ++ t /\ (m <= 2)%nat /\
    (forall r t', t = r :: t' -> (r =? LF)%N = false) /\
    Contains t [LF; LF; LF] = false.
Proof.
  induction s as [|x s IH]; intros k; cbn [collapse_from].
  - exists (Nat.min k 2), []. rewrite app_nil_r.
    repeat split; [lia | discriminate].
  - destruct (x =? LF)%N eqn:E; [apply IH|].
    exists (Nat.min k 2), (x :: collapse_from 0 s).
    repeat split; [lia | |].
    + intros r t' H. now injection H as <- _.
    + destruct (IH 0%nat) as [m [t [-> [Hm [Hhd Ht]]]]].
      cbn [Contains HasPrefix]. rewrite (eqb_LF_false x E). simpl.
      now apply Contains_newlines_then.
Qed.

Lemma collapse_no_triple (s : gostring) :
  Contains (newlineRe_ReplaceAll s) [LF; LF; LF] = false.
Proof.
  unfold newlineRe_ReplaceAll.
  destruct (collapse_from_shape s 0) as [m [t [-> [Hm [Hhd Ht]]]]].
  now apply Contains_newlines_then.
Qed.

Lemma Contains_repeat_LF_SP (j : nat) :
  Contains (repeat LF j) [LF; SP] = false.
Proof.
  induction j as [|j IH]; [reflexivity|].
  cbn [repeat Contains HasPrefix]. rewrite IH, N.eqb_refl.
  destruct j; reflexivity.
Qed.

Lemma Contains_newlines_SP (j : nat) (r : rune) (u : gostring) :
  Contains (repeat LF j ++ r :: u) [LF; SP] = true ->
  ((1 <= j)%nat /\ r = SP) \/ Contains (r :: u) [LF; SP] = true.
Proof.
  induction j as [|j IH]; [now right|].
  cbn [repeat app Contains]. intros H. apply orb_true_iff in H as [H|H].
  - destruct j as [|j].
    + cbn [repeat app HasPrefix] in H.
      apply andb_true_iff in H as [_ H]. apply andb_true_iff in H as [H _].
      apply N.eqb_eq in H. left. split; [lia | now subst].
    + cbn in H. discriminate.
  - destruct (IH H) as [[Hj Hr] | H']; [left; split; [lia | exact Hr] | now right].
Qed.

Lemma collapse_keeps_nlsp (s : gostring) :
  forall k, Contains (collapse_from k s) [LF; SP] = true ->
            Contains (repeat LF k ++ s) [LF; SP] = true.
Proof.
  induction s as [|x s IH]; intros k; cbn [collapse_from].
  - now rewrite Contains_repeat_LF_SP.
  - destruct (x =? LF)%N eqn:E.
    + apply N.eqb_eq in E as ->. intros H. apply IH in H.
      rewrite repeat_snoc, <- app_assoc in H. exact H.
    + intros H. apply Contains_newlines_SP in H as [[Hk ->] | H].
      * destruct k as [|k]; [lia|]. rewrite repeat_snoc, <- app_assoc.
        apply Contains_app_r. reflexivity.
      * apply Contains_app_r. cbn [Contains HasPrefix] in H |- *.
        rewrite (eqb_LF_false x E) in *. simpl in H |- *.
        apply (IH 0%nat) in H. exact H.
Qed.

Lemma normalize_no_triple (s : gostring) :
  Contains (normalize s) [LF; LF; LF] = false.
Proof.
  unfold normalize.
  destruct (TrimSpace_infix (newlineRe_ReplaceAll (Replace_nlsp s)))
    as [a [b Hab]].
  apply (Contains_false_infix a _ b). rewrite <- Hab.
  apply collapse_no_triple.
Qed.

Lemma normalize_nlsp (s : gostring) :
  Contains (normalize s) [LF; SP] = true ->
  Contains s [LF; SP; SP] = true.
Proof.
  unfold normalize. intros H.
  apply Replace_nlsp_keeps_gap.
  apply (collapse_keeps_nlsp (Replace_nlsp s) 0%nat).
  destruct (TrimSpace_infix (newlineRe_ReplaceAll (Replace_nlsp s)))
    as [a [b Hab]].
  unfold newlineRe_ReplaceAll in *.
  rewrite Hab. apply Contains_app_r, Contains_app_l. exact H.
Qed.

(** ** Fields *)

Lemma noSpace_app (a b : gostring) :
  noSpace (a ++ b) = noSpace a && noSpace b.
Proof. apply forallb_app. Qed.

Lemma Fields_from_words (s : gostring) :
  forall cur, noSpace cur = true ->
    Forall (fun f => f <> [] /\ noSpace f = true) (Fields_from cur s).
Proof.
  induction s as [|r s IH]; intros cur Hcur; cbn [Fields_from].
  - destruct cur; [constructor|].
    constructor; [split; [discriminate | exact Hcur] | constructor].
  - destruct (IsSpace r) eqn:E.
    + destruct cur as [|c cur]; [now apply IH|].
      constructor; [split; [discriminate | exact Hcur] | now apply IH].
    + apply IH. rewrite noSpace_app, Hcur. cbn. now rewrite E.
Qed.

Lemma Fields_words (s : gostring) :
  Forall (fun f => f <> [] /\ noSpace f = true) (Fields s).
Proof. now apply Fields_from_words. Qed.

Lemma Fields_from_concat (s : gostring) :
  forall cur,
    concat (Fields_from cur s)
    = cur ++ filter (fun r => negb (IsSpace r)) s.
Proof.
  induction s as [|r s IH]; intros cur; cbn [Fields_from filter].
  - destruct cur; [reflexivity|]. cbn [concat]. now rewrite !app_nil_r.
  - destruct (IsSpace r) eqn:E; cbn [negb].
    + destruct cur as [|c cur]; [apply IH|].
      cbn [concat]. now rewrite IH.
    + rewrite IH, <- app_assoc. reflexivity.
Qed.

Lemma Fields_concat (s : gostring) :
  concat (Fields s) = filter (fun r => negb (IsSpace r)) s.
Proof. apply (Fields_from_concat s []). Qed.

(** ** Display width *)

Lemma RuneWidth_pos (r : rune) : 1 <= RuneWidth r <= 2.
Proof. unfold RuneWidth. destruct (isWide r); lia. Qed.

Lemma StringWidth_app (a b : gostring) :
  StringWidth (a ++ b) = StringWidth a + StringWidth b.
Proof. induction a as [|r a IH]; cbn [app StringWidth]; lia. Qed.

Lemma StringWidth_nonneg (s : gostring) : 0 <= StringWidth s.
Proof.
  induction s as [|r s IH]; cbn [StringWidth]; [lia|].
  pose proof (RuneWidth_pos r). lia.
Qed.

Lemma StringWidth_pos (s : gostring) : s <> [] -> 1 <= StringWidth s.
Proof.
  destruct s as [|r s]; [congruence|]. intros _. cbn [StringWidth].
  pose proof (RuneWidth_pos r). pose proof (StringWidth_nonneg s). lia.
Qed.

Lemma StringWidth_count (s : gostring) :
  StringWidth s
  = Z.of_nat (length s) + Z.of_nat (length (filter isWide s)).
Proof.
  induction s as [|r s IH]; [reflexivity|].
  cbn [StringWidth filter length]. unfold RuneWidth.
  destruct (isWide r); cbn [length]; lia.
Qed.

(** ** The line wrapper: what [write] appends *)

Lemma write_field_spec (l : lineWrapper) (f : gostring) :
  pend01 l ->
  let w := StringWidth f in
  let wraps := (0 <? lw_n l) && (lw_width l <? lw_n l + lw_pendSpace l + w) in
  write_field l f
  = mkLineWrapper
      (lw_out l ++ (if wraps then [LF]
                    else if pending l then [SP] else []) ++ f)
      (lw_width l)
      (if wraps then w else lw_n l + lw_pendSpace l + w)
      (lw_nl l) 1 (lw_printed l).
Proof.
  intros Hp. destruct l as [o wd n nl ps pr].
  unfold pend01, pending, write_field in *. cbn in *.
  destruct ((0 <? n) && (wd <? n + ps + StringWidth f)).
  - cbn. f_equal. now rewrite <- !app_assoc.
  - cbn. destruct Hp as [-> | ->]; cbn; f_equal; now rewrite <- !app_assoc.
Qed.

Lemma fold_write_field (fs : list gostring) :
  forall l, pend01 l ->
    let l' := fold_left write_field fs l in
    lw_out l' = lw_out l ++ wrap_words (lw_width l) (lw_n l) (pending l) fs
    /\ lw_width l' = lw_width l /\ lw_nl l' = lw_nl l
    /\ lw_printed l' = lw_printed l /\ pend01 l'.
Proof.
  induction fs as [|f fs IH]; intros l Hp; cbn [fold_left wrap_words].
  - rewrite app_nil_r. repeat split; assumption.
  - rewrite (write_field_spec l f Hp).
    set (wraps := (0 <? lw_n l) && (lw_width l <? lw_n l + lw_pendSpace l + StringWidth f)).
    match goal with |- context [fold_left write_field fs ?x] =>
      destruct (IH x) as [Ho [Hw [Hn [Hpr Hp']]]]; [right; reflexivity|] end.
    cbn [lw_out lw_width lw_n lw_nl lw_printed lw_pendSpace] in *.
    rewrite Ho, Hw, Hn, Hpr. unfold pending at 1. cbn [lw_pendSpace].
    change (negb (1 =? 0)) with true.
    assert ((if pending l then 1 else 0) = lw_pendSpace l) as Hps.
    { unfold pending. destruct Hp as [-> | ->]; reflexivity. }
    rewrite Hps. fold wraps.
    repeat split; try assumption.
    destruct wraps; rewrite <- !app_assoc; reflexivity.
Qed.

Lemma flushN_fields (l : lineWrapper) (k : Z) :
  lw_width (flushN l k) = lw_width l
  /\ lw_printed (flushN l k) = lw_printed l
  /\ (pend01 l -> pend01 (flushN l k)).
Proof.
  unfold flushN, pend01.
  destruct ((lw_n l =? 0) && (k <=? lw_nl l)); [tauto|].
  destruct (k - lw_nl l <? 1); [tauto|].
  destruct (k - lw_nl l =? 1); cbn; tauto.
Qed.

Lemma write_pend01 (l : lineWrapper) (text : gostring) :
  pend01 l -> pend01 (write l text).
Proof.
  intros Hp. unfold write.
  match goal with |- context [fold_left write_field _ ?x] =>
    destruct (fold_write_field (Fields text) x) as [_ [_ [_ [_ H]]]] end;
    [|exact H].
  unfold pend01 in *. cbn [lw_pendSpace].
  destruct ((lw_n l =? 0) && lw_printed l); [|exact Hp].
  now apply flushN_fields.
Qed.

Lemma lw_run_pend01 (calls : list lwCall) :
  forall l, pend01 l -> pend01 (lw_run l calls).
Proof.
  unfold lw_run. induction calls as [|c calls IH]; intros l Hp; [exact Hp|].
  cbn [fold_left]. apply IH. destruct c; cbn [lw_call].
  - now apply write_pend01.
  - now apply flushN_fields.
  - now apply flushN_fields.
Qed.

(** C7: [write] splits its text into the white-space delimited words
    [Fields text] (non-empty, free of white space, and together all the
    non-space runes of the text) and appends them as the greedy filling
    [wrap_words] of a 78-column line does: words joined by one space, a
    word on a new line exactly when the line is not empty and column,
    pending space and word width exceed 78.  The width of a word counts 2
    for each wide rune and 1 for every other rune; the wrapper of a fresh
    context is 78 columns wide and sub-contexts and [write] keep the
    width. *)
Theorem write_wraps_greedily (l : lineWrapper) (text : gostring) :
  pend01 l -> lw_width l = 78 ->
  let l0 := if (lw_n l =? 0) && lw_printed l then flush l else l in
  lw_out (write l text)
  = lw_out l0 ++ wrap_words 78 (lw_n l0) (pending l0) (Fields text)
  /\ Forall (fun f => f <> [] /\ noSpace f = true) (Fields text)
  /\ concat (Fields text) = filter (fun r => negb (IsSpace r)) text
  /\ (forall f, StringWidth f
                = Z.of_nat (length f) + Z.of_nat (length (filter isWide f)))
  /\ lw_width (write l text) = 78
  /\ (forall o, lw_width (wrapper (newCtx o)) = 78)
  /\ (forall ctx, lw_width (wrapper (sub ctx)) = lw_width (wrapper ctx)).
Proof.
  intros Hp Hw l0.
  assert (pend01 l0 /\ lw_width l0 = 78) as [Hp0 Hw0].
  { unfold l0. destruct ((lw_n l =? 0) && lw_printed l); [|tauto].
    unfold flush. destruct (flushN_fields l 1) as [-> [_ H]]. tauto. }
  unfold write. fold l0.
  match goal with |- context [fold_left write_field _ ?x] =>
    destruct (fold_write_field (Fields text) x) as [Ho [Hwd _]];
      [exact Hp0|] end.
  cbn [lw_out lw_width lw_n] in Ho, Hwd. unfold pending in Ho at 1.
  cbn [lw_pendSpace] in Ho. fold (pending l0) in Ho.
  repeat split.
  - rewrite Ho, Hw0. reflexivity.
  - apply Fields_words.
  - apply Fields_concat.
  - apply StringWidth_count.
  - rewrite Hwd. exact Hw0.
Qed.

(** ** The line wrapper: every line fits *)

Lemma Repeat_nlBytes (k : Z) : Repeat nlBytes k = repeat LF (Z.to_nat k).
Proof.
  unfold Repeat, nlBytes. induction (Z.to_nat k) as [|j IH]; [reflexivity|].
  cbn [repeat concat app]. now rewrite IH.
Qed.

Lemma Split_nl_line (ln rest : gostring) :
  ~ In LF ln -> Split_nl (ln ++ LF :: rest) = ln :: Split_nl rest.
Proof.
  induction ln as [|r ln IH]; intros H; cbn [app Split_nl].
  - now rewrite N.eqb_refl.
  - destruct (r =? LF)%N eqn:E.
    + apply N.eqb_eq in E. exfalso. apply H. now left.
    + rewrite IH; [reflexivity|]. intros Hin. apply H. now right.
Qed.

Lemma Split_nl_single (ln : gostring) : ~ In LF ln -> Split_nl ln = [ln].
Proof.
  induction ln as [|r ln IH]; intros H; cbn [Split_nl]; [reflexivity|].
  destruct (r =? LF)%N eqn:E.
  - apply N.eqb_eq in E. exfalso. apply H. now left.
  - rewrite IH; [reflexivity|]. intros Hin. apply H. now right.
Qed.

Lemma Split_nl_joinLines (done : list gostring) (cur : gostring) :
  Forall (fun ln => ~ In LF ln) done -> ~ In LF cur ->
  Split_nl (joinLines done cur) = done ++ [cur].
Proof.
  unfold joinLines. intros Hd Hc.
  induction Hd as [|ln done Hln Hd IH]; cbn [map concat app].
  - now apply Split_nl_single.
  - rewrite <- !app_assoc. cbn [app]. rewrite Split_nl_line by exact Hln.
    now rewrite IH.
Qed.

Lemma joinLines_snoc (done : list gostring) (cur : gostring) :
  joinLines done cur ++ [LF] = joinLines (done ++ [cur]) [].
Proof.
  unfold joinLines. rewrite map_app, concat_app. cbn [map concat].
  now rewrite !app_nil_r, <- app_assoc.
Qed.

Lemma joinLines_blank (done : list gostring) (j : nat) :
  joinLines done [] ++ repeat LF j = joinLines (done ++ repeat [] j) [].
Proof.
  induction j as [|j IH] in done |- *.
  - cbn [repeat]. now rewrite !app_nil_r.
  - cbn [repeat].
    change (LF :: repeat LF j) with ([LF] ++ repeat LF j).
    rewrite app_assoc, joinLines_snoc, IH, <- app_assoc. reflexivity.
Qed.

Lemma lineFits_nil (W : Z) : lineFits W [].
Proof. now right. Qed.

Lemma noSpace_no_LF (f : gostring) : noSpace f = true -> ~ In LF f.
Proof.
  unfold noSpace. rewrite forallb_forall. intros H Hin.
  specialize (H LF Hin). discriminate.
Qed.

Lemma StringWidth_zero (s : gostring) : StringWidth s = 0 -> s = [].
Proof.
  destruct s as [|r s]; [reflexivity|]. intros H.
  pose proof (StringWidth_pos (r :: s) ltac:(discriminate)). lia.
Qed.

Lemma lwInv_flushN (l : lineWrapper) (k : Z) : lwInv l -> lwInv (flushN l k).
Proof.
  intros Hinv. unfold flushN.
  destruct ((lw_n l =? 0) && (k <=? lw_nl l)); [exact Hinv|].
  destruct (k - lw_nl l <? 1) eqn:Ek; [exact Hinv|].
  apply Z.ltb_ge in Ek.
  destruct Hinv as [done [cur [Ho [Hd [Hc [Hf [Hn Hp]]]]]]].
  assert (exists j, (if k - lw_nl l =? 1 then nlBytes
                     else Repeat nlBytes (k - lw_nl l)) = repeat LF (S j))
    as [j Hj].
  { exists (Nat.pred (Z.to_nat (k - lw_nl l))).
    destruct (k - lw_nl l =? 1) eqn:E1.
    - apply Z.eqb_eq in E1. rewrite E1. reflexivity.
    - rewrite Repeat_nlBytes. f_equal. lia. }
  exists (done ++ cur :: repeat [] j), [].
  assert (lw_out (if k - lw_nl l =? 1 then lw_Write l nlBytes
                  else lw_Write l (Repeat nlBytes (k - lw_nl l)))
          = lw_out l ++ repeat LF (S j)) as Hout.
  { rewrite <- Hj. destruct (k - lw_nl l =? 1); reflexivity. }
  assert (lw_width (if k - lw_nl l =? 1 then lw_Write l nlBytes
                    else lw_Write l (Repeat nlBytes (k - lw_nl l)))
          = lw_width l) as Hwd.
  { destruct (k - lw_nl l =? 1); reflexivity. }
  cbn [lw_out lw_width lw_n lw_pendSpace]. rewrite Hout, Hwd, Ho.
  repeat split.
  - cbn [repeat]. change (LF :: repeat LF j) with ([LF] ++ repeat LF j).
    rewrite app_assoc, joinLines_snoc, joinLines_blank, <- app_assoc.
    reflexivity.
  - apply Forall_app. split; [exact Hd|].
    constructor; [split; assumption|].
    apply Forall_forall. intros ln Hin. apply repeat_spec in Hin as ->.
    split; [intros [] | apply lineFits_nil].
  - intros [].
  - apply lineFits_nil.
Qed.

Lemma lwInv_write_field (l : lineWrapper) (f : gostring) :
  isWide SP = false -> f <> [] -> noSpace f = true ->
  lwInv l -> lwInv (write_field l f).
Proof.
  intros Hsp Hne Hns [done [cur [Ho [Hd [Hc [Hf [Hn Hp]]]]]]].
  assert (pend01 l) as Hp01.
  { unfold pend01. rewrite Hp. destruct (lw_n l =? 0); tauto. }
  pose proof (StringWidth_pos f Hne) as Hw.
  pose proof (StringWidth_nonneg cur) as Hcn.
  rewrite (write_field_spec l f Hp01).
  destruct ((0 <? lw_n l) && (lw_width l <? lw_n l + lw_pendSpace l + StringWidth f))
    eqn:Ewrap.
  - exists (done ++ [cur]), f. cbn [lw_out lw_width lw_n lw_pendSpace].
    repeat split.
    + rewrite Ho, app_assoc, joinLines_snoc. unfold joinLines.
      now rewrite app_nil_r.
    + apply Forall_app. split; [exact Hd|]. constructor; [tauto | constructor].
    + now apply noSpace_no_LF.
    + now right.
    + destruct (StringWidth f =? 0) eqn:E; [apply Z.eqb_eq in E; lia|].
      reflexivity.
  - exists done, (cur ++ (if pending l then [SP] else []) ++ f).
    cbn [lw_out lw_width lw_n lw_pendSpace].
    assert (StringWidth (cur ++ (if pending l then [SP] else []) ++ f)
            = lw_n l + lw_pendSpace l + StringWidth f) as Hwidth.
    { rewrite !StringWidth_app, Hn. unfold pending. rewrite Hp.
      destruct (lw_n l =? 0); cbn [negb Z.eqb StringWidth]; [lia|].
      unfold RuneWidth. rewrite Hsp. lia. }
    repeat split.
    + rewrite Ho. unfold joinLines. now rewrite <- !app_assoc.
    + exact Hd.
    + intros Hin. apply in_app_or in Hin as [Hin | Hin]; [tauto|].
      apply in_app_or in Hin as [Hin | Hin].
      * destruct (pending l); [|destruct Hin].
        destruct Hin as [Hin | []]. discriminate.
      * now apply noSpace_no_LF in Hin.
    + destruct (lw_n l =? 0) eqn:E0.
      * apply Z.eqb_eq in E0. rewrite E0 in Hn.
        apply StringWidth_zero in Hn. subst cur.
        unfold pending. rewrite Hp. cbn. now right.
      * left. rewrite Hwidth. apply Z.eqb_neq in E0.
        apply andb_false_iff in Ewrap as [E | E].
        -- apply Z.ltb_ge in E. lia.
        -- apply Z.ltb_ge in E. exact E.
    + exact Hwidth.
    + destruct (lw_n l + lw_pendSpace l + StringWidth f =? 0) eqn:E;
        [|reflexivity].
      apply Z.eqb_eq in E. destruct Hp01; lia.
Qed.

Lemma lwInv_reset (l : lineWrapper) (nl : Z) (pr : bool) :
  lwInv l ->
  lwInv (mkLineWrapper (lw_out l) (lw_width l) (lw_n l) nl
                       (lw_pendSpace l) pr).
Proof. intros [done [cur H]]. exists done, cur. exact H. Qed.

Lemma lwInv_fold_write_field (fs : list gostring) :
  isWide SP = false ->
  Forall (fun f => f <> [] /\ noSpace f = true) fs ->
  forall l, lwInv l -> lwInv (fold_left write_field fs l).
Proof.
  intros Hsp Hfs. induction Hfs as [|f fs [Hne Hns] Hfs IH]; intros l Hl.
  - exact Hl.
  - cbn [fold_left]. apply IH. now apply lwInv_write_field.
Qed.

Lemma lwInv_write (l : lineWrapper) (text : gostring) :
  isWide SP = false -> lwInv l -> lwInv (write l text).
Proof.
  intros Hsp Hl. unfold write.
  apply lwInv_fold_write_field; [exact Hsp | apply Fields_words|].
  apply (lwInv_reset _ 0 true).
  destruct ((lw_n l =? 0) && lw_printed l); [|exact Hl].
  now apply lwInv_flushN.
Qed.

Lemma lwInv_run (calls : list lwCall) :
  isWide SP = false ->
  forall l, lwInv l -> lwInv (lw_run l calls).
Proof.
  intros Hsp. unfold lw_run.
  induction calls as [|c calls IH]; intros l Hl; [exact Hl|].
  cbn [fold_left]. apply IH. destruct c; cbn [lw_call].
  - now apply lwInv_write.
  - now apply lwInv_flushN.
  - now apply lwInv_flushN.
Qed.

Lemma lwInv_fresh (W : Z) : lwInv (mkLineWrapper [] W 0 0 0 false).
Proof.
  exists [], []. unfold joinLines. cbn [lw_out lw_width lw_n lw_pendSpace].
  split; [reflexivity|]. split; [constructor|]. split; [intros []|].
  split; [apply lineFits_nil|]. split; reflexivity.
Qed.

Lemma lwInv_lines (l : lineWrapper) (line : gostring) :
  lwInv l -> In line (Split_nl (lw_out l)) -> lineFits (lw_width l) line.
Proof.
  intros [done [cur [Ho [Hd [Hc [Hf _]]]]]] Hin.
  rewrite Ho, Split_nl_joinLines in Hin.
  - apply in_app_or in Hin as [Hin | [<- | []]]; [|exact Hf].
    rewrite Forall_forall in Hd. now apply Hd.
  - eapply Forall_impl; [|exact Hd]. cbn. tauto.
  - exact Hc.
Qed.

Lemma lw_run_width (calls : list lwCall) :
  forall l, lw_width (lw_run l calls) = lw_width l.
Proof.
  unfold lw_run. induction calls as [|c calls IH]; intros l; [reflexivity|].
  cbn [fold_left]. rewrite IH. destruct c; cbn [lw_call].
  - unfold write.
    match goal with |- context [fold_left write_field ?fs ?x] =>
      assert (forall fs' y, lw_width (fold_left write_field fs' y) = lw_width y)
        as Hfold end.
    { induction fs' as [|f fs' IHf]; intros y; [reflexivity|].
      cbn [fold_left]. rewrite IHf. unfold write_field.
      destruct ((0 <? lw_n y) && _); reflexivity. }
    rewrite Hfold. cbn [lw_width].
    destruct ((lw_n l =? 0) && lw_printed l); [|reflexivity].
    apply flushN_fields.
  - apply flushN_fields.
  - apply flushN_fields.
Qed.

(** C9: after any sequence of calls of [write], [flush] and [flushN] on a
    fresh wrapper of width [W] (78 in every render), each line of the
    output is at most [W] columns wide or consists of a single word; and
    [write] puts a word on a new line whenever the line is not empty and
    the word would push it past the width.  The space is not a wide
    rune. *)
Theorem wrapper_lines_fit (calls : list lwCall) (W : Z) (line : gostring) :
  isWide SP = false ->
  In line (Split_nl (lw_out (lw_run (mkLineWrapper [] W 0 0 0 false) calls))) ->
  (StringWidth line <= W \/ noSpace line = true)
  /\ (forall l f, pend01 l -> 0 < lw_n l ->
        lw_width l < lw_n l + lw_pendSpace l + StringWidth f ->
        lw_out (write_field l f) = lw_out l ++ [LF] ++ f).
Proof.
  intros Hsp Hin. split.
  - pose proof (lwInv_run calls Hsp _ (lwInv_fresh W)) as Hinv.
    apply (lwInv_lines _ _ Hinv) in Hin.
    rewrite lw_run_width in Hin. exact Hin.
  - intros l f Hp Hn Hw. rewrite (write_field_spec l f Hp).
    apply Z.ltb_lt in Hn, Hw. rewrite Hn, Hw. reflexivity.
Qed.

(** ** The traversal *)

Lemma traverse_gen_eq (b : bool) (node : Node) (ctx : textifyTraverseContext) :
  traverse_gen b node ctx
  = match Type_ node with
    | TextNode =>
        Returns (emit ctx (if isPre ctx then Data node
                           else TrimSpace (Data node)))
    | ElementNode =>
        handleElement_with b (traverse_gen b) (DataAtom node) (Attr node)
                           (Children node) ctx
    | _ => traverseChildren_with (traverse_gen b) (Children node) ctx
    end.
Proof. destruct node as [[] atom data attr kids]; reflexivity. Qed.

Lemma emit_eq (ctx : textifyTraverseContext) (data : gostring) :
  emit ctx data
  = (set_wrapper ctx (emit_wrapper (tableLevel ctx) (wrapper ctx) data), None).
Proof.
  destruct ctx as [p t o e j bq tl w ip].
  unfold emit, emit_wrapper, set_wrapper. cbn.
  destruct (0 <? tl); [reflexivity|].
  destruct (gostring_eqb data []); [reflexivity|].
  destruct (gostring_eqb data [LF]); [reflexivity|].
  destruct (gostring_eqb data [LF; LF]); reflexivity.
Qed.

(** ** Contexts in constructor form *)

Section ConstructorForm.

Variables (p : gostring) (t : tableTraverseContext) (o : Options)
  (e j : bool) (bq tl : Z) (w : lineWrapper) (ip : bool).

Lemma set_prefix_mk v :
  set_prefix (mkCtx p t o e j bq tl w ip) v = mkCtx v t o e j bq tl w ip.
Proof. reflexivity. Qed.
Lemma set_tableCtx_mk v :
  set_tableCtx (mkCtx p t o e j bq tl w ip) v = mkCtx p v o e j bq tl w ip.
Proof. reflexivity. Qed.
Lemma set_endsWithSpace_mk v :
  set_endsWithSpace (mkCtx p t o e j bq tl w ip) v
  = mkCtx p t o v j bq tl w ip.
Proof. reflexivity. Qed.
Lemma set_justClosedDiv_mk v :
  set_justClosedDiv (mkCtx p t o e j bq tl w ip) v
  = mkCtx p t o e v bq tl w ip.
Proof. reflexivity. Qed.
Lemma set_blockquoteLevel_mk v :
  set_blockquoteLevel (mkCtx p t o e j bq tl w ip) v
  = mkCtx p t o e j v tl w ip.
Proof. reflexivity. Qed.
Lemma set_tableLevel_mk v :
  set_tableLevel (mkCtx p t o e j bq tl w ip) v = mkCtx p t o e j bq v w ip.
Proof. reflexivity. Qed.
Lemma set_wrapper_mk v :
  set_wrapper (mkCtx p t o e j bq tl w ip) v = mkCtx p t o e j bq tl v ip.
Proof. reflexivity. Qed.
Lemma set_isPre_mk v :
  set_isPre (mkCtx p t o e j bq tl w ip) v = mkCtx p t o e j bq tl w v.
Proof. reflexivity. Qed.
Lemma erase_prefix_mk :
  erase_prefix (mkCtx p t o e j bq tl w ip) = mkCtx [] t o e j bq tl w ip.
Proof. reflexivity. Qed.
Lemma sub_mk :
  sub (mkCtx p t o e j bq tl w ip)
  = mkCtx [] zeroTableCtx o false false 0 0
          (mkLineWrapper [] (lw_width w) 0 0 0 false) false.
Proof. reflexivity. Qed.
Lemma buf_mk : buf (mkCtx p t o e j bq tl w ip) = lw_out w.
Proof. reflexivity. Qed.
Lemma emit_mk data :
  emit (mkCtx p t o e j bq tl w ip) data
  = (mkCtx p t o e j bq tl (emit_wrapper tl w data) ip, None).
Proof. now rewrite emit_eq. Qed.
Lemma assign_prefix_mk b v :
  assign_prefix b (mkCtx p t o e j bq tl w ip) v
  = mkCtx (if b then v else p) t o e j bq tl w ip.
Proof. destruct b; reflexivity. Qed.

End ConstructorForm.

Create Rewrite HintDb ctx_mk.

#[local] Hint Rewrite set_prefix_mk set_tableCtx_mk set_endsWithSpace_mk
  set_justClosedDiv_mk set_blockquoteLevel_mk set_tableLevel_mk
  set_wrapper_mk set_isPre_mk erase_prefix_mk sub_mk buf_mk emit_mk
  assign_prefix_mk : ctx_mk.

Ltac ctx_proj :=
  cbn [erase_result outcome_map fst snd check defer
       prefix tableCtx options endsWithSpace justClosedDiv blockquoteLevel
       tableLevel wrapper isPre].

Ltac ctx_norm :=
  repeat (progress (autorewrite with ctx_mk; ctx_proj)).

(** ** The prefix is never read *)

Lemma traverseChildren_erase (b : bool) (kids : list Node) :
  Forall (erasable b) kids ->
  forall ctx,
    erase_result (traverseChildren_with (traverse_gen b) kids ctx)
    = traverseChildren_with (traverse_gen false) kids (erase_prefix ctx).
Proof.
  induction 1 as [|c rest Hc Hrest IH]; intros ctx.
  - reflexivity.
  - cbn [traverseChildren_with]. rewrite <- Hc.
    destruct (traverse_gen b c ctx) as [[ctx' [e|]]|msg]; cbn; try reflexivity.
    apply IH.
Qed.

Lemma FromHTMLNode_erase (b : bool) (c : Node) (o : list Options) :
  erasable b c ->
  FromHTMLNode_with (traverse_gen b) c o
  = FromHTMLNode_with (traverse_gen false) c o.
Proof.
  intros Hc. unfold FromHTMLNode_with.
  set (ctx0 := newCtx _).
  change (traverse_gen false c ctx0)
    with (traverse_gen false c (erase_prefix ctx0)).
  rewrite <- (Hc ctx0).
  destruct (traverse_gen b c ctx0) as [[ctx' [e|]]|msg]; reflexivity.
Qed.

Lemma renderEachChild_loop_erase (b : bool) (o : Options) (kids : list Node) :
  Forall (erasable b) kids ->
  forall buffer,
    renderEachChild_loop (traverse_gen b) o kids buffer
    = renderEachChild_loop (traverse_gen false) o kids buffer.
Proof.
  induction 1 as [|c rest Hc Hrest IH]; intros buffer; [reflexivity|].
  cbn [renderEachChild_loop].
  rewrite (FromHTMLNode_erase b c [o] Hc).
  destruct (FromHTMLNode_with (traverse_gen false) c [o]) as [[s0 [e|]]|msg];
    try reflexivity.
  apply IH.
Qed.

Ltac erase_children :=
  match goal with
  | IH : Forall (erasable ?b) ?ks
    |- context [traverseChildren_with (traverse_gen ?b) ?ks ?c] =>
      let H := fresh "H" in
      pose proof (traverseChildren_erase b ks IH c) as H;
      rewrite erase_prefix_mk in H;
      rewrite <- H; clear H;
      destruct (traverseChildren_with (traverse_gen b) ks c)
        as [[[? ? ? ? ? ? ? ? ?] [?|]]|?]
  end.

Ltac erase_step :=
  first
    [ progress ctx_norm
    | erase_children
    | match goal with
      | IH : Forall (erasable ?b) ?ks |- _ =>
          rewrite (renderEachChild_loop_erase b _ ks IH)
      end
    | match goal with
      | |- context [if ?x then _ else _] => destruct x eqn:?
      | |- context [match renderEachChild_loop ?f ?o ?k ?z with _ => _ end] =>
          destruct (renderEachChild_loop f o k z) as [[? [?|]]|?]
      | |- context [match body_append ?r ?i ?x with _ => _ end] =>
          destruct (body_append r i x)
      | |- context [match tablewriter_Render ?a ?h ?f ?r with _ => _ end] =>
          destruct (tablewriter_Render a h f r)
      end
    | reflexivity ].

Lemma handleElement_erase (b : bool) (kids : list Node) :
  Forall (erasable b) kids ->
  forall atom attr ctx,
    erase_result
      (handleElement_with b (traverse_gen b) atom attr kids ctx)
    = handleElement_with false (traverse_gen false) atom attr kids
        (erase_prefix ctx).
Proof.
  intros IH atom attr [p t o e j bq tl w ip].
  unfold handleElement_with, tableCase_with, handleTableElement_with,
    paragraphHandler_with, renderEachChild_with.
  destruct atom; try solve [repeat erase_step].
  all: destruct kids as [|img [|img' rest]]; repeat erase_step.
Qed.

Lemma traverse_erase (b : bool) (node : Node) : erasable b node.
Proof.
  induction node as [type atom data attr kids IH] using Node_induction.
  intros ctx. rewrite !traverse_gen_eq.
  cbn [Type_ DataAtom Data Attr Children].
  destruct type;
    try (apply traverseChildren_erase; exact IH).
  - rewrite !emit_eq. destruct ctx; reflexivity.
  - apply handleElement_erase. exact IH.
Qed.

(** C8: the prefix kept by the blockquote case is written and never read.
    The program with the assignments to [ctx.prefix] removed returns the
    same string, error or panic as the program as written, for every
    document and all options; and the traversals of the two programs
    leave the same context, hence the same buffer, up to the value of
    [prefix]. *)
Theorem prefix_is_dead (doc : Node) (o : list Options) :
  FromHTMLNode doc o = FromHTMLNode_noprefix doc o
  /\ (forall ctx,
        erase_result (traverse doc ctx)
        = traverse_noprefix doc (erase_prefix ctx)).
Proof.
  split.
  - apply FromHTMLNode_erase, traverse_erase.
  - apply traverse_erase.
Qed.

(** ** Emitting *)

Lemma flushN_out (l : lineWrapper) (n : Z) :
  exists k, lw_out (flushN l n) = lw_out l ++ repeat LF k
            /\ (0 <= lw_nl l -> Z.of_nat k <= Z.max 0 n).
Proof.
  unfold flushN.
  destruct ((lw_n l =? 0) && (n <=? lw_nl l));
    [exists 0%nat; cbn [repeat]; rewrite app_nil_r; split; [reflexivity | lia]|].
  destruct (n - lw_nl l <? 1) eqn:E1;
    [exists 0%nat; cbn [repeat]; rewrite app_nil_r; split; [reflexivity | lia]|].
  apply Z.ltb_ge in E1.
  exists (Z.to_nat (n - lw_nl l)).
  split; [|lia].
  destruct (n - lw_nl l =? 1) eqn:E2; cbn [lw_out lw_Write].
  - apply Z.eqb_eq in E2. rewrite E2. reflexivity.
  - now rewrite Repeat_nlBytes.
Qed.

Lemma flush_out (l : lineWrapper) :
  exists k, lw_out (flush l) = lw_out l ++ repeat LF k.
Proof. destruct (flushN_out l 1) as [k [H _]]. now exists k. Qed.

Lemma emit_in_table (ctx : textifyTraverseContext) (data : gostring) :
  0 < tableLevel ctx ->
  exists k, buf (fst (emit ctx data)) = buf ctx ++ repeat LF k ++ data.
Proof.
  intros Hlevel. unfold emit. apply Z.ltb_lt in Hlevel. rewrite Hlevel.
  destruct (flush_out (wrapper ctx)) as [k Hk]. exists k.
  unfold buf. cbn. rewrite Hk. now rewrite <- app_assoc.
Qed.

Lemma gostring_eqb_eq (a b : gostring) : gostring_eqb a b = true <-> a = b.
Proof.
  unfold gostring_eqb. destruct (list_eq_dec N.eq_dec a b); split;
    congruence.
Qed.

Lemma gostring_eqb_neq (a b : gostring) : a <> b -> gostring_eqb a b = false.
Proof.
  intros H. destruct (gostring_eqb a b) eqn:E; [|reflexivity].
  apply gostring_eqb_eq in E. contradiction.
Qed.

Lemma gostring_eqb_refl (a : gostring) : gostring_eqb a a = true.
Proof. now apply gostring_eqb_eq. Qed.

Lemma emit_outside_table (ctx : textifyTraverseContext) (data : gostring) :
  tableLevel ctx <= 0 -> data <> [] -> data <> [LF] -> data <> [LF; LF] ->
  wrapper (fst (emit ctx data)) = write (wrapper ctx) data.
Proof.
  intros Hlevel H0 H1 H2. unfold emit.
  apply Z.ltb_ge in Hlevel. rewrite Hlevel.
  rewrite !gostring_eqb_neq by assumption. reflexivity.
Qed.

Lemma emit_no_error (ctx : textifyTraverseContext) (data : gostring) :
  snd (emit ctx data) = None.
Proof. now rewrite emit_eq. Qed.

(** ** Headings *)

Lemma fold_max_left (f : gostring -> Z) (ls : list gostring) :
  forall d, 0 <= d ->
    fold_left (fun acc line => if acc <? f line then f line else acc) ls d
    = Z.max d (fold_right Z.max 0 (map f ls)).
Proof.
  induction ls as [|x ls IH]; intros d Hd; cbn [fold_left map fold_right].
  - lia.
  - destruct (d <? f x) eqn:E;
      [apply Z.ltb_lt in E | apply Z.ltb_ge in E]; cbv iota;
      rewrite IH; lia.
Qed.

Lemma maxLineWidth_nonneg (str : gostring) : 0 <= maxLineWidth str.
Proof.
  unfold maxLineWidth.
  induction (map _ (Split_nl str)) as [|z zs IH]; cbn [fold_right]; lia.
Qed.

Lemma headingDividerLen_max (str : gostring) :
  headingDividerLen str = maxLineWidth str.
Proof.
  unfold headingDividerLen. cbv zeta.
  rewrite (fold_max_left
             (fun line => StringWidth (TrimRightFunc line IsSpace))
             (Split_nl str) 0) by lia.
  fold (maxLineWidth str). pose proof (maxLineWidth_nonneg str). lia.
Qed.

Lemma fold_max_bound (zs : list Z) :
  (forall z, In z zs -> z <= fold_right Z.max 0 zs)
  /\ (fold_right Z.max 0 zs = 0 \/ In (fold_right Z.max 0 zs) zs).
Proof.
  induction zs as [|x zs [IH1 IH2]]; cbn [fold_right].
  - split; [intros z [] | now left].
  - split.
    + intros z [<- | Hz]; [lia|]. specialize (IH1 z Hz). lia.
    + destruct (Z.max_spec x (fold_right Z.max 0 zs)) as [[H ->] | [H ->]].
      * destruct IH2 as [H0 | Hin]; [left; exact H0 | right; now right].
      * right. now left.
Qed.

Lemma maxLineWidth_bounds (str : gostring) :
  (forall line, In line (Split_nl str) ->
     StringWidth (TrimRightFunc line IsSpace) <= maxLineWidth str)
  /\ (maxLineWidth str = 0 \/
      exists line, In line (Split_nl str) /\
        StringWidth (TrimRightFunc line IsSpace) = maxLineWidth str).
Proof.
  unfold maxLineWidth.
  set (f := fun line => StringWidth (TrimRightFunc line IsSpace)).
  destruct (fold_max_bound (map f (Split_nl str))) as [H1 H2]. split.
  - intros line Hin. apply H1. now apply (in_map f).
  - destruct H2 as [H0 | Hin]; [now left | right].
    apply in_map_iff in Hin as [line [Hf Hin]]. now exists line.
Qed.

Lemma Repeat_single (r : rune) (k : Z) :
  Repeat [r] k = repeat r (Z.to_nat k).
Proof.
  unfold Repeat. induction (Z.to_nat k) as [|j IH]; [reflexivity|].
  cbn [repeat concat app]. now rewrite IH.
Qed.

Lemma Fields_from_word (s : gostring) :
  forall cur, noSpace s = true -> cur ++ s <> [] ->
    Fields_from cur s = [cur ++ s].
Proof.
  induction s as [|r s IH]; intros cur Hns Hne; cbn [Fields_from].
  - rewrite app_nil_r in *. destruct cur; [congruence | reflexivity].
  - cbn in Hns. apply andb_true_iff in Hns as [Hr Hs].
    apply negb_true_iff in Hr. rewrite Hr.
    rewrite (IH (cur ++ [r]) Hs); rewrite <- app_assoc; [reflexivity|].
    exact Hne.
Qed.

Lemma emit_word (ctx : textifyTraverseContext) (d : gostring) :
  noSpace d = true ->
  exists pre, buf (fst (emit ctx d)) = buf ctx ++ pre ++ d.
Proof.
  intros Hns. destruct (0 <? tableLevel ctx) eqn:Elevel.
  - apply Z.ltb_lt in Elevel.
    destruct (emit_in_table ctx d Elevel) as [k Hk]. now exists (repeat LF k).
  - destruct d as [|r d'] eqn:Ed.
    + exists []. unfold emit. rewrite Elevel. cbn. now rewrite app_nil_r.
    + rewrite <- Ed in *.
      assert (d <> [] /\ d <> [LF] /\ d <> [LF; LF]) as [H0 [H1 H2]].
      { subst d. cbn in Hns. apply andb_true_iff in Hns as [Hr _].
        repeat split; try discriminate;
          intros H; injection H as -> _; discriminate. }
      apply Z.ltb_ge in Elevel. unfold buf.
      rewrite (emit_outside_table ctx d Elevel H0 H1 H2).
      unfold write, Fields.
      rewrite (Fields_from_word d [] Hns H0). cbn [fold_left app].
      set (l0 := if (lw_n (wrapper ctx) =? 0) && lw_printed (wrapper ctx)
                 then flush (wrapper ctx) else wrapper ctx).
      assert (exists k, lw_out l0 = lw_out (wrapper ctx) ++ repeat LF k)
        as [k Hk].
      { unfold l0. destruct (_ && _); [apply flush_out|].
        exists 0%nat. cbn. now rewrite app_nil_r. }
      unfold write_field. cbn [lw_n lw_width lw_pendSpace lw_out].
      destruct ((0 <? lw_n l0) && _); cbn [lw_out lw_Write lw_pendSpace].
      * exists (repeat LF k ++ nlBytes). rewrite Hk.
        now rewrite <- !app_assoc.
      * exists (repeat LF k
                ++ firstn (Z.to_nat (lw_pendSpace l0)) spaceBytes).
        rewrite Hk. now rewrite <- !app_assoc.
Qed.

Lemma noSpace_repeat (r : rune) (k : nat) :
  IsSpace r = false -> noSpace (repeat r k) = true.
Proof.
  intros Hr. induction k as [|k IH]; [reflexivity|].
  unfold noSpace in *. cbn [repeat forallb]. now rewrite Hr, IH.
Qed.

(** C4: for [h1], [h2] and [h3] without [TextOnly], the divider is as long
    as the largest display width of a line of the heading rendered in the
    sub-context, trailing white space trimmed (no line is wider and, unless
    the width is 0, one line is that wide).  The element emits a blank
    line, for [h1] a divider of stars and a newline, the heading text, a
    newline, the divider (stars for [h1], dashes for [h2] and [h3]) and a
    blank line; [h2] and [h3] emit no divider before the text.  Each
    emitted divider reaches the buffer whole. *)
Theorem heading_divider (atom : Atom) (attr : list Attribute)
  (kids : list Node) (ctx subCtx : textifyTraverseContext) :
  atom = H1 \/ atom = H2 \/ atom = H3 ->
  TextOnly (options ctx) = false ->
  traverseChildren_with traverse kids (sub ctx) = Returns (subCtx, None) ->
  let str := buf subCtx in
  let mark := if Atom_eqb atom H1 then 42%N else 45%N in
  let divider := repeat mark (Z.to_nat (maxLineWidth str)) in
  Z.of_nat (length divider) = maxLineWidth str
  /\ (forall line, In line (Split_nl str) ->
        StringWidth (TrimRightFunc line IsSpace) <= maxLineWidth str)
  /\ (maxLineWidth str = 0 \/
      exists line, In line (Split_nl str) /\
        StringWidth (TrimRightFunc line IsSpace) = maxLineWidth str)
  /\ handleElement (mkNode ElementNode atom [] attr kids) ctx
     = Returns
         (emits (set_justClosedDiv ctx false)
            (if Atom_eqb atom H1
             then [[LF; LF]; divider; [LF]; str; [LF]; divider; [LF; LF]]
             else [[LF; LF]; str; [LF]; divider; [LF; LF]]),
          None)
  /\ (forall c, exists pre,
        buf (fst (emit c divider)) = buf c ++ pre ++ divider).
Proof.
  intros Hatom Htext Hsub str mark divider.
  pose proof (maxLineWidth_nonneg str) as Hnn.
  split; [unfold divider; rewrite repeat_length; lia|].
  split; [apply maxLineWidth_bounds|].
  split; [apply maxLineWidth_bounds|].
  split.
  - unfold handleElement, handleElement_with.
    cbn [DataAtom Attr Children].
    change (sub (set_justClosedDiv ctx false)) with (sub ctx).
    change (options (set_justClosedDiv ctx false)) with (options ctx).
    destruct Hatom as [-> | [-> | ->]]; rewrite Hsub, Htext;
      fold str; rewrite headingDividerLen_max; cbn [Atom_eqb];
      unfold lit; cbn [list_ascii_of_string map N_of_ascii];
      rewrite Repeat_single; reflexivity.
  - intros c. apply emit_word. apply noSpace_repeat.
    unfold mark. destruct (Atom_eqb atom H1); reflexivity.
Qed.

(** ** Cells *)

Lemma renderEachChild_loop_cons (o : Options) (c : Node) (rest : list Node)
  (buffer : gostring) :
  renderEachChild_loop traverse o (c :: rest) buffer
  = match FromHTMLNode c [o] with
    | Panics msg => Panics msg
    | Returns (_, Some e) => Returns ([], Some e)
    | Returns (s, None) =>
        renderEachChild_loop traverse o rest
          (match rest with
           | [] => buffer ++ s
           | _ :: _ => (buffer ++ s) ++ [LF]
           end)
    end.
Proof. reflexivity. Qed.



(** ** Tables *)

Ltac tbl_simpl :=
  unfold set_tableCtx, set_justClosedDiv, set_body, set_header, set_footer,
    set_tmpRow, set_isInFooter, tableCtx_init in *;
  cbn [header body footer tmpRow isInFooter
       prefix tableCtx options endsWithSpace justClosedDiv blockquoteLevel
       tableLevel wrapper isPre] in *.

Lemma traverse_text (data : gostring) (ctx : textifyTraverseContext) :
  traverse (textNode data) ctx
  = Returns (emit ctx (if isPre ctx then data else TrimSpace data)).
Proof. reflexivity. Qed.

Lemma emit_frame (ctx : textifyTraverseContext) (d : gostring) :
  options (fst (emit ctx d)) = options ctx
  /\ tableCtx (fst (emit ctx d)) = tableCtx ctx
  /\ snd (emit ctx d) = None.
Proof. rewrite emit_eq. repeat split. Qed.

Lemma append_at_last (rows : list (list gostring)) (r : list gostring)
  (res : gostring) :
  append_at (rows ++ [r]) (length rows) res = Some (rows ++ [r ++ [res]]).
Proof.
  induction rows as [|x rows IH]; cbn [app length append_at];
    [reflexivity | now rewrite IH].
Qed.

Lemma body_append_last (rows : list (list gostring)) (r : list gostring)
  (res : gostring) :
  body_append (rows ++ [r]) (Z.of_nat (length rows)) res
  = Some (rows ++ [r ++ [res]]).
Proof.
  unfold body_append.
  destruct (Z.of_nat (length rows) <? 0) eqn:E;
    [apply Z.ltb_lt in E; lia|].
  rewrite Nat2Z.id. apply append_at_last.
Qed.

Lemma traverse_th (attr : list Attribute) (kids : list Node)
  (ctx : textifyTraverseContext) :
  PrettyTables (options ctx) = true -> cellRenders (options ctx) kids ->
  traverse (rowItemNode (Cell HeaderCell attr kids)) ctx
  = Returns
      (set_tableCtx (set_justClosedDiv ctx false)
         (set_header (tableCtx ctx)
            (header (tableCtx ctx) ++ [cellText (options ctx) kids])),
       None).
Proof.
  intros Hp [s Hs]. unfold traverse. rewrite traverse_gen_eq.
  cbn [rowItemNode Type_ DataAtom Attr Children].
  unfold handleElement_with, tableCase_with, handleTableElement_with,
    renderEachChild_with, cellText.
  cbn [options set_justClosedDiv tableCtx]. rewrite Hp. cbn [negb].
  fold traverse. rewrite Hs. reflexivity.
Qed.

Lemma traverse_td (attr : list Attribute) (kids : list Node)
  (ctx : textifyTraverseContext) :
  PrettyTables (options ctx) = true -> cellRenders (options ctx) kids ->
  traverse (rowItemNode (Cell DataCell attr kids)) ctx
  = if isInFooter (tableCtx ctx) then
      Returns
        (set_tableCtx (set_justClosedDiv ctx false)
           (set_footer (tableCtx ctx)
              (footer (tableCtx ctx) ++ [cellText (options ctx) kids])),
         None)
    else
      match body_append (body (tableCtx ctx)) (tmpRow (tableCtx ctx))
              (cellText (options ctx) kids) with
      | None => Panics "index out of range"
      | Some rows =>
          Returns
            (set_tableCtx (set_justClosedDiv ctx false)
               (set_body (tableCtx ctx) rows), None)
      end.
Proof.
  intros Hp [s Hs]. unfold traverse. rewrite traverse_gen_eq.
  cbn [rowItemNode Type_ DataAtom Attr Children].
  unfold handleElement_with, tableCase_with, handleTableElement_with,
    renderEachChild_with, cellText.
  cbn [options set_justClosedDiv tableCtx]. rewrite Hp. cbn [negb].
  fold traverse. rewrite Hs. reflexivity.
Qed.

Lemma traverse_row_items (o : Options) (items : list RowItem) :
  PrettyTables o = true -> rowRenders o items ->
  forall ctx rows r,
    options ctx = o ->
    body (tableCtx ctx) = rows ++ [r] ->
    tmpRow (tableCtx ctx) = Z.of_nat (length rows) ->
    exists ctx',
      traverseChildren_with traverse (map rowItemNode items) ctx
      = Returns (ctx', None)
      /\ options ctx' = o
      /\ tableCtx ctx'
         = mkTableCtx
             (header (tableCtx ctx) ++ rowHeader o items)
             (if isInFooter (tableCtx ctx) then rows ++ [r]
              else rows ++ [r ++ rowData o items])
             (if isInFooter (tableCtx ctx)
              then footer (tableCtx ctx) ++ rowData o items
              else footer (tableCtx ctx))
             (tmpRow (tableCtx ctx)) (isInFooter (tableCtx ctx)).
Proof.
  intros Hp Hr. induction Hr as [|i items Hi Hr IH]; intros ctx rows r Ho Hb Ht.
  - exists ctx. cbn [map traverseChildren_with rowHeader rowData flat_map].
    rewrite !app_nil_r. repeat split; [exact Ho|].
    destruct ctx as [p [hd bd ft tr inf] op ew jc bq tl w ip].
    cbn in *. subst bd. now destruct inf.
  - cbn [map traverseChildren_with]. destruct i as [[|] attr kids | data].
    + rewrite traverse_th by (rewrite Ho; assumption). cbn [check].
      match goal with |- context [traverseChildren_with _ _ ?c] =>
        destruct (IH c rows r) as [ctx' [Ht' [Ho' Hc']]] end;
        [exact Ho | exact Hb | exact Ht|].
      exists ctx'. rewrite Ht', Ho', Hc'. repeat split.
      destruct ctx as [p [hd bd ft tr inf] op ew jc bq tl w ip].
      cbn in *. subst op.
      unfold rowHeader, rowData. cbn [flat_map app].
      now rewrite <- !app_assoc.
    + rewrite traverse_td by (rewrite Ho; assumption).
      destruct (isInFooter (tableCtx ctx)) eqn:Ef.
      * cbn [check].
        match goal with |- context [traverseChildren_with _ _ ?c] =>
          destruct (IH c rows r) as [ctx' [Ht' [Ho' Hc']]] end;
          [exact Ho | exact Hb | exact Ht|].
        exists ctx'. rewrite Ht', Ho', Hc'. repeat split.
        destruct ctx as [p [hd bd ft tr inf] op ew jc bq tl w ip].
        cbn in *. subst op inf.
        unfold rowHeader, rowData. cbn [flat_map app].
        now rewrite <- !app_assoc.
      * rewrite Hb, Ht, body_append_last. cbn [check].
        match goal with |- context [traverseChildren_with _ _ ?c] =>
          destruct (IH c rows (r ++ [cellText (options ctx) kids]))
            as [ctx' [Ht' [Ho' Hc']]] end;
          [exact Ho | reflexivity | exact Ht|].
        exists ctx'. rewrite Ht', Ho', Hc'. repeat split.
        destruct ctx as [p [hd bd ft tr inf] op ew jc bq tl w ip].
        cbn in *. subst op inf.
        unfold rowHeader, rowData. cbn [flat_map app].
        rewrite <- (app_assoc r), Ht. reflexivity.
    + cbn [rowItemNode]. rewrite traverse_text.
      set (d := if isPre ctx then data else TrimSpace data).
      destruct (emit_frame ctx d) as [Ho1 [Ht1 He1]].
      destruct (emit ctx d) as [c1 e1] eqn:Ee. cbn [fst snd] in *.
      subst e1. cbn [check].
      destruct (IH c1 rows r) as [ctx' [Ht' [Ho' Hc']]];
        [congruence | congruence | congruence|].
      exists ctx'. rewrite Ht', Ho', Hc', Ht1. repeat split.
Qed.

Lemma traverse_tr (attr : list Attribute) (items : list RowItem)
  (ctx : textifyTraverseContext) :
  PrettyTables (options ctx) = true ->
  traverse (sectionItemNode (Row attr items)) ctx
  = check
      (traverseChildren_with traverse (map rowItemNode items)
         (set_tableCtx (set_justClosedDiv ctx false)
            (set_body (tableCtx ctx) (body (tableCtx ctx) ++ [[]]))))
      (fun ctx1 =>
         Returns
           (set_tableCtx ctx1
              (set_tmpRow (tableCtx ctx1) (tmpRow (tableCtx ctx1) + 1)),
            None)).
Proof.
  intros Hp. unfold traverse. rewrite traverse_gen_eq.
  cbn [sectionItemNode Type_ DataAtom Attr Children].
  unfold handleElement_with, tableCase_with, handleTableElement_with.
  cbn [options set_justClosedDiv tableCtx]. rewrite Hp. reflexivity.
Qed.

Lemma traverse_section_items (o : Options) (items : list SectionItem) :
  PrettyTables o = true -> sectRenders o items ->
  forall ctx,
    options ctx = o ->
    tmpRow (tableCtx ctx) = Z.of_nat (length (body (tableCtx ctx))) ->
    exists ctx',
      traverseChildren_with traverse (map sectionItemNode items) ctx
      = Returns (ctx', None)
      /\ options ctx' = o
      /\ tableCtx ctx'
         = mkTableCtx
             (header (tableCtx ctx) ++ sectHeader o items)
             (body (tableCtx ctx)
              ++ sectBody (isInFooter (tableCtx ctx)) o items)
             (footer (tableCtx ctx)
              ++ sectFooter (isInFooter (tableCtx ctx)) o items)
             (tmpRow (tableCtx ctx)
              + Z.of_nat
                  (length (sectBody (isInFooter (tableCtx ctx)) o items)))
             (isInFooter (tableCtx ctx)).
Proof.
  intros Hp Hs. induction Hs as [|i items Hi Hs IH]; intros ctx Ho Ht.
  - exists ctx. cbn [map traverseChildren_with sectHeader sectBody
                     sectFooter flat_map length].
    rewrite !app_nil_r, Z.add_0_r. repeat split; [exact Ho|].
    now destruct ctx as [p [hd bd ft tr inf] op ew jc bq tl w ip].
  - cbn [map traverseChildren_with]. destruct i as [attr cells | data].
    + rewrite traverse_tr by (rewrite Ho; exact Hp).
      match goal with |- context [traverseChildren_with _ (map rowItemNode _) ?c] =>
        destruct (traverse_row_items o cells Hp Hi c (body (tableCtx ctx)) [])
          as [ctx1 [Ht1 [Ho1 Hc1]]] end;
        [exact Ho | reflexivity | exact Ht|].
      rewrite Ht1. cbn [check].
      destruct ctx as [p [hd bd ft tr inf] op ew jc bq tl w ip].
      tbl_simpl.
      match goal with |- context [traverseChildren_with _ _ ?c] =>
        destruct (IH c) as [ctx' [Ht' [Ho' Hc']]] end.
      { exact Ho1. }
      { tbl_simpl. rewrite Hc1. tbl_simpl. rewrite Ht.
        destruct inf; rewrite length_app; cbn [length]; lia. }
      exists ctx'. rewrite Ht', Ho', Hc'. repeat split.
      tbl_simpl. rewrite Hc1. tbl_simpl.
      unfold sectHeader, sectBody, sectFooter.
      cbn [flat_map app length].
      destruct inf; rewrite <- ?app_assoc; cbn [app];
        f_equal; try reflexivity; lia.
    + cbn [sectionItemNode]. rewrite traverse_text.
      set (d := if isPre ctx then data else TrimSpace data).
      destruct (emit_frame ctx d) as [Ho1 [Ht1 He1]].
      destruct (emit ctx d) as [c1 e1] eqn:Ee. cbn [fst snd] in *.
      subst e1. cbn [check].
      destruct (IH c1) as [ctx' [Ht' [Ho' Hc']]]; [congruence | congruence|].
      exists ctx'. rewrite Ht', Ho', Hc', Ht1. repeat split.
Qed.

Lemma traverse_sect (k : SectionKind) (attr : list Attribute)
  (items : list SectionItem) (ctx : textifyTraverseContext) :
  PrettyTables (options ctx) = true ->
  traverse (tableItemNode (Sect k attr items)) ctx
  = if inTfoot k then
      check
        (traverseChildren_with traverse (map sectionItemNode items)
           (set_tableCtx (set_justClosedDiv ctx false)
              (set_isInFooter (tableCtx ctx) true)))
        (fun ctx1 =>
           Returns
             (set_tableCtx ctx1 (set_isInFooter (tableCtx ctx1) false),
              None))
    else
      traverseChildren_with traverse (map sectionItemNode items)
        (set_justClosedDiv ctx false).
Proof.
  intros Hp. unfold traverse. rewrite traverse_gen_eq.
  cbn [tableItemNode Type_ DataAtom Attr Children].
  unfold handleElement_with, tableCase_with, handleTableElement_with.
  destruct k; cbn [sectionAtom inTfoot]; try reflexivity.
  cbn [options set_justClosedDiv tableCtx]. rewrite Hp. reflexivity.
Qed.

Lemma traverse_table_items (o : Options) (items : list TableItem) :
  PrettyTables o = true -> tableRenders o items ->
  forall ctx,
    options ctx = o ->
    tmpRow (tableCtx ctx) = Z.of_nat (length (body (tableCtx ctx))) ->
    isInFooter (tableCtx ctx) = false ->
    exists ctx',
      traverseChildren_with traverse (map tableItemNode items) ctx
      = Returns (ctx', None)
      /\ options ctx' = o
      /\ tableCtx ctx'
         = mkTableCtx
             (header (tableCtx ctx) ++ tableHeader o items)
             (body (tableCtx ctx) ++ tableBody o items)
             (footer (tableCtx ctx) ++ tableFooter o items)
             (tmpRow (tableCtx ctx)
              + Z.of_nat (length (tableBody o items)))
             false.
Proof.
  intros Hp Hs. induction Hs as [|i items Hi Hs IH]; intros ctx Ho Ht Hf.
  - exists ctx. cbn [map traverseChildren_with tableHeader tableBody
                     tableFooter flat_map length].
    rewrite !app_nil_r, Z.add_0_r. repeat split; [exact Ho|].
    destruct ctx as [p [hd bd ft tr inf] op ew jc bq tl w ip].
    cbn in Hf. now subst inf.
  - cbn [map traverseChildren_with]. destruct i as [k attr rows | data].
    + rewrite traverse_sect by (rewrite Ho; exact Hp).
      destruct ctx as [p [hd bd ft tr inf] op ew jc bq tl w ip].
      tbl_simpl. subst inf op.
      destruct (inTfoot k) eqn:Ek.
      * match goal with
          |- context [traverseChildren_with _ (map sectionItemNode _) ?c] =>
            destruct (traverse_section_items o rows Hp Hi c)
              as [ctx1 [Ht1 [Ho1 Hc1]]] end;
          [reflexivity | exact Ht|].
        rewrite Ht1. cbn [check]. tbl_simpl.
        match goal with |- context [traverseChildren_with _ _ ?c] =>
          destruct (IH c) as [ctx' [Ht' [Ho' Hc']]] end;
          [exact Ho1 | rewrite Hc1; tbl_simpl; rewrite length_app; lia
           | reflexivity|].
        exists ctx'. rewrite Ht', Ho', Hc'. repeat split.
        rewrite Hc1. tbl_simpl.
        unfold tableHeader, tableBody, tableFooter.
        cbn [flat_map]. rewrite Ek, !length_app, <- !app_assoc.
        f_equal. lia.
      * match goal with
          |- context [traverseChildren_with _ (map sectionItemNode _) ?c] =>
            destruct (traverse_section_items o rows Hp Hi c)
              as [ctx1 [Ht1 [Ho1 Hc1]]] end;
          [reflexivity | exact Ht|].
        rewrite Ht1. cbn [check]. tbl_simpl.
        destruct (IH ctx1) as [ctx' [Ht' [Ho' Hc']]];
          [exact Ho1 | rewrite Hc1; tbl_simpl; rewrite length_app; lia
           | now rewrite Hc1|].
        exists ctx'. rewrite Ht', Ho', Hc'. repeat split.
        rewrite Hc1. tbl_simpl.
        unfold tableHeader, tableBody, tableFooter.
        cbn [flat_map]. rewrite Ek, !length_app, <- !app_assoc.
        f_equal. lia.
    + cbn [tableItemNode]. rewrite traverse_text.
      set (d := if isPre ctx then data else TrimSpace data).
      destruct (emit_frame ctx d) as [Ho1 [Ht1 He1]].
      destruct (emit ctx d) as [c1 e1] eqn:Ee. cbn [fst snd] in *.
      subst e1. cbn [check].
      destruct (IH c1) as [ctx' [Ht' [Ho' Hc']]];
        [congruence | congruence | congruence|].
      exists ctx'. rewrite Ht', Ho', Hc', Ht1. repeat split.
Qed.

Lemma check_emit (ctx : textifyTraverseContext) (d : gostring)
  (k : textifyTraverseContext -> Result) :
  check (Returns (emit ctx d)) k = k (fst (emit ctx d)).
Proof. now rewrite emit_eq. Qed.

Lemma check_Returns (ctx : textifyTraverseContext)
  (k : textifyTraverseContext -> Result) :
  check (Returns (ctx, None)) k = k ctx.
Proof. reflexivity. Qed.

Lemma Returns_emit (ctx : textifyTraverseContext) (d : gostring) :
  @Returns (textifyTraverseContext * error) (emit ctx d)
  = Returns (fst (emit ctx d), None).
Proof. now rewrite emit_eq. Qed.


(** ** Links *)

(** In default mode the href of an anchor with a single text child is
    emitted in parentheses after the text, whether or not the two are
    equal. *)
Lemma anchor_href_emitted_when_not_TextOnly (attr : list Attribute)
  (linkText : gostring) (ctx : textifyTraverseContext) :
  TextOnly (options ctx) = false ->
  getAttrVal_list attr (lit "href") <> [] ->
  handleElement (mkNode ElementNode A [] attr [textNode linkText]) ctx
  = Returns
      (emits (set_justClosedDiv ctx false)
         [if isPre ctx then linkText else TrimSpace linkText;
          lit "(" ++ normalizeHrefLink (getAttrVal_list attr (lit "href"))
          ++ lit ")"],
       None).
Proof.
  intros Htext Hhref.
  unfold handleElement, handleElement_with.
  cbn [DataAtom Attr Children textNode Atom_eqb traverseChildren_with].
  fold traverse. fold (textNode linkText). rewrite traverse_text.
  rewrite !check_emit. cbn [check].
  rewrite (proj1 (emit_frame _ _)).
  cbn [options set_justClosedDiv isPre]. rewrite Htext.
  rewrite (gostring_eqb_neq _ _ Hhref). cbn [negb].
  rewrite orb_true_r, Returns_emit. reflexivity.
Qed.

(** ** The returned string *)

Lemma td_without_row_panics (data : gostring) (attr : list Attribute)
  (kids : list Node) (ctx : textifyTraverseContext) :
  PrettyTables (options ctx) = true ->
  isInFooter (tableCtx ctx) = false ->
  Z.of_nat (length (body (tableCtx ctx))) <= tmpRow (tableCtx ctx) ->
  cellRenders (options ctx) kids ->
  traverse (mkNode ElementNode Td data attr kids) ctx
  = Panics "index out of range".
Proof.
  intros Hp Hf Hlen Hr.
  change (mkNode ElementNode Td data attr kids)
    with (mkNode ElementNode Td data attr kids).
  destruct Hr as [s Hs]. unfold traverse. rewrite traverse_gen_eq.
  cbn [Type_ DataAtom Attr Children].
  unfold handleElement_with, tableCase_with, handleTableElement_with,
    renderEachChild_with.
  cbn [options set_justClosedDiv tableCtx]. rewrite Hp. cbn [negb].
  fold traverse. rewrite Hs, Hf.
  assert (forall rows i res, (length rows <= i)%nat ->
            append_at rows i res = None) as Hnone.
  { induction rows as [|x rows IH]; intros i res Hi; [reflexivity|].
    destruct i as [|i]; cbn in Hi; [lia|]. cbn [append_at].
    rewrite IH by lia. reflexivity. }
  unfold body_append.
  destruct (tmpRow (tableCtx ctx) <? 0); [reflexivity|].
  rewrite Hnone by lia. reflexivity.
Qed.

(** C6, as the code has it: the string a render returns is the
    normalisation of the buffer the traversal left; it holds no run of
    three newlines and neither starts nor ends with white space.  The one
    pass that replaces newline-space by newline leaves a newline followed
    by a space exactly where the buffer held a newline followed by two or
    more spaces: the returned string holds newline-space only if the
    buffer held newline-space-space. *)
Theorem output_is_normalized (doc : Node) (o : list Options)
  (out : gostring) :
  FromHTMLNode doc o = Returns (out, None) ->
  Contains out [LF; LF; LF] = false
  /\ (forall r t, out = r :: t -> IsSpace r = false)
  /\ (forall t r, out = t ++ [r] -> IsSpace r = false)
  /\ exists ctx,
       traverse doc (newCtx (match o with o0 :: _ => o0 | [] => zeroOptions end))
       = Returns (ctx, None)
       /\ out = TrimSpace (newlineRe_ReplaceAll (Replace_nlsp (buf ctx)))
       /\ (Contains out [LF; SP] = true ->
           Contains (buf ctx) [LF; SP; SP] = true).
Proof.
  unfold FromHTMLNode, FromHTMLNode_with. fold traverse.
  destruct (traverse doc _) as [[ctx [e|]]|msg] eqn:Et; try discriminate.
  intros H. injection H as <-.
  split; [apply normalize_no_triple|].
  split; [apply TrimSpace_head|].
  split; [apply TrimSpace_last|].
  exists ctx. split; [reflexivity|]. split; [reflexivity|].
  apply normalize_nlsp.
Qed.

(** * Further properties of the renderer *)

(** ** Flushing twice *)

Lemma flushN_early (l : lineWrapper) (m : Z) :
  (lw_n l = 0 /\ m <= lw_nl l) \/ m - lw_nl l < 1 -> flushN l m = l.
Proof.
  intros H. unfold flushN.
  destruct ((lw_n l =? 0) && (m <=? lw_nl l)) eqn:E1; [reflexivity|].
  destruct (m - lw_nl l <? 1) eqn:E2; [reflexivity|].
  apply Z.ltb_ge in E2. apply andb_false_iff in E1.
  destruct H as [[H0 Hm] | H]; [|lia].
  destruct E1 as [E | E]; [apply Z.eqb_neq in E | apply Z.leb_gt in E]; lia.
Qed.

Lemma flushN_state (l : lineWrapper) (n : Z) :
  (flushN l n = l /\ ((lw_n l = 0 /\ n <= lw_nl l) \/ n - lw_nl l < 1))
  \/ (lw_n (flushN l n) = 0 /\ lw_nl (flushN l n) = n).
Proof.
  unfold flushN.
  destruct ((lw_n l =? 0) && (n <=? lw_nl l)) eqn:E1.
  - left. apply andb_true_iff in E1 as [E0 En].
    apply Z.eqb_eq in E0. apply Z.leb_le in En. tauto.
  - destruct (n - lw_nl l <? 1) eqn:E2.
    + left. apply Z.ltb_lt in E2. tauto.
    + right. cbn [lw_n lw_nl]. split; [reflexivity|].
      destruct (n - lw_nl l =? 1); cbn [lw_nl lw_Write]; lia.
Qed.

(** X1: a [flushN] for [m] newlines right after a [flushN] for [n >= m]
    newlines changes nothing, neither the output nor a field of the
    wrapper. *)
Theorem flushN_absorbs (l : lineWrapper) (n m : Z) :
  m <= n -> flushN (flushN l n) m = flushN l n.
Proof.
  intros Hmn.
  destruct (flushN_state l n) as [[-> H] | [H0 Hn]].
  - apply flushN_early. destruct H as [[H0 Hn] | H]; [left | right]; lia.
  - apply flushN_early. left. lia.
Qed.

(** ** Wrapping keeps the text *)

Lemma filter_noSpace (f : gostring) :
  noSpace f = true -> filter (fun r => negb (IsSpace r)) f = f.
Proof.
  unfold noSpace. induction f as [|r f IH]; [reflexivity|].
  cbn [forallb filter]. intros H. apply andb_true_iff in H as [Hr Hf].
  rewrite Hr, IH by exact Hf. reflexivity.
Qed.

Lemma filter_repeat_LF (k : nat) :
  filter (fun r => negb (IsSpace r)) (repeat LF k) = [].
Proof. induction k as [|k IH]; [reflexivity | exact IH]. Qed.

Lemma write_field_keeps (l : lineWrapper) (f : gostring) :
  noSpace f = true ->
  filter (fun r => negb (IsSpace r)) (lw_out (write_field l f))
  = filter (fun r => negb (IsSpace r)) (lw_out l) ++ f.
Proof.
  intros Hf. unfold write_field.
  destruct ((0 <? lw_n l) && _); cbn [lw_out lw_Write lw_pendSpace];
    rewrite ?filter_app, (filter_noSpace f Hf).
  - cbn [firstn Z.to_nat filter nlBytes]. now rewrite !app_nil_r.
  - assert (filter (fun r => negb (IsSpace r))
              (firstn (Z.to_nat (lw_pendSpace l)) spaceBytes) = []) as ->.
    { destruct (Z.to_nat (lw_pendSpace l)) as [|[|k]]; reflexivity. }
    now rewrite app_nil_r.
Qed.

Lemma fold_write_field_keeps (fs : list gostring) :
  Forall (fun f => f <> [] /\ noSpace f = true) fs ->
  forall l,
    filter (fun r => negb (IsSpace r)) (lw_out (fold_left write_field fs l))
    = filter (fun r => negb (IsSpace r)) (lw_out l) ++ concat fs.
Proof.
  induction 1 as [|f fs [_ Hf] Hw IH]; intros l; cbn [fold_left concat].
  - symmetry. apply app_nil_r.
  - rewrite IH, (write_field_keeps l f Hf), <- app_assoc. reflexivity.
Qed.

(** X2: [write] adds to the output all the runes of its text that are not
    white space, in their order, and besides them white space only. *)
Theorem write_keeps_text (l : lineWrapper) (text : gostring) :
  filter (fun r => negb (IsSpace r)) (lw_out (write l text))
  = filter (fun r => negb (IsSpace r)) (lw_out l)
    ++ filter (fun r => negb (IsSpace r)) text.
Proof.
  unfold write.
  rewrite (fold_write_field_keeps (Fields text) (Fields_words text)).
  cbn [lw_out]. rewrite Fields_concat. f_equal.
  destruct ((lw_n l =? 0) && lw_printed l); [|reflexivity].
  destruct (flush_out l) as [k ->].
  now rewrite filter_app, filter_repeat_LF, app_nil_r.
Qed.

(** ** Attributes *)

(** X3: [getAttrVal] gives the value of the first attribute with the key,
    and the empty string when no attribute has the key. *)
Theorem getAttrVal_first_or_empty (node : Node) (attrName : gostring) :
  (forall before a after,
      Attr node = before ++ a :: after ->
      Key a = attrName ->
      (forall x, In x before -> Key x <> attrName) ->
      getAttrVal node attrName = Val a)
  /\ ((forall x, In x (Attr node) -> Key x <> attrName) ->
      getAttrVal node attrName = []).
Proof.
  unfold getAttrVal. split.
  - intros before a after -> Ha Hbefore.
    induction before as [|x before IH]; cbn [app getAttrVal_list].
    + now rewrite (proj2 (gostring_eqb_eq _ _) Ha).
    + rewrite gostring_eqb_neq by (apply Hbefore; now left).
      apply IH. intros y Hy. apply Hbefore. now right.
  - induction (Attr node) as [|x attrs IH]; intros H; [reflexivity|].
    cbn [getAttrVal_list].
    rewrite gostring_eqb_neq by (apply H; now left).
    apply IH. intros y Hy. apply H. now right.
Qed.

(** ** What a visit leaves alone *)

Lemma write_field_width (l : lineWrapper) (f : gostring) :
  lw_width (write_field l f) = lw_width l.
Proof. unfold write_field. destruct ((0 <? lw_n l) && _); reflexivity. Qed.

Lemma write_width (l : lineWrapper) (text : gostring) :
  lw_width (write l text) = lw_width l.
Proof.
  unfold write.
  assert (forall fs y, lw_width (fold_left write_field fs y) = lw_width y)
    as Hfold.
  { induction fs as [|f fs IH]; intros y; [reflexivity|].
    cbn [fold_left]. now rewrite IH, write_field_width. }
  rewrite Hfold. cbn [lw_width].
  destruct ((lw_n l =? 0) && lw_printed l); [|reflexivity].
  apply flushN_fields.
Qed.

Lemma flushN_width (l : lineWrapper) (n : Z) :
  lw_width (flushN l n) = lw_width l.
Proof. apply flushN_fields. Qed.

Lemma flush_width (l : lineWrapper) : lw_width (flush l) = lw_width l.
Proof. apply flushN_fields. Qed.

Lemma emit_wrapper_width (level : Z) (l : lineWrapper) (data : gostring) :
  lw_width (emit_wrapper level l data) = lw_width l.
Proof.
  unfold emit_wrapper.
  destruct (0 <? level); [cbn [lw_width lw_Write]; apply flush_width|].
  destruct (gostring_eqb data []); [reflexivity|].
  destruct (gostring_eqb data [LF]); [apply flush_width|].
  destruct (gostring_eqb data [LF; LF]);
    [apply flushN_width | apply write_width].
Qed.

Lemma frame_refl (ctx : textifyTraverseContext) : frame ctx ctx.
Proof. repeat split. Qed.

Lemma frame_trans (a b c : textifyTraverseContext) :
  frame a b -> frame b c -> frame a c.
Proof. unfold frame. intuition congruence. Qed.

Lemma wellBehaved_from (ctx ctx' : textifyTraverseContext) (m : Result) :
  frame ctx ctx' -> wellBehaved ctx' m -> wellBehaved ctx m.
Proof.
  intros Hf. destruct m as [[c e]|msg]; cbn [wellBehaved].
  - intros [He Hc]. split; [exact He | now apply (frame_trans _ ctx')].
  - destruct Hf as [Ho _]. now rewrite Ho.
Qed.

Lemma traverseChildren_wb (b : bool) (kids : list Node) :
  Forall (wellBehavedNode b) kids ->
  forall ctx,
    wellBehaved ctx (traverseChildren_with (traverse_gen b) kids ctx).
Proof.
  induction 1 as [|c rest Hc Hrest IH]; intros ctx;
    cbn [traverseChildren_with].
  - split; [reflexivity | apply frame_refl].
  - specialize (Hc ctx).
    destruct (traverse_gen b c ctx) as [[ctx' [e|]]|msg]; cbn [check].
    + destruct Hc as [He _]. discriminate.
    + destruct Hc as [_ Hf]. apply (wellBehaved_from ctx ctx' _ Hf), IH.
    + exact Hc.
Qed.

Lemma FromHTMLNode_wb (b : bool) (c : Node) (o : Options) :
  wellBehavedNode b c ->
  match FromHTMLNode_with (traverse_gen b) c [o] with
  | Returns (_, e) => e = None
  | Panics msg => PrettyTables o = true /\ tablePanic msg
  end.
Proof.
  intros Hc. unfold FromHTMLNode_with. specialize (Hc (newCtx o)).
  destruct (traverse_gen b c (newCtx o)) as [[ctx' [e|]]|msg].
  - destruct Hc as [He _]. discriminate.
  - reflexivity.
  - exact Hc.
Qed.

Lemma renderEachChild_loop_wb (b : bool) (o : Options) (kids : list Node) :
  Forall (wellBehavedNode b) kids ->
  forall buffer,
    match renderEachChild_loop (traverse_gen b) o kids buffer with
    | Returns (_, e) => e = None
    | Panics msg => PrettyTables o = true /\ tablePanic msg
    end.
Proof.
  induction 1 as [|c rest Hc Hrest IH]; intros buffer;
    cbn [renderEachChild_loop]; [reflexivity|].
  pose proof (FromHTMLNode_wb b c o Hc) as H.
  destruct (FromHTMLNode_with (traverse_gen b) c [o]) as [[s [e|]]|msg].
  - discriminate.
  - apply IH.
  - exact H.
Qed.

Ltac ctx_proj_in H :=
  cbn [fst snd prefix tableCtx options endsWithSpace justClosedDiv
       blockquoteLevel tableLevel wrapper isPre] in H.

Ltac wb_children :=
  match goal with
  | IH : Forall (wellBehavedNode ?b) ?ks
    |- context [traverseChildren_with (traverse_gen ?b) ?ks ?c] =>
      let H := fresh "H" in
      pose proof (traverseChildren_wb b ks IH c) as H;
      destruct (traverseChildren_with (traverse_gen b) ks c)
        as [[[? ? ? ? ? ? ? ? ?] [?|]]|?];
      unfold wellBehaved, frame in H; ctx_proj_in H;
      [ destruct H as [H _]; discriminate H
      | destruct H as [_ [? [? [? ?]]]]; subst
      | destruct H as [? ?]; subst ]
  | IH : Forall (wellBehavedNode ?b) ?ks
    |- context [renderEachChild_loop (traverse_gen ?b) ?o ?ks ?z] =>
      let H := fresh "H" in
      pose proof (renderEachChild_loop_wb b o ks IH z) as H;
      destruct (renderEachChild_loop (traverse_gen b) o ks z)
        as [[? [?|]]|?];
      [ discriminate H | | destruct H as [? ?]; subst ]
  end.

Ltac wb_finish :=
  unfold wellBehaved, frame; ctx_proj;
  repeat split;
  rewrite ?emit_wrapper_width, ?flush_width in *;
  try reflexivity; try assumption; try lia; try congruence;
  try (unfold tablePanic;
       first [left; reflexivity | right; do 4 eexists; eassumption]).

Ltac wb_step :=
  first
    [ progress ctx_norm
    | wb_children
    | match goal with
      | |- context [if ?x then _ else _] => destruct x eqn:?
      | |- context [match body_append ?r ?i ?x with _ => _ end] =>
          destruct (body_append r i x)
      | |- context [match tablewriter_Render ?a ?h ?f ?r with _ => _ end] =>
          destruct (tablewriter_Render a h f r) eqn:?
      end ].

Lemma handleElement_wb (b : bool) (kids : list Node) :
  Forall (wellBehavedNode b) kids ->
  forall atom attr ctx,
    wellBehaved ctx (handleElement_with b (traverse_gen b) atom attr kids ctx).
Proof.
  intros IH atom attr [p t o e j bq tl w ip].
  unfold handleElement_with, tableCase_with, handleTableElement_with,
    paragraphHandler_with, renderEachChild_with.
  destruct atom; try solve [repeat wb_step; wb_finish].
  all: destruct kids as [|img [|img' rest]]; repeat wb_step; wb_finish.
Qed.

Lemma traverse_wb (b : bool) (node : Node) : wellBehavedNode b node.
Proof.
  induction node as [type atom data attr kids IH] using Node_induction.
  intros ctx. rewrite traverse_gen_eq.
  cbn [Type_ DataAtom Data Attr Children].
  destruct type; try (apply traverseChildren_wb; exact IH).
  - rewrite emit_eq. unfold wellBehaved, frame. destruct ctx. cbn.
    rewrite emit_wrapper_width. repeat split.
  - apply handleElement_wb. exact IH.
Qed.

(** X4: a visit that returns leaves the options, the table level, the
    blockquote level and the width of the wrapper as they were, and its
    error is nil: the nesting counters are balanced. *)
Theorem traverse_keeps_frame (node : Node)
  (ctx ctx' : textifyTraverseContext) (err : error) :
  traverse node ctx = Returns (ctx', err) ->
  err = None
  /\ options ctx' = options ctx
  /\ tableLevel ctx' = tableLevel ctx
  /\ blockquoteLevel ctx' = blockquoteLevel ctx
  /\ lw_width (wrapper ctx') = lw_width (wrapper ctx).
Proof.
  intros H. pose proof (traverse_wb true node ctx) as Hwb.
  unfold traverse in H. rewrite H in Hwb. exact Hwb.
Qed.

(** X5: the outcomes of [FromHTMLNode].  It returns a string and a nil
    error, or, when [PrettyTables] is set, it panics: on the index of a
    row of the body, or inside the table renderer with the panic of the
    renderer.  It never returns an error, and the panic guarding
    [handleTableElement] is never reached. *)
Theorem render_outcomes (doc : Node) (o : list Options) :
  (exists out, FromHTMLNode doc o = Returns (out, None))
  \/ (PrettyTables (match o with o0 :: _ => o0 | [] => zeroOptions end) = true
      /\ exists msg,
           FromHTMLNode doc o = Panics msg
           /\ (msg = "index out of range"%string
               \/ exists opts hd ft rows,
                    tablewriter_Render opts hd ft rows = Panics msg)).
Proof.
  unfold FromHTMLNode, FromHTMLNode_with.
  pose proof (traverse_wb true doc
                (newCtx (match o with o0 :: _ => o0 | [] => zeroOptions end)))
    as Hwb.
  fold traverse in Hwb |- *.
  destruct (traverse doc _) as [[ctx' [e|]]|msg].
  - destruct Hwb as [He _]. discriminate.
  - left. eexists. reflexivity.
  - right. destruct Hwb as [Hp Hm]. split; [exact Hp|].
    exists msg. split; [reflexivity | exact Hm].
Qed.

Lemma traverse_returns (node : Node) (ctx : textifyTraverseContext) :
  PrettyTables (options ctx) = false ->
  exists ctx', traverse node ctx = Returns (ctx', None).
Proof.
  intros Hp. pose proof (traverse_wb true node ctx) as Hwb.
  fold traverse in Hwb.
  destruct (traverse node ctx) as [[ctx' [e|]]|msg].
  - destruct Hwb as [He _]. discriminate.
  - now exists ctx'.
  - destruct Hwb as [Ht _]. congruence.
Qed.

(** X6: without [PrettyTables] rendering never panics: every document
    renders to a string with a nil error. *)
Theorem render_without_PrettyTables_returns (doc : Node) (o : Options) :
  PrettyTables o = false ->
  (exists out, FromHTMLNode doc [o] = Returns (out, None))
  /\ (exists out, FromHTMLNode doc [] = Returns (out, None)).
Proof.
  intros Hp. unfold FromHTMLNode, FromHTMLNode_with. fold traverse. split.
  - destruct (traverse_returns doc (newCtx o) Hp) as [ctx' ->].
    eexists. reflexivity.
  - destruct (traverse_returns doc (newCtx zeroOptions) eq_refl) as [ctx' ->].
    eexists. reflexivity.
Qed.

(** ** Cells *)

Lemma renderEachChild_loop_joins (o : Options) (kids : list Node)
  (texts : list gostring) :
  Forall2 (fun c t => FromHTMLNode c [o] = Returns (t, None)) kids texts ->
  forall buffer,
    renderEachChild_loop traverse o kids buffer
    = Returns (buffer ++ Join_nl texts, None).
Proof.
  induction 1 as [|c t rest ts Hc Hrest IH]; intros buffer.
  - cbn [renderEachChild_loop Join_nl]. now rewrite app_nil_r.
  - rewrite renderEachChild_loop_cons, Hc.
    destruct Hrest as [|c' t' rest' ts' Hc' Hrest'].
    + reflexivity.
    + rewrite IH. cbn [Join_nl]. rewrite <- !app_assoc. reflexivity.
Qed.

(** X7: when each child of a cell renders, the text of the cell is the
    texts of the children joined by one newline, with none after the
    last. *)
Theorem renderEachChild_joins (ctx : textifyTraverseContext) (node : Node)
  (texts : list gostring) :
  Forall2 (fun c t => FromHTMLNode c [options ctx] = Returns (t, None))
          (Children node) texts ->
  renderEachChild ctx node = Returns (Join_nl texts, None).
Proof.
  intros H. unfold renderEachChild, renderEachChild_with.
  fold traverse. now rewrite (renderEachChild_loop_joins _ _ _ H).
Qed.

(** ** The lines of the returned string *)

Lemma partOf_refl (x : gostring) : partOf x x.
Proof. exists [], []. now rewrite app_nil_r. Qed.

Lemma partOf_trans (x y z : gostring) : partOf x y -> partOf y z -> partOf x z.
Proof.
  intros [a [b ->]] [c [d ->]]. exists (c ++ a), (b ++ d).
  now rewrite <- !app_assoc.
Qed.

Lemma partOf_nil (y : gostring) : partOf [] y.
Proof. now exists [], y. Qed.

Lemma partOf_cons (r : rune) (x : gostring) : partOf x (r :: x).
Proof. exists [r], []. now rewrite app_nil_r. Qed.

Lemma linesWithin_refl (s : gostring) : linesWithin s s.
Proof. intros line H. exists line. split; [exact H | apply partOf_refl]. Qed.

Lemma linesWithin_trans (s t u : gostring) :
  linesWithin s t -> linesWithin t u -> linesWithin s u.
Proof.
  intros Hst Htu line H. destruct (Hst line H) as [l1 [H1 P1]].
  destruct (Htu l1 H1) as [l2 [H2 P2]]. exists l2.
  split; [exact H2 | now apply (partOf_trans _ l1)].
Qed.

Lemma Split_nl_not_nil (s : gostring) : Split_nl s <> [].
Proof.
  destruct s as [|r s]; cbn [Split_nl]; [discriminate|].
  destruct (r =? LF)%N; [discriminate|].
  destruct (Split_nl s); discriminate.
Qed.

Lemma Split_nl_cons (r : rune) (s : gostring) :
  (r =? LF)%N = false ->
  Split_nl (r :: s) = (r :: hd [] (Split_nl s)) :: tl (Split_nl s).
Proof.
  intros E. cbn [Split_nl]. rewrite E.
  pose proof (Split_nl_not_nil s). destruct (Split_nl s); [contradiction|].
  reflexivity.
Qed.

Lemma Split_nl_LF (s : gostring) : Split_nl (LF :: s) = [] :: Split_nl s.
Proof. reflexivity. Qed.

Lemma in_hd_tl (l : list gostring) (x : gostring) :
  l <> [] -> In x l -> x = hd [] l \/ In x (tl l).
Proof. destruct l; [contradiction|]. cbn. intuition. Qed.

Lemma hd_in (l : list gostring) : l <> [] -> In (hd [] l) l.
Proof. destruct l; [contradiction|]. now left. Qed.

Lemma tl_in (l : list gostring) (x : gostring) : In x (tl l) -> In x l.
Proof. destruct l; [intros [] | now right]. Qed.

(** Dropping the first rune. *)
Lemma linesWithin_cons (r : rune) (s : gostring) : linesWithin s (r :: s).
Proof.
  intros line H. destruct (r =? LF)%N eqn:E.
  - apply N.eqb_eq in E as ->. exists line.
    split; [now right | apply partOf_refl].
  - rewrite (Split_nl_cons r s E).
    destruct (in_hd_tl _ _ (Split_nl_not_nil s) H) as [-> | Ht].
    + eexists. split; [now left | apply partOf_cons].
    + exists line. split; [now right | apply partOf_refl].
Qed.

Lemma linesWithin_app_l (a s : gostring) : linesWithin s (a ++ s).
Proof.
  induction a as [|r a IH]; [apply linesWithin_refl|].
  apply (linesWithin_trans _ (a ++ s)); [exact IH | apply linesWithin_cons].
Qed.

(** Dropping a suffix. *)
Lemma linesWithin_app_r (s b : gostring) :
  linesWithin s (s ++ b)
  /\ partOf (hd [] (Split_nl s)) (hd [] (Split_nl (s ++ b)))
  /\ exists post, hd [] (Split_nl (s ++ b)) = hd [] (Split_nl s) ++ post.
Proof.
  induction s as [|r s [IH [_ [post Hpost]]]].
  - cbn [app Split_nl hd]. split; [|split].
    + intros line [<- | []]. exists (hd [] (Split_nl b)).
      split; [apply hd_in, Split_nl_not_nil | apply partOf_nil].
    + apply partOf_nil.
    + now exists (hd [] (Split_nl b)).
  - destruct (r =? LF)%N eqn:E.
    + apply N.eqb_eq in E as ->. cbn [app]. rewrite !Split_nl_LF.
      cbn [hd]. split; [|split].
      * intros line [<- | H].
        -- exists []. split; [now left | apply partOf_refl].
        -- destruct (IH line H) as [l0 [H0 P0]]. exists l0.
           split; [now right | exact P0].
      * apply partOf_refl.
      * now exists [].
    + unfold linesWithin. cbn [app]. rewrite !(Split_nl_cons r _ E).
      cbn [hd]. split; [|split].
      * intros line [<- | H].
        -- eexists. split; [now left|]. rewrite Hpost.
           exists [], post. reflexivity.
        -- destruct (IH line (tl_in _ _ H)) as [l0 [H0 P0]].
           destruct (in_hd_tl _ _ (Split_nl_not_nil (s ++ b)) H0)
             as [-> | Ht].
           ++ (* the line would have to sit in the first line of [s ++ b] *)
              eexists. split; [now left|].
              apply (partOf_trans _ _ _ P0), partOf_cons.
           ++ exists l0. split; [now right | exact P0].
      * rewrite Hpost. exists [], post. reflexivity.
      * exists post. now rewrite Hpost.
Qed.

Lemma linesWithin_part (a s b : gostring) : linesWithin s (a ++ s ++ b).
Proof.
  apply (linesWithin_trans _ (s ++ b)).
  - apply linesWithin_app_r.
  - apply linesWithin_app_l.
Qed.

Lemma linesWithin_TrimSpace (s : gostring) : linesWithin (TrimSpace s) s.
Proof.
  destruct (TrimSpace_infix s) as [a [b Hab]].
  rewrite Hab at 2. apply linesWithin_part.
Qed.

Lemma Replace_nlsp_lines_len (k : nat) :
  forall s : gostring, (length s <= k)%nat ->
    hd [] (Split_nl (Replace_nlsp s)) = hd [] (Split_nl s)
    /\ forall line, In line (tl (Split_nl (Replace_nlsp s))) ->
         exists line0, In line0 (tl (Split_nl s)) /\ partOf line line0.
Proof.
  induction k as [|k IH]; intros s Hlen.
  - destruct s; [|cbn in Hlen; lia]. split; [reflexivity | intros line []].
  - destruct s as [|x s]; [split; [reflexivity | intros line []]|].
    cbn [length] in Hlen.
    assert (forall u, (length u <= k)%nat ->
              forall line, In line (Split_nl (Replace_nlsp u)) ->
                exists line0, In line0 (Split_nl u) /\ partOf line line0)
      as whole.
    { intros u Hu line Hin. destruct (IH u Hu) as [Hhd Htl].
      destruct (in_hd_tl _ _ (Split_nl_not_nil _) Hin) as [-> | Ht].
      - rewrite Hhd. eexists.
        split; [apply hd_in, Split_nl_not_nil | apply partOf_refl].
      - destruct (Htl line Ht) as [l0 [H0 P0]]. exists l0.
        split; [now apply tl_in | exact P0]. }
    cbn [Replace_nlsp]. destruct (x =? LF)%N eqn:Ex.
    + apply N.eqb_eq in Ex as ->. destruct s as [|y s].
      * split; [reflexivity|]. intros line H. exists line.
        split; [exact H | apply partOf_refl].
      * cbn [length] in Hlen. destruct (y =? SP)%N eqn:Ey.
        -- apply N.eqb_eq in Ey as ->. rewrite !Split_nl_LF. cbn [hd tl].
           split; [reflexivity|]. intros line H.
           destruct (whole s ltac:(lia) line H) as [l0 [H0 P0]].
           destruct (linesWithin_cons SP s l0 H0) as [l1 [H1 P1]].
           exists l1. split; [exact H1 | now apply (partOf_trans _ l0)].
        -- rewrite !Split_nl_LF. cbn [hd tl]. split; [reflexivity|].
           intros line H. apply (whole (y :: s)); [cbn [length]; lia | exact H].
    + destruct (IH s ltac:(lia)) as [Hhd Htl].
      rewrite !(Split_nl_cons x _ Ex). cbn [hd tl]. rewrite Hhd.
      split; [reflexivity | exact Htl].
Qed.

Lemma linesWithin_Replace_nlsp (s : gostring) :
  linesWithin (Replace_nlsp s) s.
Proof.
  destruct (Replace_nlsp_lines_len (length s) s (le_n _)) as [Hhd Htl].
  intros line Hin.
  destruct (in_hd_tl _ _ (Split_nl_not_nil _) Hin) as [-> | Ht].
  - rewrite Hhd. eexists.
    split; [apply hd_in, Split_nl_not_nil | apply partOf_refl].
  - destruct (Htl line Ht) as [l0 [H0 P0]]. exists l0.
    split; [now apply tl_in | exact P0].
Qed.

Lemma Split_nl_newlines (m : nat) (s : gostring) :
  Split_nl (repeat LF m ++ s) = repeat [] m ++ Split_nl s.
Proof.
  induction m as [|m IH]; [reflexivity|].
  cbn [repeat app]. now rewrite Split_nl_LF, IH.
Qed.

Lemma repeat_LF_shift (k : nat) (s : gostring) :
  repeat LF (S k) ++ s = repeat LF k ++ LF :: s.
Proof. now rewrite repeat_snoc, <- app_assoc. Qed.

Lemma collapse_from_lines (s : gostring) :
  forall k,
    hd [] (Split_nl (collapse_from k s))
    = hd [] (Split_nl (repeat LF k ++ s))
    /\ forall line, In line (tl (Split_nl (collapse_from k s))) ->
         line = [] \/ In line (tl (Split_nl (repeat LF k ++ s))).
Proof.
  induction s as [|x s IH]; intros k; cbn [collapse_from].
  - rewrite app_nil_r.
    replace (repeat LF (Nat.min k 2))
      with (repeat LF (Nat.min k 2) ++ []) by apply app_nil_r.
    replace (repeat LF k) with (repeat LF k ++ []) by apply app_nil_r.
    rewrite !Split_nl_newlines. cbn [Split_nl]. split.
    + destruct k as [|[|k]]; reflexivity.
    + intros line H. left. apply tl_in in H.
      apply in_app_or in H as [H | [<- | []]]; [|reflexivity].
      now apply repeat_spec in H.
  - destruct (x =? LF)%N eqn:Ex.
    + apply N.eqb_eq in Ex as ->. rewrite <- repeat_LF_shift. apply IH.
    + destruct (IH 0%nat) as [Hhd Htl]. cbn [repeat app] in Hhd, Htl.
      rewrite !Split_nl_newlines, !(Split_nl_cons x _ Ex), Hhd.
      destruct k as [|k].
      * cbn [Nat.min repeat app hd tl]. split; [reflexivity | exact Htl].
      * assert (exists m, Nat.min (S k) 2 = S m) as [m ->]
          by (destruct k; eexists; reflexivity).
        cbn [repeat app hd tl]. split; [reflexivity|].
        intros line H. apply in_app_or in H as [H | [<- | H]].
        -- left. now apply repeat_spec in H.
        -- right. apply in_or_app. right. now left.
        -- destruct (Htl line H) as [-> | H']; [now left|].
           right. apply in_or_app. right. now right.
Qed.

Lemma linesWithin_collapse (s : gostring) :
  linesWithin (newlineRe_ReplaceAll s) s.
Proof.
  unfold newlineRe_ReplaceAll.
  destruct (collapse_from_lines s 0) as [Hhd Htl]. cbn [repeat app] in *.
  intros line Hin.
  destruct (in_hd_tl _ _ (Split_nl_not_nil _) Hin) as [-> | Ht].
  - rewrite Hhd. eexists.
    split; [apply hd_in, Split_nl_not_nil | apply partOf_refl].
  - destruct (Htl line Ht) as [-> | H'].
    + eexists. split; [apply hd_in, Split_nl_not_nil | apply partOf_nil].
    + exists line. split; [now apply tl_in | apply partOf_refl].
Qed.

Lemma normalize_lines (s : gostring) : linesWithin (normalize s) s.
Proof.
  unfold normalize.
  apply (linesWithin_trans _ (newlineRe_ReplaceAll (Replace_nlsp s))).
  - apply linesWithin_TrimSpace.
  - apply (linesWithin_trans _ (Replace_nlsp s)).
    + apply linesWithin_collapse.
    + apply linesWithin_Replace_nlsp.
Qed.

(** X8: the final normalisation joins no two lines and adds no text: every
    line of the string a render returns is a contiguous part of a line of
    the buffer the traversal left. *)
Theorem output_lines_come_from_buffer (doc : Node) (o : list Options)
  (out : gostring) :
  FromHTMLNode doc o = Returns (out, None) ->
  exists ctx,
    traverse doc (newCtx (match o with o0 :: _ => o0 | [] => zeroOptions end))
    = Returns (ctx, None)
    /\ forall line, In line (Split_nl out) ->
         exists line0, In line0 (Split_nl (buf ctx))
                       /\ exists before after, line0 = before ++ line ++ after.
Proof.
  unfold FromHTMLNode, FromHTMLNode_with. fold traverse.
  destruct (traverse doc _) as [[ctx [e|]]|msg]; try discriminate.
  intros H. injection H as <-. exists ctx. split; [reflexivity|].
  apply normalize_lines.
Qed.

(** ** Properties of the wrapper that every visit keeps *)

Section WrapperInvariant.

Variable Q : lineWrapper -> Prop.
Variable raw : bool.
Hypothesis Q_fresh : forall W, Q (mkLineWrapper [] W 0 0 0 false).
Hypothesis Q_flushN : forall l n, Q l -> Q (flushN l n).
Hypothesis Q_write : forall l text, Q l -> Q (write l text).
Hypothesis Q_raw : raw = true -> forall l p, Q l -> Q (lw_Write l p).

Lemma Q_emit_wrapper (level : Z) (l : lineWrapper) (data : gostring) :
  raw = true \/ level <= 0 -> Q l -> Q (emit_wrapper level l data).
Proof.
  intros Hlevel Hl. unfold emit_wrapper.
  destruct (0 <? level) eqn:E.
  - apply Z.ltb_lt in E. destruct Hlevel as [Hraw | Hle]; [|lia].
    apply (Q_raw Hraw), Q_flushN, Hl.
  - destruct (gostring_eqb data []); [exact Hl|].
    destruct (gostring_eqb data [LF]); [now apply Q_flushN|].
    destruct (gostring_eqb data [LF; LF]);
      [now apply Q_flushN | now apply Q_write].
Qed.

Ltac inv_solve :=
  repeat first
    [ assumption
    | apply Q_fresh
    | apply Q_emit_wrapper
    | apply Q_flushN
    | exact Logic.I
    | left; assumption
    | right; lia ].

Lemma traverseChildren_keeps (b : bool) (kids : list Node) :
  Forall (keepsWrapper Q raw b) kids ->
  forall ctx,
    raw = true \/ tableLevel ctx <= 0 -> Q (wrapper ctx) ->
    match traverseChildren_with (traverse_gen b) kids ctx with
    | Returns (ctx', _) => Q (wrapper ctx')
    | Panics _ => True
    end.
Proof.
  induction 1 as [|c rest Hc Hrest IH]; intros ctx Hlevel Hl;
    cbn [traverseChildren_with]; [exact Hl|].
  specialize (Hc ctx Hlevel Hl).
  pose proof (traverse_wb b c ctx) as Hwb.
  destruct (traverse_gen b c ctx) as [[ctx' [e|]]|msg]; cbn [check].
  - exact Hc.
  - destruct Hwb as [_ [_ [Ht _]]]. apply IH; [|exact Hc].
    destruct Hlevel as [Hraw | Hle]; [now left | right; lia].
  - exact Logic.I.
Qed.

Ltac inv_children :=
  match goal with
  | IHw : Forall (wellBehavedNode ?b) ?ks,
    IHl : Forall (keepsWrapper Q raw ?b) ?ks
    |- context [traverseChildren_with (traverse_gen ?b) ?ks ?c] =>
      let Hw := fresh "Hw" in
      let Hl := fresh "Hl" in
      pose proof (traverseChildren_wb b ks IHw c) as Hw;
      pose proof (traverseChildren_keeps b ks IHl c) as Hl;
      destruct (traverseChildren_with (traverse_gen b) ks c)
        as [[[? ? ? ? ? ? ? ? ?] [?|]]|?];
      unfold wellBehaved, frame in Hw; ctx_proj_in Hw; ctx_proj_in Hl;
      [ destruct Hw as [Hw _]; discriminate Hw
      | destruct Hw as [_ [? [? [? ?]]]];
        repeat match goal with
               | H : ?x = _ |- _ =>
                   is_var x;
                   lazymatch x with raw => fail | _ => subst x end
               end;
        let Hi := fresh "Hinv" in
        assert (Hi := Hl ltac:(inv_solve) ltac:(inv_solve)); clear Hl
      | clear Hw Hl ]
  | |- context [match renderEachChild_loop ?f ?o ?k ?z with _ => _ end] =>
      destruct (renderEachChild_loop f o k z) as [[? [?|]]|?]
  end.

Ltac inv_step :=
  first
    [ progress ctx_norm
    | inv_children
    | match goal with
      | |- context [if ?x then _ else _] => destruct x eqn:?
      | |- context [match body_append ?r ?i ?x with _ => _ end] =>
          destruct (body_append r i x)
      | |- context [match tablewriter_Render ?a ?h ?f ?r with _ => _ end] =>
          destruct (tablewriter_Render a h f r)
      end ].

Lemma handleElement_keeps (b : bool) (kids : list Node) :
  Forall (wellBehavedNode b) kids -> Forall (keepsWrapper Q raw b) kids ->
  forall atom attr ctx,
    raw = true \/ atom <> Table ->
    raw = true \/ tableLevel ctx <= 0 -> Q (wrapper ctx) ->
    match handleElement_with b (traverse_gen b) atom attr kids ctx with
    | Returns (ctx', _) => Q (wrapper ctx')
    | Panics _ => True
    end.
Proof.
  intros IHw IHl atom attr [p t o e j bq tl w ip] Hatom Hlevel Hl.
  cbn [tableLevel wrapper] in Hlevel, Hl.
  unfold handleElement_with, tableCase_with, handleTableElement_with,
    paragraphHandler_with, renderEachChild_with.
  destruct Hatom as [Hraw | Hatom]; destruct Hlevel as [Hraw' | Hlevel];
    destruct atom; try congruence;
    try solve [repeat inv_step; ctx_proj; inv_solve].
  all: destruct kids as [|img [|img' rest]];
    repeat inv_step; ctx_proj; inv_solve.
Qed.

Lemma traverse_keeps (b : bool) (node : Node) :
  raw = true \/ noTable node = true -> keepsWrapper Q raw b node.
Proof.
  induction node as [type atom data attr kids IH] using Node_induction.
  intros Hno.
  assert (Forall (keepsWrapper Q raw b) kids) as IHl.
  { rewrite Forall_forall in IH |- *. intros c Hc. apply (IH c Hc).
    destruct Hno as [Hraw | Hno]; [now left | right].
    cbn [noTable] in Hno. apply andb_true_iff in Hno as [_ Hk].
    rewrite forallb_forall in Hk. now apply Hk. }
  assert (Forall (wellBehavedNode b) kids) as IHw.
  { apply Forall_forall. intros c _. apply traverse_wb. }
  intros ctx Hlevel Hl. rewrite traverse_gen_eq.
  cbn [Type_ DataAtom Data Attr Children].
  destruct type; try (now apply traverseChildren_keeps).
  - rewrite emit_eq. destruct ctx. cbn in *. now apply Q_emit_wrapper.
  - apply handleElement_keeps; try assumption.
    destruct Hno as [Hraw | Hno]; [now left | right].
    intros ->. cbn [noTable Atom_eqb negb andb] in Hno. discriminate.
Qed.

End WrapperInvariant.

(** ** Documents without tables: every line fits *)

Lemma StringWidth_part (x y : gostring) :
  partOf x y -> StringWidth x <= StringWidth y.
Proof.
  intros [a [c ->]]. rewrite !StringWidth_app.
  pose proof (StringWidth_nonneg a). pose proof (StringWidth_nonneg c). lia.
Qed.

Lemma lineFits_part (W : Z) (x y : gostring) :
  partOf x y -> lineFits W y -> lineFits W x.
Proof.
  intros Hp [Hw | Hn].
  - left. pose proof (StringWidth_part x y Hp). lia.
  - right. destruct Hp as [a [c ->]]. rewrite !noSpace_app in Hn.
    apply andb_true_iff in Hn as [_ Hn].
    now apply andb_true_iff in Hn as [Hn _].
Qed.

(** X9: for a document without [table] elements, every line of the string
    a render returns is at most 78 columns wide or consists of a single
    word.  The space is not a wide rune. *)
Theorem rendered_lines_fit (doc : Node) (o : list Options)
  (out line : gostring) :
  isWide SP = false ->
  noTable doc = true ->
  FromHTMLNode doc o = Returns (out, None) ->
  In line (Split_nl out) ->
  StringWidth line <= 78 \/ noSpace line = true.
Proof.
  intros Hsp Hno Hrun Hin.
  pose proof (traverse_keeps lwInv false lwInv_fresh lwInv_flushN
                (fun l t => lwInv_write l t Hsp)
                ltac:(discriminate) true doc (or_intror Hno)
                (newCtx (match o with o0 :: _ => o0 | [] => zeroOptions end))
                ltac:(right; cbn; lia) (lwInv_fresh 78)) as Hinv.
  pose proof (traverse_wb true doc
                (newCtx (match o with o0 :: _ => o0 | [] => zeroOptions end)))
    as Hwb.
  unfold FromHTMLNode, FromHTMLNode_with in Hrun. cbv zeta in Hrun.
  unfold traverse in Hrun.
  destruct (traverse_gen true doc _) as [[ctx [e|]]|msg]; try discriminate.
  injection Hrun as <-.
  destruct (normalize_lines (buf ctx) line Hin) as [line0 [Hin0 Hpart]].
  destruct Hwb as [_ [_ [_ [_ Hw]]]].
  pose proof (lwInv_lines _ _ Hinv Hin0) as Hfit.
  rewrite Hw in Hfit. cbn [newCtx wrapper lw_width] in Hfit.
  exact (lineFits_part 78 line line0 Hpart Hfit).
Qed.

(** ** The pending space *)

(** X10: a visit keeps [pendSpace] at 0 or 1, the two lengths for which
    the slice [space[:l.pendSpace]] of [write] is in range.  A render
    starts with 0. *)
Theorem traverse_keeps_pendSpace (node : Node)
  (ctx ctx' : textifyTraverseContext) (err : error) :
  lw_pendSpace (wrapper ctx) = 0 \/ lw_pendSpace (wrapper ctx) = 1 ->
  traverse node ctx = Returns (ctx', err) ->
  lw_pendSpace (wrapper ctx') = 0 \/ lw_pendSpace (wrapper ctx') = 1.
Proof.
  intros Hp Hrun.
  pose proof (traverse_keeps pend01 true
                (fun W => or_introl eq_refl)
                (fun l n => proj2 (proj2 (flushN_fields l n)))
                write_pend01
                (fun _ l p H => H)
                true node (or_introl eq_refl) ctx (or_introl eq_refl) Hp)
    as Hinv.
  unfold traverse in Hrun. rewrite Hrun in Hinv. exact Hinv.
Qed.

(** ** Documents without tables: tidy white space *)

Lemma spaced_word (f : gostring) :
  noSpace f = true -> forall p, spaced p f = true.
Proof.
  unfold noSpace. induction f as [|r f IH]; intros H p; [reflexivity|].
  cbn [forallb] in H. apply andb_true_iff in H as [Hr Hf].
  cbn [spaced].
  destruct (r =? SP)%N eqn:E1.
  { apply N.eqb_eq in E1. subst r. vm_compute in Hr. discriminate. }
  destruct (r =? LF)%N eqn:E2.
  { apply N.eqb_eq in E2. subst r. vm_compute in Hr. discriminate. }
  rewrite Hr. now apply IH.
Qed.

Lemma endsWord_word (f : gostring) :
  f <> [] -> noSpace f = true -> forall p, endsWord p f = true.
Proof.
  unfold noSpace. induction f as [|r f IH]; intros Hne H p; [congruence|].
  cbn [forallb] in H. apply andb_true_iff in H as [Hr Hf].
  cbn [endsWord]. destruct f as [|r' f]; [exact Hr|].
  apply IH; [discriminate | exact Hf].
Qed.

Lemma word_head (f : gostring) :
  f <> [] -> noSpace f = true ->
  match f with [] => false | r :: _ => negb (IsSpace r) end = true.
Proof.
  unfold noSpace. destruct f as [|r f]; intros Hne H; [congruence|].
  cbn [forallb] in H. now apply andb_true_iff in H as [Hr _].
Qed.

Lemma endsWord_app (s t : gostring) :
  forall p, endsWord p (s ++ t) = endsWord (endsWord p s) t.
Proof.
  induction s as [|r s IH]; intros p; [reflexivity|].
  cbn [app endsWord]. apply IH.
Qed.

Lemma spaced_app (s t : gostring) :
  forall p, spaced p s = true ->
            spaced p (s ++ t) = spaced (endsWord p s) t.
Proof.
  induction s as [|r s IH]; intros p H; [reflexivity|].
  cbn [app spaced endsWord] in H |- *.
  destruct (r =? SP)%N eqn:E1.
  - apply N.eqb_eq in E1. subst r.
    apply andb_true_iff in H as [H Hs]. apply andb_true_iff in H as [-> Hh].
    destruct s as [|r' s]; [discriminate|].
    cbn [app]. rewrite Hh. cbn [andb].
    change (r' :: s ++ t) with ((r' :: s) ++ t). now apply IH.
  - destruct (r =? LF)%N eqn:E2.
    + apply N.eqb_eq in E2. subst r. now apply IH.
    + apply andb_true_iff in H as [Hr Hs]. rewrite Hr. cbn [andb negb].
      now apply IH.
Qed.

Lemma spaced_repeat_LF (k : nat) (p : bool) : spaced p (repeat LF k) = true.
Proof.
  revert p. induction k as [|k IH]; intros p; [reflexivity|].
  cbn [repeat spaced]. change (LF =? SP)%N with false.
  change (LF =? LF)%N with true. apply IH.
Qed.

Lemma spaced_newlines (s : gostring) (k : nat) (p : bool) :
  spaced p s = true -> spaced p (s ++ repeat LF k) = true.
Proof.
  intros H. rewrite (spaced_app s _ p H). apply spaced_repeat_LF.
Qed.

Lemma endsWord_LF (s : gostring) (p : bool) : endsWord p (s ++ [LF]) = false.
Proof. now rewrite endsWord_app. Qed.

Lemma tidyW_fresh (W : Z) : tidyW (mkLineWrapper [] W 0 0 0 false).
Proof. split; [reflexivity | now left]. Qed.

Lemma tidyW_flushN (l : lineWrapper) (n : Z) : tidyW l -> tidyW (flushN l n).
Proof.
  intros [Hs Hp]. unfold flushN.
  destruct ((lw_n l =? 0) && (n <=? lw_nl l)); [now split|].
  destruct (n - lw_nl l <? 1); [now split|].
  split; [|now left]. cbn [lw_out].
  destruct (n - lw_nl l =? 1); cbn [lw_Write lw_out].
  - apply (spaced_newlines _ 1 _ Hs).
  - rewrite Repeat_nlBytes. now apply spaced_newlines.
Qed.

Lemma tidyW_write_field (l : lineWrapper) (f : gostring) :
  f <> [] -> noSpace f = true -> tidyW l -> tidyW (write_field l f).
Proof.
  intros Hne Hf [Hs Hp]. unfold write_field, tidyW, nlBytes, spaceBytes.
  assert (forall out, spaced false out = true ->
                      spaced false (out ++ f) = true
                      /\ endsWord false (out ++ f) = true) as Hword.
  { intros out Hout. rewrite (spaced_app _ f false Hout), endsWord_app.
    split; [now apply spaced_word | now apply endsWord_word]. }
  destruct ((0 <? lw_n l)
            && (lw_width l <? lw_n l + lw_pendSpace l + StringWidth f));
    cbn [lw_Write lw_out lw_pendSpace lw_n lw_width lw_nl lw_printed].
  - change (Z.to_nat 0) with 0%nat. cbn [firstn]. rewrite app_nil_r.
    destruct (Hword (lw_out l ++ [LF]) (spaced_newlines _ 1 _ Hs)).
    split; [assumption | right; now split].
  - destruct Hp as [-> | [-> He]].
    + change (Z.to_nat 0) with 0%nat. cbn [firstn]. rewrite app_nil_r.
      destruct (Hword (lw_out l) Hs). split; [assumption | right; now split].
    + change (Z.to_nat 1) with 1%nat. cbn [firstn].
      rewrite <- app_assoc. split.
      * rewrite (spaced_app _ _ false Hs), He.
        cbn [app spaced]. change (SP =? SP)%N with true. cbn [andb].
        rewrite (word_head f Hne Hf). now apply spaced_word.
      * right. split; [reflexivity|].
        rewrite !endsWord_app. now apply endsWord_word.
Qed.

Lemma tidyW_fold_write_field (fs : list gostring) :
  Forall (fun f => f <> [] /\ noSpace f = true) fs ->
  forall l, tidyW l -> tidyW (fold_left write_field fs l).
Proof.
  induction 1 as [|f fs [Hne Hf] _ IH]; intros l Hl; [exact Hl|].
  cbn [fold_left]. apply IH. now apply tidyW_write_field.
Qed.

Lemma tidyW_write (l : lineWrapper) (text : gostring) :
  tidyW l -> tidyW (write l text).
Proof.
  intros Hl. unfold write.
  apply tidyW_fold_write_field; [apply Fields_words|].
  assert (tidyW (if (lw_n l =? 0) && lw_printed l then flush l else l))
    as [Hs Hp].
  { destruct ((lw_n l =? 0) && lw_printed l); [|exact Hl].
    now apply tidyW_flushN. }
  split; [exact Hs | exact Hp].
Qed.

Lemma Replace_nlsp_tidy (s : gostring) :
  forall p, spaced p s = true -> Replace_nlsp s = s.
Proof.
  induction s as [|r s IH]; intros p H; [reflexivity|].
  cbn [spaced Replace_nlsp] in H |- *.
  destruct (r =? SP)%N eqn:E1.
  - apply N.eqb_eq in E1. subst r. change (SP =? LF)%N with false.
    apply andb_true_iff in H as [_ Hs]. f_equal. now apply (IH false).
  - destruct (r =? LF)%N eqn:E2.
    + apply N.eqb_eq in E2. subst r. destruct s as [|r' s]; [reflexivity|].
      destruct (r' =? SP)%N eqn:E3.
      * apply N.eqb_eq in E3. subst r'. cbn [spaced] in H.
        change (SP =? SP)%N with true in H. discriminate.
      * f_equal. now apply (IH false).
    + apply andb_true_iff in H as [_ Hs]. f_equal. now apply (IH true).
Qed.

Lemma spaced_after_newlines (m : nat) (t : gostring) (p : bool) :
  spaced p (repeat LF m ++ t)
  = spaced (match m with O => p | _ => false end) t.
Proof.
  revert p. induction m as [|m IH]; intros p; [reflexivity|].
  cbn [repeat app spaced]. change (LF =? SP)%N with false.
  change (LF =? LF)%N with true. rewrite IH. now destruct m.
Qed.

Lemma collapse_from_tidy (s : gostring) :
  forall k p,
    spaced (match k with O => p | _ => false end) s = true ->
    spaced p (collapse_from k s) = true.
Proof.
  induction s as [|r s IH]; intros k p H; cbn [collapse_from].
  - apply spaced_repeat_LF.
  - destruct (r =? LF)%N eqn:E2.
    + apply N.eqb_eq in E2. subst r. cbn [spaced] in H.
      change (LF =? SP)%N with false in H.
      change (LF =? LF)%N with true in H. now apply IH.
    + rewrite spaced_after_newlines.
      replace (match Nat.min k 2 with O => p | _ => false end)
        with (match k with O => p | _ => false end)
        by (now destruct k as [|[|k]]).
      cbn [spaced] in H |- *. rewrite E2 in H |- *.
      destruct (r =? SP)%N eqn:E1.
      * apply andb_true_iff in H as [H Hs].
        apply andb_true_iff in H as [-> Hh]. cbn [andb].
        destruct s as [|r' s]; [discriminate|].
        rewrite (IH 0%nat false Hs), andb_true_r.
        cbn [collapse_from].
        destruct (r' =? LF)%N eqn:E3; [|exact Hh].
        apply N.eqb_eq in E3. subst r'. vm_compute in Hh. discriminate.
      * apply andb_true_iff in H as [-> Hs]. cbn [andb].
        now apply (IH 0%nat true).
Qed.

Lemma dropWhile_tidy (s : gostring) :
  forall p, spaced p s = true -> spaced false (dropWhile IsSpace s) = true.
Proof.
  induction s as [|r s IH]; intros p H; [reflexivity|].
  cbn [dropWhile spaced] in H |- *.
  destruct (r =? SP)%N eqn:E1.
  - apply N.eqb_eq in E1. subst r. change (IsSpace SP) with true. cbn iota.
    apply andb_true_iff in H as [_ Hs]. now apply (IH false).
  - destruct (r =? LF)%N eqn:E2.
    + apply N.eqb_eq in E2. subst r. change (IsSpace LF) with true. cbn iota.
      now apply (IH false).
    + apply andb_true_iff in H as [Hr Hs].
      apply negb_true_iff in Hr. rewrite Hr.
      cbn [spaced]. now rewrite E1, E2, Hr.
Qed.

Lemma spaced_prefix (a b : gostring) :
  (forall t, a <> t ++ [SP]) ->
  forall p, spaced p (a ++ b) = true -> spaced p a = true.
Proof.
  induction a as [|r a IH]; intros Hlast p H; [reflexivity|].
  assert (forall t, a <> t ++ [SP]) as Hlast'.
  { intros t Ht. apply (Hlast (r :: t)). now rewrite Ht. }
  cbn [app spaced] in H |- *.
  destruct (r =? SP)%N eqn:E1.
  - apply N.eqb_eq in E1. subst r.
    destruct a as [|r' a]; [now destruct (Hlast [])|].
    cbn [app] in H.
    apply andb_true_iff in H as [H Hs]. apply andb_true_iff in H as [-> Hh].
    rewrite Hh. cbn [andb]. now apply IH.
  - destruct (r =? LF)%N eqn:E2; [now apply IH|].
    apply andb_true_iff in H as [-> Hs]. cbn [andb]. now apply IH.
Qed.

Lemma TrimSpace_tidy (s : gostring) (p : bool) :
  spaced p s = true -> spaced false (TrimSpace s) = true.
Proof.
  intros H. unfold TrimSpace, TrimLeftFunc.
  apply dropWhile_tidy in H.
  destruct (TrimRightFunc_prefix (dropWhile IsSpace s) IsSpace) as [x Hx].
  rewrite Hx in H. apply (spaced_prefix _ x); [|exact H].
  intros t Ht. apply TrimRightFunc_last in Ht. vm_compute in Ht. discriminate.
Qed.

Lemma normalize_tidy (s : gostring) :
  spaced false s = true -> spaced false (normalize s) = true.
Proof.
  intros H. unfold normalize, newlineRe_ReplaceAll.
  rewrite (Replace_nlsp_tidy s false H).
  apply (TrimSpace_tidy _ false). now apply collapse_from_tidy.
Qed.

Lemma endsWord_last (a : gostring) :
  endsWord false a = true -> exists a' x, a = a' ++ [x] /\ IsSpace x = false.
Proof.
  destruct a as [|r a] using rev_ind; [discriminate|]. clear IHa.
  rewrite endsWord_app. cbn [endsWord]. intros H.
  exists a, r. split; [reflexivity | now apply negb_true_iff].
Qed.

Lemma spaced_spec (s : gostring) :
  forall p, spaced p s = true ->
    (forall r, In r s -> IsSpace r = true -> r = SP \/ r = LF)
    /\ (forall a b, s = a ++ SP :: b ->
          endsWord p a = true
          /\ exists y b', b = y :: b' /\ IsSpace y = false).
Proof.
  induction s as [|r s IH]; intros p H.
  - split; [intros r [] | intros [|? ?] b Hab; discriminate].
  - cbn [spaced] in H.
    assert (exists q, spaced q s = true
                      /\ endsWord p [r] = q
                      /\ (IsSpace r = true -> r = SP \/ r = LF)
                      /\ (r = SP -> p = true
                          /\ exists y b', s = y :: b' /\ IsSpace y = false))
      as [q [Hs [Hq [Hr Hsp]]]].
    { destruct (r =? SP)%N eqn:E1.
      - apply N.eqb_eq in E1. subst r.
        apply andb_true_iff in H as [H Hs].
        apply andb_true_iff in H as [-> Hh].
        exists false. split; [exact Hs|]. split; [reflexivity|].
        split; [now left|]. intros _. split; [reflexivity|].
        destruct s as [|y b']; [discriminate|].
        exists y, b'. split; [reflexivity | now apply negb_true_iff].
      - apply N.eqb_neq in E1. destruct (r =? LF)%N eqn:E2.
        + apply N.eqb_eq in E2. subst r.
          exists false. split; [exact H|]. split; [reflexivity|].
          split; [now right | congruence].
        + apply andb_true_iff in H as [Hr Hs].
          exists true. cbn [endsWord]. split; [exact Hs|].
          split; [exact Hr|]. split; [|congruence].
          apply negb_true_iff in Hr. congruence. }
    destruct (IH q Hs) as [IH1 IH2]. split.
    + intros x [<- | Hx]; [exact Hr | now apply IH1].
    + intros [|x a] b Hab; cbn [app] in Hab; injection Hab as Hx Hab.
      * subst r s. destruct (Hsp eq_refl) as [-> Hnext].
        split; [reflexivity | exact Hnext].
      * subst x. destruct (IH2 a b Hab) as [He Hnext].
        split; [|exact Hnext].
        cbn [endsWord] in Hq |- *. now rewrite Hq.
Qed.

(** X11: for a document without [table] elements, the only white space
    of the string a render returns is the space and the newline, and
    every space stands between two runes that are not white space: words
    are a single space apart and no line starts or ends with a space. *)
Theorem table_free_output_is_tidy (doc : Node) (o : list Options)
  (out : gostring) :
  noTable doc = true ->
  FromHTMLNode doc o = Returns (out, None) ->
  (forall r, In r out -> IsSpace r = true -> r = SP \/ r = LF)
  /\ (forall a b, out = a ++ SP :: b ->
        (exists a' x, a = a' ++ [x] /\ IsSpace x = false)
        /\ (exists y b', b = y :: b' /\ IsSpace y = false)).
Proof.
  intros Hno Hrun.
  pose proof (traverse_keeps tidyW false tidyW_fresh tidyW_flushN
                tidyW_write ltac:(discriminate) true doc (or_intror Hno)
                (newCtx (match o with o0 :: _ => o0 | [] => zeroOptions end))
                ltac:(right; cbn; lia) (tidyW_fresh 78)) as Hinv.
  unfold FromHTMLNode, FromHTMLNode_with in Hrun. cbv zeta in Hrun.
  unfold traverse in Hrun.
  destruct (traverse_gen true doc _) as [[ctx [e|]]|msg]; try discriminate.
  injection Hrun as <-. destruct Hinv as [Hs _].
  apply normalize_tidy in Hs.
  destruct (spaced_spec _ false Hs) as [H1 H2]. split; [exact H1|].
  intros a b Hab. destruct (H2 a b Hab) as [He Hnext].
  split; [now apply endsWord_last | exact Hnext].
Qed.

(** ** Plain text: rendering changes white space only *)

Lemma visible_app (a b : gostring) : visible (a ++ b) = visible a ++ visible b.
Proof. apply filter_app. Qed.

Lemma visible_newlines (k : nat) : visible (repeat LF k) = [].
Proof. apply filter_repeat_LF. Qed.

Lemma visible_visible (s : gostring) : visible (visible s) = visible s.
Proof.
  unfold visible. induction s as [|r s IH]; [reflexivity|].
  cbn [filter]. destruct (negb (IsSpace r)) eqn:E; [|exact IH].
  cbn [filter]. now rewrite E, IH.
Qed.

Lemma visible_flushN (l : lineWrapper) (n : Z) :
  visible (lw_out (flushN l n)) = visible (lw_out l).
Proof.
  destruct (flushN_out l n) as [k [-> _]].
  now rewrite visible_app, visible_newlines, app_nil_r.
Qed.

Lemma visible_emit_wrapper (level : Z) (l : lineWrapper) (data : gostring) :
  visible (lw_out (emit_wrapper level l data))
  = visible (lw_out l) ++ visible data.
Proof.
  unfold emit_wrapper. destruct (0 <? level).
  - cbn [lw_Write lw_out]. unfold flush.
    now rewrite visible_app, visible_flushN.
  - destruct (gostring_eqb data []) eqn:E0.
    { apply gostring_eqb_eq in E0. subst. now rewrite app_nil_r. }
    destruct (gostring_eqb data [LF]) eqn:E1.
    { apply gostring_eqb_eq in E1. subst. unfold flush.
      now rewrite visible_flushN, app_nil_r. }
    destruct (gostring_eqb data [LF; LF]) eqn:E2.
    { apply gostring_eqb_eq in E2. subst.
      now rewrite visible_flushN, app_nil_r. }
    unfold visible, write.
    rewrite (fold_write_field_keeps (Fields data) (Fields_words data)).
    cbn [lw_out]. rewrite Fields_concat. f_equal.
    destruct ((lw_n l =? 0) && lw_printed l); [|reflexivity].
    destruct (flush_out l) as [k ->].
    now rewrite filter_app, filter_repeat_LF, app_nil_r.
Qed.

Lemma textOf_eq type atom data attr kids :
  textOf (mkNode type atom data attr kids)
  = match type with
    | TextNode => visible data
    | ElementNode => elementText atom kids (concat (map textOf kids))
    | _ => concat (map textOf kids)
    end.
Proof. reflexivity. Qed.

Lemma traverseChildren_text (b : bool) (kids : list Node) :
  Forall (keepsText b) kids ->
  forall ctx,
    plainText (options ctx) ->
    match traverseChildren_with (traverse_gen b) kids ctx with
    | Returns (ctx', _) =>
        visible (buf ctx') = visible (buf ctx) ++ concat (map textOf kids)
    | Panics _ => True
    end.
Proof.
  induction 1 as [|c rest Hc Hrest IH]; intros ctx Ho;
    cbn [traverseChildren_with map concat]; [now rewrite app_nil_r|].
  specialize (Hc ctx Ho).
  pose proof (traverse_wb b c ctx) as Hwb.
  destruct (traverse_gen b c ctx) as [[ctx' [e|]]|msg]; cbn [check].
  - destruct Hwb as [Hwb _]. discriminate.
  - destruct Hwb as [_ [Hopt _]]. rewrite <- Hopt in Ho.
    specialize (IH ctx' Ho).
    destruct (traverseChildren_with (traverse_gen b) rest ctx')
      as [[ctx'' e]|msg]; [|exact Logic.I].
    now rewrite IH, Hc, app_assoc.
  - exact Logic.I.
Qed.

Create Rewrite HintDb vis.
Hint Rewrite visible_emit_wrapper visible_flushN visible_app
  visible_visible app_nil_r : vis.

Ltac txt_children :=
  match goal with
  | IHw : Forall (wellBehavedNode ?b) ?ks,
    IHl : Forall (keepsText ?b) ?ks
    |- context [traverseChildren_with (traverse_gen ?b) ?ks ?c] =>
      let Hw := fresh "Hw" in
      let Hl := fresh "Hl" in
      pose proof (traverseChildren_wb b ks IHw c) as Hw;
      pose proof (traverseChildren_text b ks IHl c) as Hl;
      destruct (traverseChildren_with (traverse_gen b) ks c)
        as [[[? ? ? ? ? ? ? ? ?] [?|]]|?];
      unfold wellBehaved, frame in Hw; ctx_proj_in Hw; ctx_proj_in Hl;
      [ destruct Hw as [Hw _]; discriminate Hw
      | destruct Hw as [_ [? [? [? ?]]]]; subst;
        let Hi := fresh "Htext" in
        assert (Hi := Hl ltac:(assumption)); clear Hl;
        rewrite ?buf_mk in Hi; cbn [lw_out] in Hi
      | clear Hw Hl ]
  end.

Ltac txt_step :=
  first
    [ progress ctx_norm
    | match goal with
      | H : TextOnly ?o = true |- context [TextOnly ?o] => rewrite H
      | H : OmitLinks ?o = true |- context [OmitLinks ?o] => rewrite H
      | H : PrettyTables ?o = false |- context [PrettyTables ?o] => rewrite H
      end
    | progress cbn [negb andb orb]
    | txt_children
    | match goal with
      | |- context [if ?x then _ else _] => destruct x eqn:?
      end ].

Ltac txt_finish :=
  try exact Logic.I;
  unfold flush in *;
  cbn [lw_out elementText map concat] in *;
  repeat match goal with
         | H : negb _ = false |- _ => apply negb_false_iff in H
         | H : gostring_eqb _ _ = true |- _ => apply gostring_eqb_eq in H
         | H : Atom_eqb _ _ = _ |- _ => rewrite H
         end;
  repeat (autorewrite with vis;
          try match goal with
              | H : visible (lw_out ?w) = _ |- context [visible (lw_out ?w)] =>
                  rewrite H
              | H : getAttrVal _ _ = [] |- _ => rewrite H
              end);
  autorewrite with vis;
  rewrite <- ?app_assoc; cbn [app];
  try reflexivity; try congruence.

Lemma handleElement_text (b : bool) (kids : list Node) :
  Forall (wellBehavedNode b) kids -> Forall (keepsText b) kids ->
  forall atom attr ctx,
    plainText (options ctx) ->
    match handleElement_with b (traverse_gen b) atom attr kids ctx with
    | Returns (ctx', _) =>
        visible (buf ctx')
        = visible (buf ctx) ++ elementText atom kids (concat (map textOf kids))
    | Panics _ => True
    end.
Proof.
  intros IHw IHl atom attr [p t o e j bq tl w ip] Ho.
  cbn [options] in Ho. rewrite buf_mk.
  assert (plainText o) as Ho' by exact Ho.
  destruct Ho' as [HT [HO HP]].
  unfold handleElement_with, tableCase_with, handleTableElement_with,
    paragraphHandler_with, renderEachChild_with.
  destruct atom;
    try solve [repeat txt_step; txt_finish].
  all: destruct kids as [|img [|img' rest]];
    repeat txt_step; txt_finish.
Qed.

Lemma visible_dropWhile (s : gostring) :
  visible (dropWhile IsSpace s) = visible s.
Proof.
  induction s as [|r s IH]; [reflexivity|].
  cbn [dropWhile]. destruct (IsSpace r) eqn:E; [|reflexivity].
  unfold visible in *. cbn [filter]. now rewrite E.
Qed.

Lemma visible_rev (s : gostring) : visible (rev s) = rev (visible s).
Proof.
  unfold visible. induction s as [|r s IH]; [reflexivity|].
  cbn [rev filter]. rewrite filter_app, IH. cbn [filter].
  destruct (negb (IsSpace r)); cbn [rev]; [reflexivity | apply app_nil_r].
Qed.

Lemma visible_TrimSpace (s : gostring) : visible (TrimSpace s) = visible s.
Proof.
  unfold TrimSpace, TrimRightFunc, TrimLeftFunc.
  now rewrite visible_rev, visible_dropWhile, visible_rev, rev_involutive,
    visible_dropWhile.
Qed.

Lemma visible_Replace_nlsp (s : gostring) :
  visible (Replace_nlsp s) = visible s.
Proof.
  assert (forall n s, (length s <= n)%nat ->
                      visible (Replace_nlsp s) = visible s) as H.
  { clear s. induction n as [|n IH]; intros [|r s] Hn; try reflexivity;
      cbn [length] in Hn; [lia|].
    cbn [Replace_nlsp]. destruct (r =? LF)%N eqn:E.
    - apply N.eqb_eq in E. subst r. destruct s as [|r' s]; [reflexivity|].
      cbn [length] in Hn.
      destruct (r' =? SP)%N eqn:E'.
      + apply N.eqb_eq in E'. subst r'.
        change (visible (LF :: Replace_nlsp s)) with (visible (Replace_nlsp s)).
        change (visible (LF :: SP :: s)) with (visible s).
        apply IH. lia.
      + change (visible (LF :: Replace_nlsp (r' :: s)))
          with (visible (Replace_nlsp (r' :: s))).
        change (visible (LF :: r' :: s)) with (visible (r' :: s)).
        apply IH. cbn [length]. lia.
    - unfold visible in *. cbn [filter].
      rewrite (IH s) by lia. reflexivity. }
  now apply (H (length s)).
Qed.

Lemma visible_collapse_from (s : gostring) :
  forall k, visible (collapse_from k s) = visible s.
Proof.
  induction s as [|r s IH]; intros k; cbn [collapse_from].
  - apply visible_newlines.
  - destruct (r =? LF)%N eqn:E.
    + apply N.eqb_eq in E. subst r. rewrite IH. reflexivity.
    + rewrite visible_app, visible_newlines. cbn [app].
      unfold visible in *. cbn [filter]. now rewrite IH.
Qed.

Lemma visible_normalize (s : gostring) : visible (normalize s) = visible s.
Proof.
  unfold normalize, newlineRe_ReplaceAll.
  now rewrite visible_TrimSpace, visible_collapse_from, visible_Replace_nlsp.
Qed.

Lemma traverse_keepsText (b : bool) (node : Node) : keepsText b node.
Proof.
  induction node as [type atom data attr kids IH] using Node_induction.
  assert (Forall (wellBehavedNode b) kids) as IHw.
  { apply Forall_forall. intros c _. apply traverse_wb. }
  intros ctx Ho. rewrite traverse_gen_eq, textOf_eq.
  cbn [Type_ DataAtom Data Attr Children].
  destruct type; try (now apply traverseChildren_text).
  - rewrite emit_eq. destruct ctx as [p t o e j bq tl w ip].
    ctx_norm. rewrite ?buf_mk, visible_emit_wrapper. f_equal.
    destruct ip; [reflexivity | apply visible_TrimSpace].
  - now apply handleElement_text.
Qed.


(** * The program in memory *)

(** ** Stores *)

Lemma upd_length (st : store) (x : cell) :
  forall a, length (upd st a x) = length st.
Proof.
  induction st as [|c st IH]; intros [|a]; cbn [upd length];
    try reflexivity.
  now rewrite IH.
Qed.

Lemma nth_error_upd_same (st : store) (x : cell) :
  forall a, (a < length st)%nat -> nth_error (upd st a x) a = Some x.
Proof.
  induction st as [|c st IH]; intros [|a] H; cbn [length] in H;
    try lia; cbn [upd nth_error]; [reflexivity|].
  apply IH. lia.
Qed.

Lemma nth_error_upd_other (st : store) (x : cell) :
  forall a b, a <> b -> nth_error (upd st a x) b = nth_error st b.
Proof.
  induction st as [|c st IH]; intros [|a] [|b] H; cbn [upd nth_error];
    try reflexivity; try congruence.
  apply IH. congruence.
Qed.

Lemma upd_upd (st : store) (x y : cell) :
  forall a, upd (upd st a x) a y = upd st a y.
Proof.
  induction st as [|c st IH]; intros [|a]; cbn [upd]; try reflexivity.
  now rewrite IH.
Qed.

Lemma upd_same (st : store) (x : cell) :
  forall a, nth_error st a = Some x -> upd st a x = st.
Proof.
  induction st as [|c st IH]; intros [|a] H; cbn [upd nth_error] in *;
    try discriminate.
  - now injection H as ->.
  - now rewrite IH.
Qed.

Lemma upd_app (st t : store) (x : cell) :
  forall a, (a < length st)%nat -> upd (st ++ t) a x = upd st a x ++ t.
Proof.
  induction st as [|c st IH]; intros [|a] H; cbn [length] in H;
    try lia; cbn [upd app]; [reflexivity|].
  rewrite IH; [reflexivity | lia].
Qed.

Lemma upd_app_end (st t : store) (x y : cell) :
  upd (st ++ x :: t) (length st) y = st ++ y :: t.
Proof.
  induction st as [|c st IH]; cbn [upd app length]; [reflexivity|].
  now rewrite IH.
Qed.

Lemma nth_error_app_end (st t : store) (x : cell) :
  nth_error (st ++ x :: t) (length st) = Some x.
Proof.
  induction st as [|c st IH]; cbn [nth_error app length];
    [reflexivity | exact IH].
Qed.

Lemma ownsBuf_lt (st : store) (a : addr) (c : textifyTraverseContext) :
  ownsBuf st a c -> (a < length st)%nat.
Proof. intros H. apply nth_error_Some. unfold ownsBuf in H. congruence. Qed.

Section Ins.

Variables (st : store) (a : addr).
Hypothesis a_valid : (a < length st)%nat.

Lemma ins_length x tail :
  length (ins st a x tail) = (length st + length tail)%nat.
Proof. unfold ins. now rewrite length_app, upd_length. Qed.

Lemma ins_lookup x tail : nth_error (ins st a x tail) a = Some x.
Proof.
  unfold ins. rewrite nth_error_app1 by (now rewrite upd_length).
  now apply nth_error_upd_same.
Qed.

Lemma ins_upd x y tail : upd (ins st a x tail) a y = ins st a y tail.
Proof.
  unfold ins. rewrite upd_app by (now rewrite upd_length).
  now rewrite upd_upd.
Qed.

Lemma ins_ins x y tail tail' :
  ins (ins st a x tail) a y tail' = ins st a y (tail ++ tail').
Proof.
  unfold ins at 1. rewrite ins_upd. unfold ins. now rewrite app_assoc.
Qed.

Lemma ins_snoc x tail t2 :
  ins st a x tail ++ t2 = ins st a x (tail ++ t2).
Proof. unfold ins. now rewrite app_assoc. Qed.

Lemma ins_tail_as_app x t1 :
  length (upd st a x ++ t1) = (length st + length t1)%nat.
Proof. now rewrite length_app, upd_length. Qed.

Lemma ins_lookup_tail x t1 y t2 :
  nth_error (ins st a x (t1 ++ y :: t2)) (length st + length t1)%nat = Some y.
Proof.
  unfold ins. rewrite app_assoc, <- (ins_tail_as_app x).
  apply nth_error_app_end.
Qed.

Lemma ins_upd_tail x t1 y z t2 :
  upd (ins st a x (t1 ++ y :: t2)) (length st + length t1)%nat z
  = ins st a x (t1 ++ z :: t2).
Proof.
  unfold ins. rewrite !app_assoc, <- (ins_tail_as_app x).
  apply upd_app_end.
Qed.

Lemma ins_ins_tail x t1 y z t2 tail' :
  ins (ins st a x (t1 ++ y :: t2)) (length st + length t1)%nat z tail'
  = ins st a x (t1 ++ z :: t2 ++ tail').
Proof.
  unfold ins at 1. rewrite ins_upd_tail. unfold ins.
  now rewrite <- !app_assoc.
Qed.

Lemma ins_self c : ownsBuf st a c -> ins st a (mkCell c a) [] = st.
Proof. intros H. unfold ins. now rewrite app_nil_r, upd_same. Qed.

(** ** Steps of a computation on a store *)

Lemma bind_load {X} (k : _ -> M X) x tail :
  bindM (load a) k (ins st a x tail) = k (cell_ctx x) (ins st a x tail).
Proof. unfold bindM, load. now rewrite ins_lookup. Qed.

Lemma bind_loadOut {X} (k : _ -> M X) x tail :
  bindM (loadOut a) k (ins st a x tail) = k (cell_out x) (ins st a x tail).
Proof. unfold bindM, loadOut. now rewrite ins_lookup. Qed.

Lemma bind_modify {X} (k : _ -> M X) f x tail :
  bindM (modify a f) k (ins st a x tail)
  = k tt (ins st a (mkCell (f (cell_ctx x)) (cell_out x)) tail).
Proof. unfold bindM, modify. now rewrite ins_lookup, ins_upd. Qed.

Lemma run_modify f x tail :
  modify a f (ins st a x tail)
  = Returns (tt, ins st a (mkCell (f (cell_ctx x)) (cell_out x)) tail).
Proof. unfold modify. now rewrite ins_lookup, ins_upd. Qed.

Lemma bind_alloc {X} (k : _ -> M X) mk x tail :
  bindM (alloc mk) k (ins st a x tail)
  = k (length st + length tail)%nat
      (ins st a x (tail ++ [mk (length st + length tail)%nat])).
Proof. unfold bindM, alloc. now rewrite ins_length, ins_snoc. Qed.

Lemma bind_load_tail {X} (k : _ -> M X) x t1 y t2 :
  bindM (load (length st + length t1)%nat) k (ins st a x (t1 ++ y :: t2))
  = k (cell_ctx y) (ins st a x (t1 ++ y :: t2)).
Proof. unfold bindM, load. now rewrite ins_lookup_tail. Qed.

Lemma bind_modify_tail {X} (k : _ -> M X) f x t1 y t2 :
  bindM (modify (length st + length t1)%nat f) k (ins st a x (t1 ++ y :: t2))
  = k tt (ins st a x (t1 ++ mkCell (f (cell_ctx y)) (cell_out y) :: t2)).
Proof.
  unfold bindM, modify. now rewrite ins_lookup_tail, ins_upd_tail.
Qed.

End Ins.

Lemma bind_ret {X Y} (x : X) (k : X -> M Y) (s : store) :
  bindM (retM x) k s = k x s.
Proof. reflexivity. Qed.

Lemma bind_assoc {X Y Z} (m : M X) (k1 : X -> M Y) (k2 : Y -> M Z)
  (s : store) :
  bindM (bindM m k1) k2 s = bindM m (fun x => bindM (k1 x) k2) s.
Proof. unfold bindM. destruct (m s) as [[x s']|msg]; reflexivity. Qed.

Lemma bind_eq {X Y} (m : M X) (k : X -> M Y) (s s' : store) (x : X) :
  m s = Returns (x, s') -> bindM m k s = k x s'.
Proof. intros H. unfold bindM. now rewrite H. Qed.

Lemma bind_panics {X Y} (m : M X) (k : X -> M Y) (s : store) msg :
  m s = Panics msg -> bindM m k s = Panics msg.
Proof. intros H. unfold bindM. now rewrite H. Qed.

Lemma bind_alloc_end {X} (k : addr -> M X) mk (s : store) :
  bindM (alloc mk) k s = k (length s) (s ++ [mk (length s)]).
Proof. reflexivity. Qed.

Lemma bind_load_at {X} (k : _ -> M X) (s : store) (a : addr) (x : cell) :
  nth_error s a = Some x -> bindM (load a) k s = k (cell_ctx x) s.
Proof. intros H. unfold bindM, load. now rewrite H. Qed.

Lemma bind_renderTable {X} (k : gostring -> M X) o hd ft rows (s : store) :
  bindM (renderTable o hd ft rows) k s
  = match tablewriter_Render o hd ft rows with
    | Returns rendered => k rendered s
    | Panics msg => Panics msg
    end.
Proof.
  unfold bindM, renderTable.
  now destruct (tablewriter_Render o hd ft rows).
Qed.

(** ** The wrapper in memory *)

Section Leaves.

Variables (st : store) (a : addr).
Hypothesis a_valid : (a < length st)%nat.

Lemma run_out_Write p c tail :
  out_Write a p (ins st a (mkCell c a) tail)
  = Returns (tt, ins st a (mkCell (buf_Write p c) a) tail).
Proof.
  unfold out_Write. rewrite (bind_loadOut st a a_valid). cbn [cell_out].
  now rewrite (run_modify st a a_valid).
Qed.

Lemma bind_out_Write {X} (k : _ -> M X) p c tail :
  bindM (out_Write a p) k (ins st a (mkCell c a) tail)
  = k tt (ins st a (mkCell (buf_Write p c) a) tail).
Proof. apply bind_eq, run_out_Write. Qed.

Lemma run_flushN_mem n c tail :
  flushN_mem a n (ins st a (mkCell c a) tail)
  = Returns (tt, ins st a (mkCell (with_wrapper (fun l => flushN l n) c) a)
                   tail).
Proof.
  destruct c as [p t o e j bq tl w ip].
  unfold flushN_mem. rewrite (bind_load st a a_valid).
  cbn [cell_ctx wrapper]. unfold flushN, with_wrapper.
  cbn [wrapper set_wrapper].
  destruct ((lw_n w =? 0) && (n <=? lw_nl w)); [destruct w; reflexivity|].
  cbv zeta. destruct (n - lw_nl w <? 1); [destruct w; reflexivity|].
  destruct (n - lw_nl w =? 1);
    rewrite (bind_out_Write _ _ _ _); rewrite (run_modify st a a_valid);
    reflexivity.
Qed.

Lemma bind_flushN_mem {X} (k : _ -> M X) n c tail :
  bindM (flushN_mem a n) k (ins st a (mkCell c a) tail)
  = k tt (ins st a (mkCell (with_wrapper (fun l => flushN l n) c) a) tail).
Proof. apply bind_eq, run_flushN_mem. Qed.

Lemma run_write_field_mem f c tail :
  write_field_mem a f (ins st a (mkCell c a) tail)
  = Returns (tt, ins st a (mkCell (with_wrapper (fun l => write_field l f) c)
                                  a) tail).
Proof.
  destruct c as [p t o e j bq tl w ip].
  unfold write_field_mem. cbv zeta. rewrite (bind_load st a a_valid).
  cbn [cell_ctx wrapper]. unfold write_field, with_wrapper.
  cbn [wrapper set_wrapper]. cbv zeta.
  destruct ((0 <? lw_n w)
            && (lw_width w <? lw_n w + lw_pendSpace w + StringWidth f)).
  - rewrite bind_assoc, bind_out_Write, (bind_modify st a a_valid),
      (bind_load st a a_valid), !bind_out_Write.
    rewrite (run_modify st a a_valid). reflexivity.
  - rewrite bind_ret, (bind_load st a a_valid), !bind_out_Write.
    rewrite (run_modify st a a_valid). reflexivity.
Qed.

Lemma run_forEach_write_field (fs : list gostring) :
  forall c tail,
    forEachM fs (write_field_mem a) (ins st a (mkCell c a) tail)
    = Returns (tt, ins st a
                     (mkCell (with_wrapper
                                (fun l => fold_left write_field fs l) c) a)
                     tail).
Proof.
  induction fs as [|f fs IH]; intros c tail; cbn [forEachM fold_left].
  - destruct c as [p t o e j bq tl w ip]. reflexivity.
  - rewrite (bind_eq _ _ _ _ _ (run_write_field_mem f c tail)), IH.
    destruct c as [p t o e j bq tl w ip]. reflexivity.
Qed.

Lemma run_write_mem text c tail :
  write_mem a text (ins st a (mkCell c a) tail)
  = Returns (tt, ins st a (mkCell (with_wrapper (fun l => write l text) c) a)
                   tail).
Proof.
  destruct c as [p t o e j bq tl w ip].
  unfold write_mem. rewrite (bind_load st a a_valid).
  cbn [cell_ctx wrapper]. unfold write, with_wrapper, flush_mem.
  cbn [wrapper set_wrapper]. cbv zeta.
  destruct ((lw_n w =? 0) && lw_printed w).
  - rewrite bind_flushN_mem, (bind_modify st a a_valid),
      run_forEach_write_field. reflexivity.
  - rewrite bind_ret, (bind_modify st a a_valid), run_forEach_write_field.
    reflexivity.
Qed.

Lemma run_emit_mem data c tail :
  emit_mem a data (ins st a (mkCell c a) tail)
  = Returns (None, ins st a (mkCell (fst (emit c data)) a) tail).
Proof.
  destruct c as [p t o e j bq tl w ip].
  unfold emit_mem. rewrite (bind_load st a a_valid).
  cbn [cell_ctx tableLevel]. unfold emit, flush_mem, flush.
  cbn [tableLevel wrapper set_wrapper].
  destruct (0 <? tl).
  - rewrite bind_flushN_mem, (bind_modify st a a_valid). reflexivity.
  - destruct (gostring_eqb data []); [reflexivity|].
    destruct (gostring_eqb data [LF]);
      [rewrite bind_flushN_mem; reflexivity|].
    destruct (gostring_eqb data [LF; LF]);
      [rewrite bind_flushN_mem; reflexivity|].
    rewrite (bind_eq _ _ _ _ _ (run_write_mem data _ tail)). reflexivity.
Qed.

Lemma bind_emit_mem {X} (k : _ -> M X) data c tail :
  bindM (emit_mem a data) k (ins st a (mkCell c a) tail)
  = k None (ins st a (mkCell (fst (emit c data)) a) tail).
Proof. apply bind_eq, run_emit_mem. Qed.

End Leaves.

(** ** The traversal in memory *)

Lemma simulates_ins (m : addr -> M error)
  (f : textifyTraverseContext -> Result) :
  simulates m f ->
  forall st a c tail,
    (a < length st)%nat ->
    match f c with
    | Returns (c', e) =>
        exists tail',
          m a (ins st a (mkCell c a) tail)
          = Returns (e, ins st a (mkCell c' a) (tail ++ tail'))
    | Panics msg => m a (ins st a (mkCell c a) tail) = Panics msg
    end.
Proof.
  intros Hm st a c tail Ha.
  specialize (Hm (ins st a (mkCell c a) tail) a c
                 (ins_lookup st a Ha _ _)).
  destruct (f c) as [[c' e]|msg]; [|exact Hm].
  destruct Hm as [tail' Hm]. exists tail'.
  now rewrite Hm, (ins_ins st a Ha).
Qed.

Lemma simulates_ins_tail (m : addr -> M error)
  (f : textifyTraverseContext -> Result) :
  simulates m f ->
  forall st a x t1 c t2,
    match f c with
    | Returns (c', e) =>
        exists tail',
          m (length st + length t1)%nat
            (ins st a x (t1 ++ mkCell c (length st + length t1)%nat :: t2))
          = Returns
              (e, ins st a x
                    (t1 ++ mkCell c' (length st + length t1)%nat
                        :: t2 ++ tail'))
    | Panics msg =>
        m (length st + length t1)%nat
          (ins st a x (t1 ++ mkCell c (length st + length t1)%nat :: t2))
        = Panics msg
    end.
Proof.
  intros Hm st a x t1 c t2.
  specialize (Hm (ins st a x
                    (t1 ++ mkCell c (length st + length t1)%nat :: t2))
                 (length st + length t1)%nat c
                 (ins_lookup_tail _ _ _ _ _ _)).
  destruct (f c) as [[c' e]|msg]; [|exact Hm].
  destruct Hm as [tail' Hm]. exists tail'.
  now rewrite Hm, ins_ins_tail.
Qed.

Lemma traverseChildren_sim (kids : list Node) :
  Forall simNode kids ->
  simulates (traverseChildren_mem_with traverse_mem kids)
            (traverseChildren_with (traverse_gen true) kids).
Proof.
  induction 1 as [|k rest Hk Hrest IH]; intros st a c Hc;
    cbn [traverseChildren_with traverseChildren_mem_with].
  - exists []. unfold retM.
    now rewrite (ins_self _ _ _ Hc).
  - pose proof (ownsBuf_lt _ _ _ Hc) as Ha.
    specialize (Hk st a c Hc). unfold checkM.
    destruct (traverse_gen true k c) as [[c' [e|]]|msg]; cbn [check].
    + destruct Hk as [tail Hk]. rewrite (bind_eq _ _ _ _ _ Hk).
      now exists tail.
    + destruct Hk as [tail Hk]. rewrite (bind_eq _ _ _ _ _ Hk).
      specialize (IH (ins st a (mkCell c' a) tail) a c'
                     (ins_lookup st a Ha _ _)).
      destruct (traverseChildren_with (traverse_gen true) rest c')
        as [[c'' e]|msg]; [|exact IH].
      destruct IH as [tail' IH]. exists (tail ++ tail').
      now rewrite IH, (ins_ins st a Ha).
    + now rewrite (bind_panics _ _ _ _ Hk).
Qed.

Lemma FromHTMLNode_sim (doc : Node) (o : list Options) :
  simNode doc ->
  forall st,
    match FromHTMLNode doc o with
    | Returns r =>
        exists c tail,
          FromHTMLNode_mem doc o st
          = Returns (r, st ++ mkCell c (length st) :: tail)
    | Panics msg => FromHTMLNode_mem doc o st = Panics msg
    end.
Proof.
  intros Hdoc st.
  unfold FromHTMLNode, FromHTMLNode_with, FromHTMLNode_mem,
    FromHTMLNode_mem_with. cbv zeta.
  set (opts := match o with o0 :: _ => o0 | [] => zeroOptions end).
  rewrite bind_alloc_end.
  specialize (Hdoc (st ++ [mkCell (newCtx opts) (length st)]) (length st)
                   (newCtx opts) (nth_error_app_end st [] _)).
  change (mkCtx [] zeroTableCtx opts false false 0 0
                (mkLineWrapper [] 78 0 0 0 false) false)
    with (newCtx opts).
  unfold traverse.
  destruct (traverse_gen true doc (newCtx opts)) as [[c' [e|]]|msg].
  - destruct Hdoc as [tail Hdoc]. rewrite (bind_eq _ _ _ _ _ Hdoc).
    unfold ins. rewrite upd_app_end, <- app_assoc. cbn [app].
    eexists _, _. reflexivity.
  - destruct Hdoc as [tail Hdoc]. rewrite (bind_eq _ _ _ _ _ Hdoc).
    unfold ins. rewrite upd_app_end, <- app_assoc. cbn [app].
    rewrite (bind_load_at _ _ _ _ (nth_error_app_end st tail _)).
    cbn [cell_ctx]. eexists _, _. reflexivity.
  - now rewrite (bind_panics _ _ _ _ Hdoc).
Qed.

Lemma renderEachChild_loop_sim (kids : list Node) :
  Forall simNode kids ->
  forall b st a x,
    nth_error st a = Some x ->
    match renderEachChild_loop (traverse_gen true) (options (cell_ctx x))
            kids b with
    | Returns r =>
        exists tail,
          renderEachChild_loop_mem traverse_mem a kids b st
          = Returns (r, st ++ tail)
    | Panics msg =>
        renderEachChild_loop_mem traverse_mem a kids b st = Panics msg
    end.
Proof.
  induction 1 as [|k rest Hk Hrest IH]; intros b st a x Hx;
    cbn [renderEachChild_loop renderEachChild_loop_mem].
  - exists []. unfold retM. now rewrite app_nil_r.
  - rewrite (bind_load_at _ _ _ _ Hx).
    pose proof (FromHTMLNode_sim k [options (cell_ctx x)] Hk st) as Hf.
    unfold FromHTMLNode, traverse in Hf. fold FromHTMLNode_mem.
    destruct (FromHTMLNode_with (traverse_gen true) k [options (cell_ctx x)])
      as [[s [e|]]|msg].
    + destruct Hf as [c' [tail0 Hf]]. rewrite (bind_eq _ _ _ _ _ Hf).
      now eexists.
    + destruct Hf as [c' [tail0 Hf]]. rewrite (bind_eq _ _ _ _ _ Hf).
      set (tail := mkCell c' (length st) :: tail0) in *.
      cbv beta iota zeta.
      assert (nth_error (st ++ tail) a = Some x) as Hx'.
      { rewrite nth_error_app1; [exact Hx|].
        apply nth_error_Some. congruence. }
      specialize (IH (match rest with
                      | [] => b ++ s
                      | _ :: _ => (b ++ s) ++ [LF]
                      end) (st ++ tail) a x Hx').
      destruct (renderEachChild_loop (traverse_gen true)
                  (options (cell_ctx x)) rest _) as [r|msg]; [|exact IH].
      destruct IH as [tail' IH]. exists (tail ++ tail').
      rewrite app_assoc. exact IH.
    + now rewrite (bind_panics _ _ _ _ Hf).
Qed.

Lemma run_as_bind {X} (m : M X) (s : store) : m s = bindM m retM s.
Proof. unfold bindM, retM. now destruct (m s) as [[x s']|msg]. Qed.

Lemma bind_panic {X Y} (msg : string) (k : X -> M Y) (s : store) :
  bindM (panicM msg) k s = Panics msg.
Proof. reflexivity. Qed.

Ltac mem_children :=
  match goal with
  | IH : Forall simNode ?ks, Ha : (?a < length ?st)%nat
    |- context [bindM (traverseChildren_mem_with traverse_mem ?ks ?a) _
                  (ins ?st ?a (mkCell ?c ?a) ?tail)] =>
      let H := fresh "Hk" in
      pose proof (simulates_ins _ _ (traverseChildren_sim ks IH)
                    st a c tail Ha) as H;
      cbv beta in H;
      destruct (traverseChildren_with (traverse_gen true) ks c)
        as [[[? ? ? ? ? ? ? ? ?] [?|]]|?];
      [ destruct H as [? H]; rewrite (bind_eq _ _ _ _ _ H); clear H
      | destruct H as [? H]; rewrite (bind_eq _ _ _ _ _ H); clear H
      | rewrite (bind_panics _ _ _ _ H); clear H ]
  | IH : Forall simNode ?ks
    |- context [bindM (traverseChildren_mem_with traverse_mem ?ks
                         (length ?st + length ?t1)%nat) _
                  (ins ?st ?a ?x (?t1 ++ mkCell ?c _ :: ?t2))] =>
      let H := fresh "Hk" in
      pose proof (simulates_ins_tail _ _ (traverseChildren_sim ks IH)
                    st a x t1 c t2) as H;
      cbv beta in H;
      destruct (traverseChildren_with (traverse_gen true) ks c)
        as [[[? ? ? ? ? ? ? ? ?] [?|]]|?];
      [ destruct H as [? H]; rewrite (bind_eq _ _ _ _ _ H); clear H
      | destruct H as [? H]; rewrite (bind_eq _ _ _ _ _ H); clear H
      | rewrite (bind_panics _ _ _ _ H); clear H ]
  | IH : Forall simNode ?ks, Ha : (?a < length ?st)%nat
    |- context [bindM (renderEachChild_loop_mem traverse_mem ?a ?ks ?b) _
                  (ins ?st ?a ?x ?tail)] =>
      let H := fresh "Hk" in
      pose proof (renderEachChild_loop_sim ks IH b (ins st a x tail) a x
                    (ins_lookup st a Ha x tail)) as H;
      cbn [cell_ctx options] in H;
      match type of H with
      | match ?r with _ => _ end =>
          destruct r as [[? [?|]]|?]
      end;
      [ destruct H as [? H]; rewrite (bind_eq _ _ _ _ _ H), ins_snoc;
        clear H
      | destruct H as [? H]; rewrite (bind_eq _ _ _ _ _ H), ins_snoc;
        clear H
      | rewrite (bind_panics _ _ _ _ H); clear H ]
  end.

Ltac mem_step :=
  first
    [ progress ctx_norm
    | progress cbn [cell_ctx cell_out Atom_eqb]
    | rewrite bind_ret
    | rewrite bind_assoc
    | rewrite bind_panic
    | rewrite bind_renderTable
    | match goal with
      | Ha : (?a < length ?st)%nat |- _ =>
          first [ rewrite (bind_load st a Ha)
                | rewrite (bind_modify st a Ha)
                | rewrite (bind_emit_mem st a Ha)
                | rewrite (bind_flushN_mem st a Ha) ]
      end
    | rewrite bind_alloc
    | rewrite bind_load_tail
    | rewrite bind_modify_tail
    | progress unfold checkM, deferM, sub_mem, flush_mem, flush,
        with_wrapper, paragraphHandler_mem_with, tableCase_mem_with,
        handleTableElement_mem_with, renderEachChild_mem_with
    | progress cbv beta
    | mem_children
    | match goal with
      | |- context [bindM (if ?x then _ else _) _ _] => destruct x eqn:?
      | |- context [if ?x then _ else _] => destruct x eqn:?
      | |- context [match body_append ?r ?i ?x with _ => _ end] =>
          destruct (body_append r i x)
      | |- context [match tablewriter_Render ?o ?h ?f ?r with _ => _ end] =>
          destruct (tablewriter_Render o h f r)
      end ].

Ltac mem_finish :=
  try reflexivity;
  try (unfold retM; eexists; reflexivity);
  try solve
    [ exfalso;
      repeat match goal with
             | H : _ = _ |- _ =>
                 progress cbn [blockquoteLevel tableLevel options
                               justClosedDiv isPre tableCtx isInFooter] in H
             end;
      congruence ].

Lemma handleElement_sim (kids : list Node) :
  Forall simNode kids ->
  forall atom attr st a c tail,
    (a < length st)%nat ->
    match handleElement_with true (traverse_gen true) atom attr kids c with
    | Returns (c', e) =>
        exists tail',
          handleElement_mem_with traverse_mem atom attr kids a
            (ins st a (mkCell c a) tail)
          = Returns (e, ins st a (mkCell c' a) tail')
    | Panics msg =>
        handleElement_mem_with traverse_mem atom attr kids a
          (ins st a (mkCell c a) tail)
        = Panics msg
    end.
Proof.
  intros IH atom attr st a [p t o e j bq tl w ip] tail Ha.
  rewrite (run_as_bind (handleElement_mem_with _ _ _ _ _)).
  unfold handleElement_with, tableCase_with, handleTableElement_with,
    paragraphHandler_with, renderEachChild_with, handleElement_mem_with.
  destruct atom; try solve [repeat mem_step; mem_finish].
  all: destruct kids as [|img [|img' rest]]; repeat mem_step; mem_finish.
Qed.

Lemma simulates_of_ins (m : addr -> M error)
  (f : textifyTraverseContext -> Result) :
  (forall st a c tail,
      (a < length st)%nat ->
      match f c with
      | Returns (c', e) =>
          exists tail',
            m a (ins st a (mkCell c a) tail)
            = Returns (e, ins st a (mkCell c' a) tail')
      | Panics msg => m a (ins st a (mkCell c a) tail) = Panics msg
      end) ->
  simulates m f.
Proof.
  intros H st a c Hc.
  specialize (H st a c [] (ownsBuf_lt _ _ _ Hc)).
  now rewrite (ins_self _ _ _ Hc) in H.
Qed.

Lemma traverse_mem_eq type atom data attr kids (a : addr) :
  traverse_mem (mkNode type atom data attr kids) a
  = match type with
    | TextNode =>
        c <- load a ;;
        let data := if isPre c then data else TrimSpace data in
        emit_mem a data
    | ElementNode => handleElement_mem_with traverse_mem atom attr kids a
    | _ => traverseChildren_mem_with traverse_mem kids a
    end.
Proof. reflexivity. Qed.

Lemma traverse_sim (node : Node) : simNode node.
Proof.
  induction node as [type atom data attr kids IH] using Node_induction.
  apply simulates_of_ins. intros st a c tail Ha.
  rewrite traverse_gen_eq, traverse_mem_eq.
  cbn [Type_ DataAtom Data Attr Children].
  assert (match traverseChildren_with (traverse_gen true) kids c with
          | Returns (c', e) =>
              exists tail',
                traverseChildren_mem_with traverse_mem kids a
                  (ins st a (mkCell c a) tail)
                = Returns (e, ins st a (mkCell c' a) tail')
          | Panics msg =>
              traverseChildren_mem_with traverse_mem kids a
                (ins st a (mkCell c a) tail)
              = Panics msg
          end) as Hkids.
  { pose proof (simulates_ins _ _ (traverseChildren_sim kids IH)
                  st a c tail Ha) as H.
    destruct (traverseChildren_with (traverse_gen true) kids c)
      as [[c' e]|msg]; [|exact H].
    destruct H as [tail' H]. now exists (tail ++ tail'). }
  destruct type; try exact Hkids.
  - rewrite (bind_load st a Ha). cbn [cell_ctx]. cbv zeta.
    rewrite (run_emit_mem st a Ha), emit_eq. cbn [fst].
    eexists. reflexivity.
  - now apply handleElement_sim.
Qed.

(** ** Renders are self-contained *)

(** C10: [FromHTMLNode] in memory.  A call makes a new struct for its
    context, whose wrapper writes to the [buf] of that struct, and leaves
    every struct that existed before the call as it was; what it returns
    is what the function on contexts returns, whatever the memory holds,
    so that two calls on the same tree with the same options return the
    same string and error, or panic the same.  The calls that
    [renderEachChild] makes for the children of a cell are such calls:
    rendering a cell leaves every struct as it was, the context of the
    enclosing render with its buffer, counters and table accumulator
    among them, and its text is the one computed from the options
    alone. *)
Theorem render_is_self_contained (doc : Node) (o : list Options) :
  (forall st,
      match FromHTMLNode doc o with
      | Returns r =>
          exists c tail,
            FromHTMLNode_mem doc o st
            = Returns (r, st ++ mkCell c (length st) :: tail)
      | Panics msg => FromHTMLNode_mem doc o st = Panics msg
      end)
  /\ (forall st1 st2,
        outcome_map fst (FromHTMLNode_mem doc o st1)
        = outcome_map fst (FromHTMLNode_mem doc o st2))
  /\ (forall st a x,
        nth_error st a = Some x ->
        match renderEachChild (cell_ctx x) doc with
        | Returns r =>
            exists tail,
              renderEachChild_mem a (Children doc) st
              = Returns (r, st ++ tail)
        | Panics msg =>
            renderEachChild_mem a (Children doc) st = Panics msg
        end).
Proof.
  assert (forall st,
             match FromHTMLNode doc o with
             | Returns r =>
                 exists c tail,
                   FromHTMLNode_mem doc o st
                   = Returns (r, st ++ mkCell c (length st) :: tail)
             | Panics msg => FromHTMLNode_mem doc o st = Panics msg
             end) as Hrun.
  { apply FromHTMLNode_sim, traverse_sim. }
  split; [exact Hrun|]. split.
  - intros st1 st2.
    pose proof (Hrun st1) as H1. pose proof (Hrun st2) as H2.
    destruct (FromHTMLNode doc o) as [r|msg].
    + destruct H1 as [c1 [t1 ->]]. destruct H2 as [c2 [t2 ->]]. reflexivity.
    + now rewrite H1, H2.
  - intros st a x Hx.
    unfold renderEachChild, renderEachChild_with, renderEachChild_mem,
      renderEachChild_mem_with, traverse.
    apply renderEachChild_loop_sim; [|exact Hx].
    apply Forall_forall. intros c _. apply traverse_sim.
Qed.
End Renderer.

(** * Concrete renderings

    The statements below run the renderer with the table of wide runes
    [cjkWide] and the table renderer [barTable]. *)

(** C1: [<a href="http://x.y">http://x.y</a>] with default options.  The
    visible text equals the href, and the render still appends the href in
    parentheses: the test [|| !ctx.options.TextOnly] holds whenever
    [TextOnly] is off, whatever the link text is. *)
Theorem anchor_href_repeated_in_default_mode :
  FromHTMLNode cjkWide barTable
    (element A [href "http://x.y"] [text "http://x.y"]) []
  = Returns (lit "http://x.y (http://x.y)", None).
Proof. vm_compute. reflexivity. Qed.

(** C2: [<template><td>x</td></template>] with [PrettyTables].  The [td]
    is visited before any [tr] has added a row to the body, and the
    indexing [body[tmpRow]] panics. *)
Theorem td_before_tr_panics :
  FromHTMLNode cjkWide barTable
    (element Template [] [element Td [] [text "x"]]) [prettyOptions]
  = Panics "index out of range".
Proof. vm_compute. reflexivity. Qed.

(** C3: [<pre>a   b</pre>] outside a table.  The [pre] case sets [isPre]
    so that the text is not trimmed, but [emit] still hands the text to
    [write], which splits it into fields: the text reaches the buffer as
    [a b], its run of spaces gone, as in an element without any
    formatting.  And the case ends with [ctx.isPre = false] where the
    prior value was to be restored: a [pre] entered with [isPre] set (a
    [pre] inside a [pre]) leaves it cleared. *)
Theorem pre_text_is_reflowed :
  FromHTMLNode cjkWide barTable (element Pre [] [text "a   b"]) []
  = Returns (lit "a b", None)
  /\ (exists ctx,
        traverse cjkWide barTable (element Pre [] [text "a   b"])
                 (newCtx zeroOptions)
        = Returns (ctx, None)
        /\ buf ctx = lit "a b"
        /\ Contains (buf ctx) (lit "a   b") = false)
  /\ (exists ctx,
        handleElement cjkWide barTable (element Pre [] [])
                      (set_isPre (newCtx zeroOptions) true)
        = Returns (ctx, None)
        /\ isPre (set_isPre (newCtx zeroOptions) true) = true
        /\ isPre ctx = false).
Proof.
  split; [vm_compute; reflexivity|].
  split; eexists; (split; [vm_compute; reflexivity|]);
    split; vm_compute; reflexivity.
Qed.

(** C6, counterexample: a cell of a table rendered without
    [PrettyTables] whose text holds a newline and two spaces.  The
    returned string holds a newline followed by a space. *)
Lemma newline_space_survives :
  exists out,
    FromHTMLNode cjkWide barTable
      (element Table []
         [element Tbody []
            [element Tr []
               [element Td []
                  [textNode (lit "a" ++ [LF; SP; SP] ++ lit "b")]]]]) []
    = Returns (out, None)
    /\ out = lit "a" ++ [LF; SP] ++ lit "b"
    /\ Contains out [LF; SP] = true.
Proof.
  eexists. split; [vm_compute; reflexivity|].
  split; vm_compute; reflexivity.
Qed.

(** * Instances of the theorems *)

(** C7 at two words of thirty ideographs each: the second word would end
    at column 121 and goes to a new line. *)
Lemma write_wraps_greedily_witness :
  pend01 (mkLineWrapper [] 78 0 0 0 false)
  /\ lw_width (mkLineWrapper [] 78 0 0 0 false) = 78
  /\ lw_out (write cjkWide (mkLineWrapper [] 78 0 0 0 false)
               (repeat 0x4e2d%N 30 ++ [SP] ++ repeat 0x4e2d%N 30))
     = repeat 0x4e2d%N 30 ++ [LF] ++ repeat 0x4e2d%N 30.
Proof.
  split; [left; reflexivity|]. split; [reflexivity|].
  destruct (write_wraps_greedily cjkWide (mkLineWrapper [] 78 0 0 0 false)
              (repeat 0x4e2d%N 30 ++ [SP] ++ repeat 0x4e2d%N 30)
              (or_introl eq_refl) eq_refl) as [H _].
  rewrite H. vm_compute. reflexivity.
Defined.

(** Two words of thirty Latin letters each stay on one line. *)
Example latin_words_fit :
  lw_out (write cjkWide (mkLineWrapper [] 78 0 0 0 false)
            (repeat 0x61%N 30 ++ [SP] ++ repeat 0x61%N 30))
  = repeat 0x61%N 30 ++ [SP] ++ repeat 0x61%N 30.
Proof. vm_compute. reflexivity. Qed.

(** C9 at a write of two words of fifty letters: the first line. *)
Lemma wrapper_lines_fit_witness :
  cjkWide SP = false
  /\ In (repeat 0x61%N 50)
        (Split_nl
           (lw_out
              (lw_run cjkWide (mkLineWrapper [] 78 0 0 0 false)
                 [CallWrite (repeat 0x61%N 50 ++ [SP] ++ repeat 0x61%N 50);
                  CallFlush])))
  /\ (StringWidth cjkWide (repeat 0x61%N 50) <= 78
      \/ noSpace (repeat 0x61%N 50) = true).
Proof.
  assert (In (repeat 0x61%N 50)
            (Split_nl
               (lw_out
                  (lw_run cjkWide (mkLineWrapper [] 78 0 0 0 false)
                     [CallWrite
                        (repeat 0x61%N 50 ++ [SP] ++ repeat 0x61%N 50);
                      CallFlush])))) as Hin.
  { vm_compute. left. reflexivity. }
  split; [reflexivity|]. split; [exact Hin|].
  exact (proj1 (wrapper_lines_fit cjkWide _ 78 _ eq_refl Hin)).
Defined.

(** C4 at [<h1>Hi</h1>]. *)
Lemma heading_divider_witness :
  (H1 = H1 \/ H1 = H2 \/ H1 = H3)
  /\ TextOnly (options (newCtx zeroOptions)) = false
  /\ traverseChildren_with (traverse cjkWide barTable) [text "Hi"]
       (sub (newCtx zeroOptions))
     = Returns (fst (emit cjkWide (sub (newCtx zeroOptions)) (lit "Hi")), None)
  /\ handleElement cjkWide barTable
       (mkNode ElementNode H1 [] [] [text "Hi"]) (newCtx zeroOptions)
     = Returns
         (emits cjkWide (newCtx zeroOptions)
            [[LF; LF]; lit "**"; [LF]; lit "Hi"; [LF]; lit "**"; [LF; LF]],
          None).
Proof.
  assert (traverseChildren_with (traverse cjkWide barTable) [text "Hi"]
            (sub (newCtx zeroOptions))
          = Returns (fst (emit cjkWide (sub (newCtx zeroOptions)) (lit "Hi")),
                     None)) as Hsub.
  { vm_compute. reflexivity. }
  destruct (heading_divider cjkWide barTable H1 [] [text "Hi"]
              (newCtx zeroOptions) _ (or_introl eq_refl) eq_refl Hsub)
    as [_ [_ [_ [H _]]]].
  split; [left; reflexivity|]. split; [reflexivity|]. split; [exact Hsub|].
  rewrite H. vm_compute. reflexivity.
Defined.


(** C6 at [<p>  hello  </p>]. *)
Lemma output_is_normalized_witness :
  FromHTMLNode cjkWide barTable (element P [] [text "  hello  "]) []
  = Returns (lit "hello", None)
  /\ Contains (lit "hello") [LF; LF; LF] = false
  /\ (forall r t, lit "hello" = r :: t -> IsSpace r = false).
Proof.
  assert (FromHTMLNode cjkWide barTable
            (element P [] [text "  hello  "]) []
          = Returns (lit "hello", None)) as Hrun.
  { vm_compute. reflexivity. }
  destruct (output_is_normalized cjkWide barTable _ _ _ Hrun)
    as [Ha [Hb _]].
  split; [exact Hrun|]. split; [exact Ha | exact Hb].
Defined.

(** C10 at a cell of a table, rendered from an enclosing context that has
    written text: the store holds that context and is extended only. *)
Lemma render_is_self_contained_witness :
  nth_error
    [mkCell (fst (emit cjkWide (newCtx prettyOptions) (lit "before"))) 0%nat]
    0%nat
  = Some (mkCell (fst (emit cjkWide (newCtx prettyOptions) (lit "before"))) 0%nat)
  /\ exists tail,
       renderEachChild_mem cjkWide barTable 0%nat
         (Children (element Td [] [text "cell"; element B [] [text "b"]]))
         [mkCell (fst (emit cjkWide (newCtx prettyOptions) (lit "before"))) 0%nat]
       = Returns
           ((lit "cell" ++ [LF] ++ lit "*b*", None),
            [mkCell (fst (emit cjkWide (newCtx prettyOptions) (lit "before")))
                    0%nat] ++ tail).
Proof.
  destruct (render_is_self_contained cjkWide barTable
              (element Td [] [text "cell"; element B [] [text "b"]]) [])
    as [_ [_ Hcell]].
  specialize (Hcell
                [mkCell (fst (emit cjkWide (newCtx prettyOptions)
                                (lit "before"))) 0%nat]
                0%nat _ eq_refl).
  assert (renderEachChild cjkWide barTable
            (cell_ctx
               (mkCell (fst (emit cjkWide (newCtx prettyOptions)
                               (lit "before"))) 0%nat))
            (element Td [] [text "cell"; element B [] [text "b"]])
          = Returns (lit "cell" ++ [LF] ++ lit "*b*", None)) as Hpure.
  { vm_compute. reflexivity. }
  rewrite Hpure in Hcell. split; [reflexivity | exact Hcell].
Defined.

(** With [PrettyTables], a panic of the table renderer is the outcome of
    the render: a table whose footer has fewer cells than a row of its
    body, given to [strictTable]. *)
Example renderer_panic_ends_the_render :
  FromHTMLNode cjkWide strictTable
    (element Table []
       [element Tbody []
          [element Tr [] [element Td [] [text "a"];
                          element Td [] [text "b"]]];
        element Tfoot []
          [element Tr [] [element Td [] [text "f"]]]])
    [prettyOptions]
  = Panics "footer shorter than a row".
Proof. vm_compute. reflexivity. Qed.

(** * Concrete instances of the further properties *)

(** X1 at a wrapper in the middle of a line: a flush for one newline
    after a flush for two. *)
Lemma flushN_absorbs_witness :
  1 <= 2
  /\ flushN (flushN (mkLineWrapper (lit "a") 78 1 0 1 true) 2) 1
     = flushN (mkLineWrapper (lit "a") 78 1 0 1 true) 2.
Proof. split; [lia | apply flushN_absorbs; lia]. Defined.

(** X3 at an element with two [href] attributes, asked for [href] and
    for [alt]. *)
Lemma getAttrVal_first_or_empty_witness :
  getAttrVal (element A [href "u"; href "v"] []) (lit "href") = lit "u"
  /\ getAttrVal (element A [href "u"; href "v"] []) (lit "alt") = [].
Proof.
  destruct (getAttrVal_first_or_empty
              (element A [href "u"; href "v"] []) (lit "href")) as [Hfirst _].
  destruct (getAttrVal_first_or_empty
              (element A [href "u"; href "v"] []) (lit "alt")) as [_ Hnone].
  split.
  - apply (Hfirst [] (href "u") [href "v"]);
      [reflexivity | reflexivity | intros x []].
  - apply Hnone. intros x [<- | [<- | []]]; vm_compute; discriminate.
Defined.

(** X4 at a table inside a block quote. *)
Lemma traverse_keeps_frame_witness :
  exists ctx',
    traverse cjkWide barTable
      (element Blockquote [] [element Table [] [text "a"]])
      (newCtx zeroOptions)
    = Returns (ctx', None)
    /\ tableLevel ctx' = 0 /\ blockquoteLevel ctx' = 0.
Proof.
  assert (exists c,
             traverse cjkWide barTable
               (element Blockquote [] [element Table [] [text "a"]])
               (newCtx zeroOptions)
             = Returns (c, None)) as [c Hrun].
  { eexists. vm_compute. reflexivity. }
  exists c. split; [exact Hrun|].
  destruct (traverse_keeps_frame cjkWide barTable _ _ _ _ Hrun)
    as [_ [_ [Ht [Hb _]]]].
  split; [exact Ht | exact Hb].
Defined.

(** X6 at a cell outside any table, with the zero options. *)
Lemma render_without_PrettyTables_returns_witness :
  PrettyTables zeroOptions = false
  /\ exists out,
       FromHTMLNode cjkWide barTable (element Td [] [text "x"]) [zeroOptions]
       = Returns (out, None).
Proof.
  split; [reflexivity|].
  exact (proj1 (render_without_PrettyTables_returns cjkWide barTable
                  (element Td [] [text "x"]) zeroOptions eq_refl)).
Defined.

(** X7 at a cell with a text and a bold text. *)
Lemma renderEachChild_joins_witness :
  Forall2
    (fun c t =>
       FromHTMLNode cjkWide barTable c [options (newCtx zeroOptions)]
       = Returns (t, None))
    (Children (element Td [] [text "a"; element B [] [text "b"]]))
    [lit "a"; lit "*b*"]
  /\ renderEachChild cjkWide barTable (newCtx zeroOptions)
       (element Td [] [text "a"; element B [] [text "b"]])
     = Returns (Join_nl [lit "a"; lit "*b*"], None).
Proof.
  assert (Forall2
            (fun c t =>
               FromHTMLNode cjkWide barTable c [options (newCtx zeroOptions)]
               = Returns (t, None))
            (Children (element Td [] [text "a"; element B [] [text "b"]]))
            [lit "a"; lit "*b*"]) as H.
  { constructor; [vm_compute; reflexivity|].
    constructor; [vm_compute; reflexivity | constructor]. }
  split; [exact H|].
  exact (renderEachChild_joins cjkWide barTable _ _ _ H).
Defined.

(** X8 at two texts with a line break between them. *)
Lemma output_lines_come_from_buffer_witness :
  exists out,
    FromHTMLNode cjkWide barTable
      (element Div [] [text "a"; element Br [] []; text "b"]) []
    = Returns (out, None)
    /\ exists ctx,
         traverse cjkWide barTable
           (element Div [] [text "a"; element Br [] []; text "b"])
           (newCtx zeroOptions)
         = Returns (ctx, None)
         /\ forall line, In line (Split_nl out) ->
              exists line0, In line0 (Split_nl (buf ctx))
                            /\ exists before after,
                                 line0 = before ++ line ++ after.
Proof.
  assert (exists out,
             FromHTMLNode cjkWide barTable
               (element Div [] [text "a"; element Br [] []; text "b"]) []
             = Returns (out, None)) as [out Hrun].
  { eexists. vm_compute. reflexivity. }
  exists out. split; [exact Hrun|].
  exact (output_lines_come_from_buffer cjkWide barTable _ _ _ Hrun).
Defined.

(** X9 at a paragraph of two words of fifty letters: the first line. *)
Lemma rendered_lines_fit_witness :
  cjkWide SP = false
  /\ noTable (element P []
                [textNode (repeat 0x61%N 50 ++ [SP] ++ repeat 0x61%N 50)])
     = true
  /\ (exists out,
         FromHTMLNode cjkWide barTable
           (element P []
              [textNode (repeat 0x61%N 50 ++ [SP] ++ repeat 0x61%N 50)]) []
         = Returns (out, None)
         /\ In (repeat 0x61%N 50) (Split_nl out))
  /\ (StringWidth cjkWide (repeat 0x61%N 50) <= 78
      \/ noSpace (repeat 0x61%N 50) = true).
Proof.
  assert (exists out,
             FromHTMLNode cjkWide barTable
               (element P []
                  [textNode (repeat 0x61%N 50 ++ [SP] ++ repeat 0x61%N 50)])
               []
             = Returns (out, None)
             /\ In (repeat 0x61%N 50) (Split_nl out)) as [out [Hrun Hin]].
  { eexists. split; [vm_compute; reflexivity|]. vm_compute. left. reflexivity. }
  split; [reflexivity|]. split; [reflexivity|].
  split; [exists out; split; [exact Hrun | exact Hin]|].
  exact (rendered_lines_fit cjkWide barTable
           (element P []
              [textNode (repeat 0x61%N 50 ++ [SP] ++ repeat 0x61%N 50)])
           [] out (repeat 0x61%N 50) eq_refl eq_refl Hrun Hin).
Defined.

(** X10 at a paragraph, from the context a render starts with. *)
Lemma traverse_keeps_pendSpace_witness :
  (lw_pendSpace (wrapper (newCtx zeroOptions)) = 0
   \/ lw_pendSpace (wrapper (newCtx zeroOptions)) = 1)
  /\ exists ctx',
       traverse cjkWide barTable (element P [] [text "a b"])
                (newCtx zeroOptions)
       = Returns (ctx', None)
       /\ (lw_pendSpace (wrapper ctx') = 0 \/ lw_pendSpace (wrapper ctx') = 1).
Proof.
  assert (exists c,
             traverse cjkWide barTable (element P [] [text "a b"])
                      (newCtx zeroOptions)
             = Returns (c, None)) as [c Hrun].
  { eexists. vm_compute. reflexivity. }
  split; [left; reflexivity|]. exists c. split; [exact Hrun|].
  exact (traverse_keeps_pendSpace cjkWide barTable
           (element P [] [text "a b"]) (newCtx zeroOptions) c None
           (or_introl eq_refl) Hrun).
Defined.

(** X11 at a paragraph whose text holds a tab and two spaces. *)
Lemma table_free_output_is_tidy_witness :
  noTable (element P [] [textNode (lit "a" ++ [9%N; SP; SP] ++ lit "b")])
  = true
  /\ exists out,
       FromHTMLNode cjkWide barTable
         (element P [] [textNode (lit "a" ++ [9%N; SP; SP] ++ lit "b")]) []
       = Returns (out, None)
       /\ (forall r, In r out -> IsSpace r = true -> r = SP \/ r = LF)
       /\ (forall a b, out = a ++ SP :: b ->
             (exists a' x, a = a' ++ [x] /\ IsSpace x = false)
             /\ (exists y b', b = y :: b' /\ IsSpace y = false)).
Proof.
  assert (exists out,
             FromHTMLNode cjkWide barTable
               (element P []
                  [textNode (lit "a" ++ [9%N; SP; SP] ++ lit "b")]) []
             = Returns (out, None)) as [out Hrun].
  { eexists. vm_compute. reflexivity. }
  split; [reflexivity|]. exists out. split; [exact Hrun|].
  exact (table_free_output_is_tidy cjkWide barTable
           (element P [] [textNode (lit "a" ++ [9%N; SP; SP] ++ lit "b")])
           [] out eq_refl Hrun).
Defined.

